(** * Naive-Chess-Engine: a shallow embedding of board.py, pieces.py,
      engine.py and game.py, and the properties checked against it.

    Conventions of the embedding.
    - Python [int] is [Z]; [float] scores are [Q] (every score the engine
      computes is an integer times a power of two, so the arithmetic is exact
      until underflow); [math.inf] is [None] in an [option].
    - Python [str] is [string].
    - [dict] and [set] are association lists and duplicate-free lists, with
      the insertion behaviour of [dict]/[defaultdict] written out.
    - Objects that are mutated through aliases ([GamePiece], [MoveNode], the
      leaf sets of the search tree) live in explicit stores and are referred
      to by address.
    - A raised exception is the left injection of a sum; the store is threaded
      through, so what a call mutated before it raised stays mutated.
    - What [print] writes is not modelled; the evaluation of its arguments
      is, since [to_name] can raise. *)

From Stdlib Require Import ZArith List String Ascii Bool Lia QArith.
From Stdlib Require Import Permutation Sorted Qround.
Import ListNotations.
Open Scope Z_scope.

(* ------------------------------------------------------------------ *)
(** ** Exceptions *)

Inductive exn : Type :=
| ValueError
| KeyError
| IndexError
| AttributeError
| RecursionError
| InvalidPositionException
| Diverges.   (* not an exception: the Python code would loop for ever *)

Definition exn_eqb (a b : exn) : bool :=
  match a, b with
  | ValueError, ValueError | KeyError, KeyError | IndexError, IndexError
  | AttributeError, AttributeError | RecursionError, RecursionError
  | InvalidPositionException, InvalidPositionException
  | Diverges, Diverges => true
  | _, _ => false
  end.

(** [result A] is a Python call that returns an [A] or raises. *)
Definition result (A : Type) : Type := (exn + A)%type.
Definition ok {A} (a : A) : result A := inr a.
Definition raise {A} (e : exn) : result A := inl e.

(* ------------------------------------------------------------------ *)
(** ** board.py: Square *)

Record Square : Type := mkSquare { col : Z; row : Z }.

Definition _cols : list string := ["a"; "b"; "c"; "d"; "e"; "f"; "g"; "h"]%string.
Definition _rows : list string := ["1"; "2"; "3"; "4"; "5"; "6"; "7"; "8"]%string.

Definition len {A} (l : list A) : Z := Z.of_nat (List.length l).

(** Python list indexing: a negative index counts from the end, anything out
    of range raises [IndexError]. *)
Definition py_index {A} (l : list A) (i : Z) : result A :=
  let j := if i <? 0 then i + len l else i in
  if j <? 0 then raise IndexError
  else match nth_error l (Z.to_nat j) with
       | Some x => ok x
       | None => raise IndexError
       end.

(** [list.index]: position of the first equal element. *)
Fixpoint list_index (x : string) (l : list string) : result Z :=
  match l with
  | [] => raise ValueError
  | y :: l' => if String.eqb x y then ok 0
               else match list_index x l' with
                    | inr k => ok (k + 1)
                    | inl e => raise e
                    end
  end.

Fixpoint str_in (x : string) (l : list string) : bool :=
  match l with
  | [] => false
  | y :: l' => String.eqb x y || str_in x l'
  end.

Definition is_valid (s : Square) : bool :=
  (col s >=? 0) && (col s <? len _cols) && (row s >=? 0) && (row s <? len _rows).

Definition find_diff (s e : Square) : Z * Z := (col e - col s, row e - row s).

Definition apply_diff (s : Square) (d : Z * Z) : Square :=
  mkSquare (col s + fst d) (row s + snd d).

Definition get_position (s : Square) : result (string * string) :=
  match py_index _cols (col s) with
  | inl e => raise e
  | inr c => match py_index _rows (row s) with
             | inl e => raise e
             | inr r => ok (c, r)
             end
  end.

(** [Square.__hash__] and [Square.__eq__] go through [get_position], which
    raises [IndexError] when a coordinate is no index of [_cols] or [_rows].
    [Square_eq] is [a == b] as the source writes it between two squares.
    [Square_eqb] is the comparison a dict or a set makes between its keys: a
    square is hashed before it is looked up or stored, so the comparison is
    only reached by squares that passed [hash_square]. *)
Definition hash_square (s : Square) : result unit :=
  match get_position s with
  | inl e => raise e
  | inr _ => ok tt
  end.

Definition Square_eq (a b : Square) : result bool :=
  match get_position a with
  | inl e => raise e
  | inr (c, r) =>
      match get_position b with
      | inl e => raise e
      | inr (c', r') => ok (String.eqb c c' && String.eqb r r')
      end
  end.

Definition Square_eqb (a b : Square) : bool :=
  match get_position a, get_position b with
  | inr (c, r), inr (c', r') => String.eqb c c' && String.eqb r r'
  | _, _ => false
  end.

Definition to_name (s : Square) : result string :=
  match get_position s with
  | inl e => raise e
  | inr (c, r) => ok (String.append c r)
  end.

(** [name[i]] for a string known to have length 2. *)
Definition from_name (name : string) : result Square :=
  match name with
  | String c0 (String c1 EmptyString) =>
      let col_name := String c0 EmptyString in
      let row_name := String c1 EmptyString in
      if negb (str_in col_name _cols) || negb (str_in row_name _rows)
      then raise ValueError
      else match list_index col_name _cols, list_index row_name _rows with
           | inr c, inr r => ok (mkSquare c r)
           | inl e, _ => raise e
           | _, inl e => raise e
           end
  | _ => raise ValueError
  end.

(** The pattern [[a-h][1-8]] of the specification, on character codes. *)
Definition matches_pattern (name : string) : bool :=
  match name with
  | String c0 (String c1 EmptyString) =>
      let n0 := N.to_nat (N_of_ascii c0) in
      let n1 := N.to_nat (N_of_ascii c1) in
      (Nat.leb 97 n0 && Nat.leb n0 104 && Nat.leb 49 n1 && Nat.leb n1 56)%bool
  | _ => false
  end.

(** Squares by name, for readable positions (total on the 64 names). *)
Definition sq (name : string) : Square :=
  match from_name name with
  | inr s => s
  | inl _ => mkSquare (-1) (-1)
  end.

(* ------------------------------------------------------------------ *)
(** ** Python containers *)

Section Containers.
Context {K V : Type} (eqb : K -> K -> bool).

(** [k in d] *)
Fixpoint dict_mem (k : K) (d : list (K * V)) : bool :=
  match d with
  | [] => false
  | (k', _) :: d' => eqb k k' || dict_mem k d'
  end.

(** [d[k]] of a plain dict; [None] stands for [KeyError]. *)
Fixpoint dict_get (k : K) (d : list (K * V)) : option V :=
  match d with
  | [] => None
  | (k', v) :: d' => if eqb k k' then Some v else dict_get k d'
  end.

(** [d[k] = v]: an existing key keeps its place (and its key object), a new
    key goes to the end. *)
Fixpoint dict_set (k : K) (v : V) (d : list (K * V)) : list (K * V) :=
  match d with
  | [] => [(k, v)]
  | (k', v') :: d' => if eqb k k' then (k', v) :: d'
                      else (k', v') :: dict_set k v d'
  end.

(** [del d[k]]; [None] stands for [KeyError]. *)
Fixpoint dict_del (k : K) (d : list (K * V)) : option (list (K * V)) :=
  match d with
  | [] => None
  | (k', v') :: d' =>
      if eqb k k' then Some d'
      else match dict_del k d' with
           | Some d'' => Some ((k', v') :: d'')
           | None => None
           end
  end.

(** [x in s], [s.add(x)] (an equal element already present stays, the new
    object is dropped) and [s.discard(x)] on a set. *)
Fixpoint set_mem (x : K) (s : list K) : bool :=
  match s with
  | [] => false
  | y :: s' => eqb x y || set_mem x s'
  end.

Definition set_add (x : K) (s : list K) : list K :=
  if set_mem x s then s else s ++ [x].

Fixpoint set_discard (x : K) (s : list K) : list K :=
  match s with
  | [] => []
  | y :: s' => if eqb x y then s' else y :: set_discard x s'
  end.
End Containers.

Section DefaultDict.
Context {K E : Type} (eqb : K -> K -> bool).

(** [d[k]] of a [defaultdict(set)], read side: the set, empty when the key
    is missing. *)
Definition dd_lookup (k : K) (d : list (K * list E)) : list E :=
  match dict_get eqb k d with
  | Some s => s
  | None => []
  end.

(** [d[k]] of a [defaultdict(set)], write side: a missing key is inserted
    with an empty set (under the key object used for the lookup). *)
Definition dd_touch (k : K) (d : list (K * list E)) : list (K * list E) :=
  if dict_mem eqb k d then d else d ++ [(k, [])].

(** [d[k].add(x)], [d[k].discard(x)]: the set found or inserted by the
    lookup is changed in place. *)
Definition dd_update (k : K) (f : list E -> list E) (d : list (K * list E))
  : list (K * list E) :=
  let d' := dd_touch k d in
  dict_set eqb k (f (dd_lookup k d')) d'.
End DefaultDict.

(* ------------------------------------------------------------------ *)
(** ** pieces.py *)

Inductive PieceType : Type := PAWN | KNIGHT | BISHOP | ROOK | QUEEN | KING.
Inductive Color : Type := WHITE | BLACK.

Definition Color_eqb (a b : Color) : bool :=
  match a, b with
  | WHITE, WHITE | BLACK, BLACK => true
  | _, _ => false
  end.

Definition PieceType_eqb (a b : PieceType) : bool :=
  match a, b with
  | PAWN, PAWN | KNIGHT, KNIGHT | BISHOP, BISHOP
  | ROOK, ROOK | QUEEN, QUEEN | KING, KING => true
  | _, _ => false
  end.

(** [max_distance] is a float in the source: [None] is [math.inf]. *)
Record MovementVector : Type := mkVector {
  direction : Z * Z;
  max_distance : option Z;
  can_capture : bool;
  can_only_capture : bool
}.

(** [MovementVector(direction)] with the default arguments. *)
Definition vec (d : Z * Z) : MovementVector := mkVector d None true false.
Definition vec1 (d : Z * Z) : MovementVector := mkVector d (Some 1) true false.

(** [distance > vector.max_distance] *)
Definition exceeds (distance : Z) (v : MovementVector) : bool :=
  match max_distance v with
  | None => false
  | Some m => distance >? m
  end.

(** [value] and [type] are class attributes, [vectors] is one too except for
    [Pawn], which builds its own list per instance; it is a field here. *)
Record Piece : Type := mkPiece {
  type : PieceType;
  color : Color;
  has_moved : bool;
  vectors : list MovementVector
}.

Definition value (p : Piece) : Z :=
  match type p with
  | PAWN => 1
  | KNIGHT => 3
  | BISHOP => 3
  | ROOK => 5
  | QUEEN => 9
  | KING => 0
  end.

Definition Knight_vectors : list MovementVector :=
  [vec1 (1, 2); vec1 (2, 1); vec1 (2, -1); vec1 (1, -2);
   vec1 (-1, -2); vec1 (-2, -1); vec1 (-2, 1); vec1 (-1, 2)].
Definition Bishop_vectors : list MovementVector :=
  [vec (1, 1); vec (1, -1); vec (-1, -1); vec (-1, 1)].
Definition Rook_vectors : list MovementVector :=
  [vec (1, 0); vec (0, 1); vec (-1, 0); vec (0, -1)].
Definition Queen_vectors : list MovementVector :=
  Rook_vectors ++ Bishop_vectors.
Definition King_vectors : list MovementVector :=
  map (fun m => vec1 (direction m)) Queen_vectors.

Definition Pawn (c : Color) : Piece :=
  let direction := if Color_eqb c WHITE then 1 else -1 in
  mkPiece PAWN c false
    [mkVector (0, direction) (Some 2) false false;
     mkVector (1, direction) (Some 1) true true;
     mkVector (-1, direction) (Some 1) true true].
Definition Knight (c : Color) : Piece := mkPiece KNIGHT c false Knight_vectors.
Definition Bishop (c : Color) : Piece := mkPiece BISHOP c false Bishop_vectors.
Definition Rook (c : Color) : Piece := mkPiece ROOK c false Rook_vectors.
Definition Queen (c : Color) : Piece := mkPiece QUEEN c false Queen_vectors.
Definition King (c : Color) : Piece := mkPiece KING c false King_vectors.

(** [Piece.move], with the override of [Pawn.move]:
    [self.vectors[0].max_distance = 1]. *)
Definition Piece_move (p : Piece) : Piece :=
  let vs :=
    match type p, vectors p with
    | PAWN, v0 :: vs =>
        mkVector (direction v0) (Some 1) (can_capture v0) (can_only_capture v0) :: vs
    | _, vs => vs
    end in
  mkPiece (type p) (color p) true vs.

(* ------------------------------------------------------------------ *)
(** ** board.py: moves, pieces on squares and the store of piece objects *)

Record Move : Type := mkMove { start : Square; end_ : Square }.

Definition Move_eqb (a b : Move) : bool :=
  Square_eqb (start a) (start b) && Square_eqb (end_ a) (end_ b).

(** [hash(move)] hashes both squares. *)
Definition hash_move (m : Move) : result unit :=
  match hash_square (start m), hash_square (end_ m) with
  | inr _, inr _ => ok tt
  | inl e, _ => raise e
  | _, inl e => raise e
  end.

Record GamePiece : Type := mkGamePiece {
  _uuid : nat;
  piece : Piece;
  square : Square;
  possible_squares : list (Square * MovementVector)
}.

(** A reference to a [GamePiece] object.  [GamePiece.__eq__] and [__hash__]
    go through [_uuid], which no method changes, so a reference carries the
    uuid of its object next to its address: two references are equal as set
    members or dict keys when the uuids agree, also when they point to
    different objects (a piece and its [deepcopy]). *)
Record PRef : Type := mkRef { ref_uuid : nat; ref_addr : nat }.

Definition PRef_eqb (a b : PRef) : bool := Nat.eqb (ref_uuid a) (ref_uuid b).

Definition Heap : Type := list GamePiece.

Definition dangling : GamePiece :=
  mkGamePiece 0 (mkPiece PAWN WHITE false []) (mkSquare (-1) (-1)) [].

Definition deref (h : Heap) (r : PRef) : GamePiece := nth (ref_addr r) h dangling.

Fixpoint list_update {A} (l : list A) (n : nat) (f : A -> A) : list A :=
  match l, n with
  | [], _ => []
  | x :: l', O => f x :: l'
  | x :: l', S n' => x :: list_update l' n' f
  end.

(** [copy.deepcopy(piece)]: a new object with equal fields, the uuid
    included. *)
Definition deepcopy (h : Heap) (r : PRef) : Heap * PRef :=
  (h ++ [deref h r], mkRef (ref_uuid r) (List.length h)).

(** [self.possible_squares[new_square] = vector] on the object behind [r]. *)
Definition cache_square (h : Heap) (r : PRef) (s : Square) (v : MovementVector) : Heap :=
  list_update h (ref_addr r)
    (fun g => mkGamePiece (_uuid g) (piece g) (square g)
                (dict_set Square_eqb s v (possible_squares g))).

(** [GamePiece.move] *)
Definition GamePiece_move (h : Heap) (r : PRef) (s : Square) : Heap :=
  list_update h (ref_addr r)
    (fun g => mkGamePiece (_uuid g) (Piece_move (piece g)) s []).

(* ------------------------------------------------------------------ *)
(** ** board.py: KingLocations, CheckVectors, BoardState *)

Record KingLocations : Type := mkKings { white : Square; black : Square }.

Definition KingLocations_get (k : KingLocations) (c : Color) : Square :=
  match c with WHITE => white k | BLACK => black k end.

(** [KingLocations.move].  [move.start not in self._locations.values()]
    compares the two squares with [move.start] by [==], the second one only
    when the first differs; the two conditional expressions compare again. *)
Definition KingLocations_move (k : KingLocations) (m : Move) : result KingLocations :=
  match Square_eq (white k) (start m) with
  | inl e => raise e
  | inr is_white =>
      match (if is_white then ok true else Square_eq (black k) (start m)) with
      | inl e => raise e
      | inr false => ok k
      | inr true =>
          match Square_eq (white k) (start m) with
          | inl e => raise e
          | inr w =>
              match Square_eq (black k) (start m) with
              | inl e => raise e
              | inr bl => ok (mkKings (if w then end_ m else white k)
                                      (if bl then end_ m else black k))
              end
          end
      end
  end.

(** A [CheckVectors] object is its list [vectors] of paths. *)
Definition CheckVectors : Type := list (list Square).

(** No walk from a square of the board along a non-zero direction needs more
    iterations than this; a walk that runs out of them is reported as
    [Diverges] (for a vector with a zero direction and no maximal distance
    the source loops for ever; pieces.py has no such vector). *)
Definition board_fuel : nat := 9.

(** The loop of [CheckVectors.add]. *)
Fixpoint add_path (fuel : nat) (king : Square) (v : MovementVector)
    (new_square : Square) (distance : Z) (path : list Square)
  : result (list Square) :=
  match fuel with
  | O => raise Diverges
  | S fuel' =>
      let path := path ++ [new_square] in
      let distance := distance + 1 in
      if exceeds distance v then raise ValueError
      else
        let new_square := apply_diff new_square (direction v) in
        if negb (is_valid new_square) then raise ValueError
        else
          match Square_eq new_square king with
          | inl e => raise e
          | inr true => ok path
          | inr false => add_path fuel' king v new_square distance path
          end
  end.

Definition CheckVectors_add (cv : CheckVectors) (attacker king : Square)
    (v : MovementVector) : result CheckVectors :=
  if negb (can_capture v) then raise ValueError
  else match add_path board_fuel king v attacker 0 [] with
       | inl e => raise e
       | inr path => ok (cv ++ [path])
       end.

(** [set(path)]: each square is hashed as it goes in, duplicates are
    dropped. *)
Fixpoint set_of_squares (path : list Square) (acc : list Square)
  : result (list Square) :=
  match path with
  | [] => ok acc
  | x :: rest =>
      match hash_square x with
      | inl e => raise e
      | inr _ => set_of_squares rest (set_add Square_eqb x acc)
      end
  end.

(** [blocking_squares]: [set(self.vectors[0])] when there is one path. *)
Definition blocking_squares (cv : CheckVectors) : result (list Square) :=
  match cv with
  | [path] => set_of_squares path []
  | _ => ok []
  end.

(** [check_vectors] is the dict of the two colours' trackers. *)
Record BoardState : Type := mkState {
  last_move : option Move;        (* [None] is [EmptyMove()] *)
  turn : Color;
  next_turn : Color;
  material : Z;
  check_white : CheckVectors;
  check_black : CheckVectors;
  king_squares : KingLocations
}.

Definition check_vectors (s : BoardState) (c : Color) : CheckVectors :=
  match c with WHITE => check_white s | BLACK => check_black s end.

Definition set_check_vectors (s : BoardState) (c : Color) (cv : CheckVectors) : BoardState :=
  match c with
  | WHITE => mkState (last_move s) (turn s) (next_turn s) (material s)
               cv (check_black s) (king_squares s)
  | BLACK => mkState (last_move s) (turn s) (next_turn s) (material s)
               (check_white s) cv (king_squares s)
  end.

(** [BoardState.__init__]: the tracker passed in belongs to [turn], the other
    colour gets a new empty one. *)
Definition BoardState_init (last : option Move) (turn : Color) (material : Z)
    (checks : CheckVectors) (kings : KingLocations) : BoardState :=
  let next_turn := if Color_eqb turn BLACK then WHITE else BLACK in
  set_check_vectors
    (set_check_vectors
       (mkState last turn next_turn material [] [] kings) turn checks)
    next_turn [].

Definition take_turn (s : BoardState) : BoardState :=
  mkState (last_move s) (next_turn s) (turn s) (material s)
    (check_white s) (check_black s) (king_squares s).

Definition add_material (s : BoardState) (d : Z) : BoardState :=
  mkState (last_move s) (turn s) (next_turn s) (material s + d)
    (check_white s) (check_black s) (king_squares s).

(* ------------------------------------------------------------------ *)
(** ** board.py: Board *)

Record Board : Type := mkBoard {
  state : BoardState;
  _position : list (Square * PRef);
  _relevant_piece_squares : list (Square * list PRef);
  _available_moves : list (PRef * list Square)
}.

Definition with_state (b : Board) (s : BoardState) : Board :=
  mkBoard s (_position b) (_relevant_piece_squares b) (_available_moves b).
Definition with_position (b : Board) (p : list (Square * PRef)) : Board :=
  mkBoard (state b) p (_relevant_piece_squares b) (_available_moves b).
Definition with_relevant (b : Board) (r : list (Square * list PRef)) : Board :=
  mkBoard (state b) (_position b) r (_available_moves b).
Definition with_available (b : Board) (a : list (PRef * list Square)) : Board :=
  mkBoard (state b) (_position b) (_relevant_piece_squares b) a.

(** [self._relevant_piece_squares[s].add(p)] and the like. *)
Definition relevant_add (s : Square) (p : PRef) (b : Board) : Board :=
  with_relevant b (dd_update Square_eqb s (set_add PRef_eqb p) (_relevant_piece_squares b)).
Definition relevant_discard (s : Square) (p : PRef) (b : Board) : Board :=
  with_relevant b (dd_update Square_eqb s (set_discard PRef_eqb p) (_relevant_piece_squares b)).
Definition available_add (p : PRef) (s : Square) (b : Board) : Board :=
  with_available b (dd_update PRef_eqb p (set_add Square_eqb s) (_available_moves b)).
Definition available_discard (p : PRef) (s : Square) (b : Board) : Board :=
  with_available b (dd_update PRef_eqb p (set_discard Square_eqb s) (_available_moves b)).

(** The body of the inner loop of [prepare_moves] for one candidate
    [(sqr, v)] of [p]; returns the board and the flag [terminated]. *)
Definition scan_candidate (h : Heap) (p : PRef) (b : Board) (terminated : bool)
    (sqr : Square) (v : MovementVector) : result (Board * bool) :=
  if negb terminated then
    let b := relevant_add sqr p b in
    match dict_get Square_eqb sqr (_position b) with
    | Some held_ref =>
        let held_by := deref h held_ref in
        let me := deref h p in
        if negb (Color_eqb (color (piece held_by)) (color (piece me))) && can_capture v
        then
          if PieceType_eqb (type (piece held_by)) KING then
            if Color_eqb (color (piece held_by)) (next_turn (state b))
            then raise InvalidPositionException
            else
              let c := color (piece held_by) in
              match CheckVectors_add (check_vectors (state b) c)
                      (square me) (square held_by) v with
              | inl e => raise e
              | inr cv =>
                  ok (available_add p sqr
                        (with_state b (set_check_vectors (state b) c cv)), true)
              end
          else ok (available_add p sqr b, true)
        else ok (available_discard p sqr b, true)
    | None =>
        if negb (can_only_capture v)
        then ok (available_add p sqr b, false)
        else ok (available_discard p sqr b, false)
    end
  else
    ok (available_discard p sqr (relevant_discard sqr p b), true).

(** [_generate_moves] consumed by the inner loop of [prepare_moves]: each
    square is cached on the piece object just before the loop body sees it. *)
Fixpoint scan_ray (fuel : nat) (p : PRef) (v : MovementVector)
    (new_square : Square) (distance : Z) (terminated : bool)
    (h : Heap) (b : Board) : Heap * result Board :=
  match fuel with
  | O => (h, raise Diverges)
  | S fuel' =>
      if exceeds distance v then (h, ok b)
      else if negb (is_valid new_square) then (h, ok b)
      else
        let h := cache_square h p new_square v in
        match scan_candidate h p b terminated new_square v with
        | inl e => (h, raise e)
        | inr (b, terminated) =>
            scan_ray fuel' p v (apply_diff new_square (direction v))
              (distance + 1) terminated h b
        end
  end.

(** [prepare_moves(piece)]: [initialize_moves], one ray per vector. *)
Fixpoint scan_vectors (p : PRef) (vs : list MovementVector) (h : Heap) (b : Board)
  : Heap * result Board :=
  match vs with
  | [] => (h, ok b)
  | v :: vs' =>
      match scan_ray board_fuel p v
              (apply_diff (square (deref h p)) (direction v)) 1 false h b with
      | (h, inr b) => scan_vectors p vs' h b
      | (h, inl e) => (h, raise e)
      end
  end.

(** One branch of [update_moves]: [if s in self.possible_squares: yield ...].
    The test hashes the square, and runs when the consumer asks for the next
    ray, so it sees the cache as the rays before it left it. *)
Definition rescan_from (p : PRef) (s : Square) (h : Heap) (b : Board)
  : Heap * result Board :=
  match hash_square s with
  | inl e => (h, raise e)
  | inr _ =>
      match dict_get Square_eqb s (possible_squares (deref h p)) with
      | Some v => scan_ray board_fuel p v s 1 false h b
      | None => (h, ok b)
      end
  end.

Definition prepare_moves (p : PRef) (move : option Move) (h : Heap) (b : Board)
  : Heap * result Board :=
  match move with
  | None => scan_vectors p (vectors (piece (deref h p))) h b
  | Some m =>
      match rescan_from p (start m) h b with
      | (h, inr b) => rescan_from p (end_ m) h b
      | (h, inl e) => (h, raise e)
      end
  end.

Fixpoint prepare_all (ps : list PRef) (move : option Move) (h : Heap) (b : Board)
  : Heap * result Board :=
  match ps with
  | [] => (h, ok b)
  | p :: ps' =>
      match prepare_moves p move h b with
      | (h, inr b) => prepare_all ps' move h b
      | (h, inl e) => (h, raise e)
      end
  end.

(** [rebuild]; the board object is lost to the model when a scan raises. *)
Definition rebuild (h : Heap) (b : Board) : Heap * result Board :=
  prepare_all (map snd (_position b)) None h
    (with_available (with_relevant b []) []).

(** The loop of [make_move] over the cache of the moved piece: [set.discard]
    then [set.add] of an equal element puts the copy in the place of the
    object it was copied from. *)
Definition swap_in (moved : PRef) (rel : list (Square * list PRef)) (s : Square)
  : list (Square * list PRef) :=
  let rel := dd_touch Square_eqb s rel in
  if set_mem PRef_eqb moved (dd_lookup Square_eqb s rel)
  then dd_update Square_eqb s (set_add PRef_eqb moved)
         (dd_update Square_eqb s (set_discard PRef_eqb moved) rel)
  else rel.

(** The loop of [make_move] over the cache of the captured piece. *)
Definition purge (captured : PRef) (rel : list (Square * list PRef)) (s : Square)
  : list (Square * list PRef) :=
  dd_update Square_eqb s (set_discard PRef_eqb captured) rel.

(** The block [if move.end in self._position: ...] of [make_move]. *)
Definition capture (h : Heap) (b : Board) (move : Move) : result Board :=
  match hash_square (end_ move) with
  | inl e => raise e
  | inr _ =>
      match dict_get Square_eqb (end_ move) (_position b) with
      | None => ok b
      | Some captured_piece =>
          let cp := piece (deref h captured_piece) in
          let b := with_state b
                     (add_material (state b)
                        (value cp * (if Color_eqb (color cp) BLACK then 1 else -1))) in
          match dict_del PRef_eqb captured_piece (_available_moves b) with
          | None => raise KeyError
          | Some av =>
              ok (with_relevant (with_available b av)
                    (fold_left (purge captured_piece)
                       (map fst (possible_squares (deref h captured_piece)))
                       (_relevant_piece_squares b)))
          end
      end
  end.

(** The two [print] calls of the turn-violation branch of [make_move] write
    to the terminal, which is not modelled, but their arguments are
    evaluated first, and [to_name] raises [IndexError] for a square that
    cannot be indexed.  The exception the branch ends with. *)
Definition turn_violation (move : Move) : exn :=
  match to_name (start move) with
  | inl e => e
  | inr _ =>
      match to_name (end_ move) with
      | inl e => e
      | inr _ => ValueError
      end
  end.

(** [make_move]; the board object is lost to the model when the call
    raises (the only caller in the repository, [make_child], drops it). *)
Definition make_move (h : Heap) (b : Board) (move : Move) : Heap * result Board :=
  match hash_square (start move) with
  | inl e => (h, raise e)
  | inr _ =>
      match dict_get Square_eqb (start move) (_position b) with
      | None => (h, raise ValueError)
      | Some old =>
          let (h, moved_piece) := deepcopy h old in
          match dict_del PRef_eqb moved_piece (_available_moves b) with
          | None => (h, raise KeyError)
          | Some av =>
              let b := with_available b (dict_set PRef_eqb moved_piece [] av) in
              let b := with_relevant b
                         (fold_left (swap_in moved_piece)
                            (map fst (possible_squares (deref h moved_piece)))
                            (_relevant_piece_squares b)) in
              if negb (Color_eqb (color (piece (deref h moved_piece))) (turn (state b)))
              then (h, raise (turn_violation move))
              else
                match capture h b move with
                | inl e => (h, raise e)
                | inr b =>
                    let h := GamePiece_move h moved_piece (end_ move) in
                    let b := with_position b
                               (dict_set Square_eqb (end_ move) moved_piece (_position b)) in
                    match dict_del Square_eqb (start move) (_position b) with
                    | None => (h, raise KeyError)
                    | Some pos =>
                        let b := with_position b pos in
                        let b := with_state b (take_turn (state b)) in
                        match prepare_moves moved_piece None h b with
                        | (h, inl e) => (h, raise e)
                        | (h, inr b) =>
                            let b := with_relevant b
                                       (dd_touch Square_eqb (start move)
                                          (_relevant_piece_squares b)) in
                            prepare_all
                              (dd_lookup Square_eqb (start move)
                                 (_relevant_piece_squares b))
                              (Some move) h b
                        end
                    end
                end
          end
      end
  end.

(** [make_child]: the maps and the sets in them are copied, the piece objects
    they refer to are not.  When [make_move] raises, the child is dropped and
    with it the copy of the moved piece, which nothing else refers to: the
    store forgets it.  What the call did to the objects that were there before
    stays. *)
Definition make_child (h : Heap) (b : Board) (move : Move) : Heap * result Board :=
  match KingLocations_move (king_squares (state b)) move with
  | inl e => (h, raise e)
  | inr kings =>
      let child :=
        mkBoard
          (BoardState_init (Some move) (turn (state b)) (material (state b))
             (check_vectors (state b) (turn (state b))) kings)
          (_position b) (_relevant_piece_squares b) (_available_moves b) in
      match make_move h child move with
      | (h', inr c) => (h', ok c)
      | (h', inl e) => (firstn (List.length h) h', raise e)
      end
  end.

(** The [except Exception] handler of [generate_legal_moves]: before it
    raises the exception again, its second [print] evaluates
    [piece.square.to_name()] and [square.to_name()], either of which raises
    [IndexError] for a square that cannot be indexed. *)
Definition reported (h : Heap) (p : PRef) (s : Square) (e : exn) : exn :=
  match to_name (square (deref h p)) with
  | inl x => x
  | inr _ =>
      match to_name s with
      | inl x => x
      | inr _ => e
      end
  end.

(** The [try: yield self.make_child(Move(piece.square, square))] loops of
    the move generators, over the squares of one piece that pass [keep].  A
    generator is rendered as the list of boards it yields and the exception,
    if any, that ended it; [InvalidPositionException] is swallowed, any other
    one ends the generator, through the handler above when [printed] is set
    (the loop of [generate_legal_moves]; the loops of
    [_generate_legal_moves_from_check] have no such handler). *)
Fixpoint yield_moves (printed : bool) (p : PRef) (squares : list Square)
    (keep : Square -> bool) (h : Heap) (b : Board)
  : Heap * (list Board * option exn) :=
  match squares with
  | [] => (h, ([], None))
  | s :: rest =>
      if keep s then
        match make_child h b (mkMove (square (deref h p)) s) with
        | (h, inr child) =>
            let '(h, (cs, e)) := yield_moves printed p rest keep h b in
            (h, (child :: cs, e))
        | (h, inl InvalidPositionException) => yield_moves printed p rest keep h b
        | (h, inl e) => (h, ([], Some (if printed then reported h p s e else e)))
        end
      else yield_moves printed p rest keep h b
  end.

(** The loop over the pieces of the side to move when it is not in check. *)
Fixpoint yield_pieces (items : list (PRef * list Square)) (h : Heap) (b : Board)
  : Heap * (list Board * option exn) :=
  match items with
  | [] => (h, ([], None))
  | (p, squares) :: rest =>
      match yield_moves true p squares (fun _ => true) h b with
      | (h, (cs, Some e)) => (h, (cs, Some e))
      | (h, (cs, None)) =>
          let '(h, (cs', e)) := yield_pieces rest h b in
          (h, (cs ++ cs', e))
      end
  end.

(** The last loop of [_generate_legal_moves_from_check]; the lookup
    [self._available_moves[piece]] may insert a key in the board itself. *)
Fixpoint yield_blockers (ps : list PRef) (blocking : list Square)
    (h : Heap) (b : Board) : Heap * Board * (list Board * option exn) :=
  match ps with
  | [] => (h, b, ([], None))
  | p :: rest =>
      let b := with_available b (dd_touch PRef_eqb p (_available_moves b)) in
      match yield_moves false p (dd_lookup PRef_eqb p (_available_moves b))
              (fun m => set_mem Square_eqb m blocking) h b with
      | (h, (cs, Some e)) => (h, b, (cs, Some e))
      | (h, (cs, None)) =>
          let '(h, b, (cs', e)) := yield_blockers rest blocking h b in
          (h, b, (cs ++ cs', e))
      end
  end.

(** [blocking_pieces.update({ p for p in relevant[square] if ... })] over the
    blocking squares. *)
Fixpoint blocking_pieces (h : Heap) (c : Color) (squares : list Square)
    (rel : list (Square * list PRef)) (acc : list PRef)
  : list (Square * list PRef) * list PRef :=
  match squares with
  | [] => (rel, acc)
  | s :: rest =>
      let rel := dd_touch Square_eqb s rel in
      let ps := filter (fun p => Color_eqb (color (piece (deref h p))) c)
                  (dd_lookup Square_eqb s rel) in
      blocking_pieces h c rest rel
        (fold_left (fun acc p => set_add PRef_eqb p acc) ps acc)
  end.

Definition _generate_legal_moves_from_check (h : Heap) (b : Board)
  : Heap * Board * (list Board * option exn) :=
  let king_square := KingLocations_get (king_squares (state b)) (turn (state b)) in
  match hash_square king_square with
  | inl e => (h, b, ([], Some e))
  | inr _ =>
      match dict_get Square_eqb king_square (_position b) with
      | None => (h, b, ([], Some ValueError))
      | Some king =>
          let b := with_available b (dd_touch PRef_eqb king (_available_moves b)) in
          match yield_moves false king (dd_lookup PRef_eqb king (_available_moves b))
                  (fun _ => true) h b with
          | (h, (cs, Some e)) => (h, b, (cs, Some e))
          | (h, (cs, None)) =>
              match blocking_squares (check_vectors (state b) (turn (state b))) with
              | inl e => (h, b, (cs, Some e))
              | inr blocking =>
                  let (rel, ps) := blocking_pieces h (turn (state b)) blocking
                                     (_relevant_piece_squares b) [] in
                  let b := with_relevant b rel in
                  let '(h, b, (cs', e)) := yield_blockers ps blocking h b in
                  (h, b, (cs ++ cs', e))
              end
          end
      end
  end.

Definition in_check (b : Board) : bool :=
  match check_vectors (state b) (turn (state b)) with
  | [] => false
  | _ => true
  end.

Definition generate_legal_moves (h : Heap) (b : Board)
  : Heap * Board * (list Board * option exn) :=
  if in_check b then _generate_legal_moves_from_check h b
  else
    let items := filter (fun ps => Color_eqb (color (piece (deref h (fst ps))))
                                     (turn (state b)))
                   (_available_moves b) in
    let (h, r) := yield_pieces items h b in
    (h, b, r).

(* ------------------------------------------------------------------ *)
(** ** game.py: the starting position *)

Definition starting_pieces : list (string * (Color -> Piece) * Color) :=
  [("a1", Rook, WHITE); ("b1", Knight, WHITE); ("c1", Bishop, WHITE);
   ("d1", Queen, WHITE); ("e1", King, WHITE); ("f1", Bishop, WHITE);
   ("g1", Knight, WHITE); ("h1", Rook, WHITE);
   ("a2", Pawn, WHITE); ("b2", Pawn, WHITE); ("c2", Pawn, WHITE);
   ("d2", Pawn, WHITE); ("e2", Pawn, WHITE); ("f2", Pawn, WHITE);
   ("g2", Pawn, WHITE); ("h2", Pawn, WHITE);
   ("a7", Pawn, BLACK); ("b7", Pawn, BLACK); ("c7", Pawn, BLACK);
   ("d7", Pawn, BLACK); ("e7", Pawn, BLACK); ("f7", Pawn, BLACK);
   ("g7", Pawn, BLACK); ("h7", Pawn, BLACK);
   ("a8", Rook, BLACK); ("b8", Knight, BLACK); ("c8", Bishop, BLACK);
   ("d8", Queen, BLACK); ("e8", King, BLACK); ("f8", Bishop, BLACK);
   ("g8", Knight, BLACK); ("h8", Rook, BLACK)]%string.

(** [GamePiece(piece, square)] for every entry, in the order of the dict
    literal; the n-th object gets uuid n. *)
Definition starting_heap : Heap :=
  map (fun '(n, (name, mk, c)) => mkGamePiece n (mk c) (sq name) [])
    (combine (seq 0 32) starting_pieces).

Definition generate_starting_position : list (Square * PRef) :=
  map (fun '(n, (name, _, _)) => (sq name, mkRef n n))
    (combine (seq 0 32) starting_pieces).

(** [BoardState(EmptyMove())] with its default arguments. *)
Definition starting_state : BoardState :=
  BoardState_init None WHITE 0 [] (mkKings (sq "e1") (sq "e8")).

(** The board of [Game.__init__], before and after [board.rebuild()]. *)
Definition starting_board_raw : Board :=
  mkBoard starting_state generate_starting_position [] [].

Definition starting : Heap * result Board := rebuild starting_heap starting_board_raw.

(* ------------------------------------------------------------------ *)
(** ** engine.py: MoveNode *)

(** A node object.  [parent] and the values of [children] are addresses of
    nodes; [leaf_nodes] and the values of [_child_leaves] are addresses of
    set objects ([update_child_leaves] stores the child's set itself, not a
    copy of it).  [MoveNode] defines no [__eq__], so nodes in a set compare
    by identity, that is by address.  A [last_move] that is [EmptyMove()]
    cannot be hashed (it has no [start]): using it as a key raises
    [AttributeError]. *)
Record MoveNode : Type := mkNode {
  board : Board;
  parent : option nat;
  move_number : Z;
  children : list (Move * nat);
  size : Z;
  _child_sizes : list (Move * Z);
  score : Q;
  sorted_child_scores : list (Q * option Move);
  leaf_nodes : nat;
  _child_leaves : list (Move * nat);
  is_checkmate : bool;
  is_stalemate : bool
}.

Record World : Type := mkWorld {
  pieces : Heap;
  nodes : list MoveNode;
  sets : list (list nat)
}.

Definition dangling_node : MoveNode :=
  mkNode (mkBoard starting_state [] [] []) None 0 [] 0 [] 0 [] O [] false false.

Definition node (w : World) (n : nat) : MoveNode := nth n (nodes w) dangling_node.
Definition leaves (w : World) (a : nat) : list nat := nth a (sets w) [].

Definition with_pieces (w : World) (h : Heap) : World := mkWorld h (nodes w) (sets w).
Definition update_node (w : World) (n : nat) (f : MoveNode -> MoveNode) : World :=
  mkWorld (pieces w) (list_update (nodes w) n f) (sets w).
Definition update_set (w : World) (a : nat) (f : list nat -> list nat) : World :=
  mkWorld (pieces w) (nodes w) (list_update (sets w) a f).
Definition new_set (w : World) : World * nat :=
  (mkWorld (pieces w) (nodes w) (sets w ++ [[]]), List.length (sets w)).

Definition _reset_children (w : World) (n : nat) : World :=
  let (w, s) := new_set w in
  update_node w n (fun x =>
    mkNode (board x) (parent x) (move_number x) [] 1 []
      (inject_Z (material (state (board x)))) [] s [] false false).

(** [child.board.state.last_move] used as a dict key: the lookup hashes it,
    which fails with [AttributeError] on an [EmptyMove] and with
    [IndexError] on a move with a square that cannot be indexed. *)
Definition child_key (w : World) (child : nat) : result Move :=
  match last_move (state (board (node w child))) with
  | Some m =>
      match hash_move m with
      | inl e => raise e
      | inr _ => ok m
      end
  | None => raise AttributeError
  end.

(** The recursion of [update_child_size] and [update_child_leaves] climbs the
    parent chain; [fuel] bounds it, and running out of it is Python's
    [RecursionError]. *)
Fixpoint update_child_size (fuel : nat) (w : World) (self child : nat)
  : World * result unit :=
  match fuel with
  | O => (w, raise RecursionError)
  | S fuel' =>
      match child_key w child with
      | inl e => (w, raise e)
      | inr key =>
          let old_size := match dict_get Move_eqb key (_child_sizes (node w self)) with
                          | Some z => z
                          | None => 0
                          end in
          let child_size := size (node w child) in
          let w := update_node w self (fun x =>
            mkNode (board x) (parent x) (move_number x) (children x)
              (size x - old_size + child_size)
              (dict_set Move_eqb key child_size (_child_sizes x))
              (score x) (sorted_child_scores x) (leaf_nodes x) (_child_leaves x)
              (is_checkmate x) (is_stalemate x)) in
          match parent (node w self) with
          | Some p => update_child_size fuel' w p self
          | None => (w, ok tt)
          end
      end
  end.

Fixpoint update_child_leaves (fuel : nat) (w : World) (self child : nat)
  : World * result unit :=
  match fuel with
  | O => (w, raise RecursionError)
  | S fuel' =>
      match child_key w child with
      | inl e => (w, raise e)
      | inr key =>
          (* old_leaves = self._child_leaves[key], a defaultdict(set) *)
          let (w, old_leaves) :=
            match dict_get Move_eqb key (_child_leaves (node w self)) with
            | Some a => (w, a)
            | None =>
                let (w, a) := new_set w in
                (update_node w self (fun x =>
                   mkNode (board x) (parent x) (move_number x) (children x)
                     (size x) (_child_sizes x) (score x) (sorted_child_scores x)
                     (leaf_nodes x) (dict_set Move_eqb key a (_child_leaves x))
                     (is_checkmate x) (is_stalemate x)), a)
            end in
          let mine := leaf_nodes (node w self) in
          let old := leaves w old_leaves in
          let w := update_set w mine
                     (filter (fun x => negb (set_mem Nat.eqb x old))) in
          let new := leaves w (leaf_nodes (node w child)) in
          let w := update_set w mine
                     (fun s => fold_left (fun s x => set_add Nat.eqb x s) new s) in
          let w := update_node w self (fun x =>
            mkNode (board x) (parent x) (move_number x) (children x)
              (size x) (_child_sizes x) (score x) (sorted_child_scores x)
              (leaf_nodes x)
              (dict_set Move_eqb key (leaf_nodes (node w child)) (_child_leaves x))
              (is_checkmate x) (is_stalemate x)) in
          match parent (node w self) with
          | Some p => update_child_leaves fuel' w p self
          | None => (w, ok tt)
          end
      end
  end.

(** Enough for any parent chain of the world (a longer one has a cycle). *)
Definition chain_fuel (w : World) : nat := S (List.length (nodes w)).

(** The tail shared by [MoveNode.__init__] and [prepare_children]. *)
Definition notify_parent (w : World) (n : nat) : World * result unit :=
  match parent (node w n) with
  | None => (w, ok tt)
  | Some p =>
      match update_child_size (chain_fuel w) w p n with
      | (w, inl e) => (w, raise e)
      | (w, inr _) => update_child_leaves (chain_fuel w) w p n
      end
  end.

(** [MoveNode(board, parent)]: returns the address of the new node. *)
Definition MoveNode_init (w : World) (b : Board) (parent : option nat)
  : World * result nat :=
  let n := List.length (nodes w) in
  let number := match parent with
                | None => 0
                | Some p => move_number (node w p) + 1
                end in
  let w := mkWorld (pieces w)
             (nodes w ++ [mkNode b parent number [] 0 [] 0 [] O [] false false])
             (sets w) in
  let w := _reset_children w n in
  let w := update_set w (leaf_nodes (node w n)) (set_add Nat.eqb n) in
  match notify_parent w n with
  | (w, inl e) => (w, raise e)
  | (w, inr _) => (w, ok n)
  end.

(** The body of the [for board in ...generate_legal_moves()] loop of
    [prepare_children], over the boards the generator yields. *)
Fixpoint add_children (w : World) (n : nat) (boards : list Board)
  : World * result unit :=
  match boards with
  | [] => (w, ok tt)
  | b :: rest =>
      match MoveNode_init w b (Some n) with
      | (w, inl e) => (w, raise e)
      | (w, inr child) =>
          match last_move (state b) with
          | None => (w, raise AttributeError)
          | Some move =>
              let w := update_node w n (fun x =>
                mkNode (board x) (parent x) (move_number x)
                  (dict_set Move_eqb move child (children x))
                  (size x) (_child_sizes x) (score x) (sorted_child_scores x)
                  (leaf_nodes x) (_child_leaves x)
                  (is_checkmate x) (is_stalemate x)) in
              add_children w n rest
          end
      end
  end.

(** [get_move_history]: the last moves along the parent chain, the root's
    first, [EmptyMove] left out.  [fuel] bounds the recursion, as in
    [update_child_size]. *)
Fixpoint get_move_history (fuel : nat) (w : World) (n : nat) : result (list Move) :=
  match fuel with
  | O => raise RecursionError
  | S fuel' =>
      match (match parent (node w n) with
             | Some p => get_move_history fuel' w p
             | None => ok []
             end) with
      | inl e => raise e
      | inr history =>
          ok (match last_move (state (board (node w n))) with
              | Some m => history ++ [m]
              | None => history
              end)
      end
  end.

(** [(move.start.to_name(), move.end.to_name()) for move in ...]: the first
    exception raised, if any. *)
Fixpoint names_of (history : list Move) : option exn :=
  match history with
  | [] => None
  | m :: rest =>
      match to_name (start m) with
      | inl e => Some e
      | inr _ =>
          match to_name (end_ m) with
          | inl e => Some e
          | inr _ => names_of rest
          end
      end
  end.

(** The [except Exception] handler of [prepare_children]: the [print] of the
    move history is evaluated before the exception is raised again. *)
Definition printed_history (w : World) (n : nat) (e : exn) : exn :=
  match get_move_history (chain_fuel w) w n with
  | inl x => x
  | inr history =>
      match names_of history with
      | Some x => x
      | None => e
      end
  end.

(** [prepare_children].  Building a child node between two yields of the
    generator touches no piece object, so the generator is run to its end
    first and the nodes are built from what it yielded. *)
Definition prepare_children (w : World) (n : nat) : World * result unit :=
  let w := _reset_children w n in
  let '(h, b, (boards, e)) := generate_legal_moves (pieces w) (board (node w n)) in
  let w := update_node (with_pieces w h) n (fun x =>
    mkNode b (parent x) (move_number x) (children x) (size x) (_child_sizes x)
      (score x) (sorted_child_scores x) (leaf_nodes x) (_child_leaves x)
      (is_checkmate x) (is_stalemate x)) in
  match add_children w n boards with
  | (w, inl e) => (w, raise (printed_history w n e))
  | (w, inr _) =>
      match e with
      | Some e => (w, raise (printed_history w n e))
      | None =>
          let w :=
            match children (node w n) with
            | [] =>
                let w := update_set w (leaf_nodes (node w n)) (set_add Nat.eqb n) in
                let mate := in_check (board (node w n)) in
                update_node w n (fun x =>
                  mkNode (board x) (parent x) (move_number x) (children x) (size x)
                    (_child_sizes x) (score x) (sorted_child_scores x)
                    (leaf_nodes x) (_child_leaves x)
                    (if mate then true else is_checkmate x)
                    (if mate then is_stalemate x else true))
            | _ => w
            end in
          notify_parent w n
      end
  end.

(** [sorted(..., reverse=reverse, key=itemgetter(0))]: stable in both
    directions. *)
Fixpoint insert_score (reverse : bool) (x : Q * option Move)
    (l : list (Q * option Move)) : list (Q * option Move) :=
  match l with
  | [] => [x]
  | y :: l' =>
      if (if reverse then Qle_bool (fst x) (fst y) else Qle_bool (fst y) (fst x))
      then y :: insert_score reverse x l'
      else x :: y :: l'
  end.

Definition sorted (reverse : bool) (l : list (Q * option Move))
  : list (Q * option Move) :=
  fold_left (fun acc x => insert_score reverse x acc) l [].

(** The [for index, (child_score, move) in enumerate(...)] loop:
    [score = child_score * multiplier]. *)
Fixpoint combine_scores (l : list (Q * option Move)) (index : nat) (score : Q) : Q :=
  match l with
  | [] => score
  | (child_score, _) :: l' =>
      let multiplier := Qpower (1 # 2) (Z.of_nat index) in
      combine_scores l' (S index) (Qred (child_score * multiplier))
  end.

Definition set_score (w : World) (n : nat) (s : Q)
    (sorted_scores : option (list (Q * option Move))) : World :=
  update_node w n (fun x =>
    mkNode (board x) (parent x) (move_number x) (children x) (size x)
      (_child_sizes x) s
      (match sorted_scores with Some l => l | None => sorted_child_scores x end)
      (leaf_nodes x) (_child_leaves x) (is_checkmate x) (is_stalemate x)).

(** The list comprehension of [calculate_score]:
    [(c.calculate_score(), c.board.state.last_move) for c in children.values()]. *)
Fixpoint score_each (score_of : World -> nat -> World * result Q)
    (w : World) (cs : list (Move * nat))
  : World * result (list (Q * option Move)) :=
  match cs with
  | [] => (w, ok [])
  | (_, c) :: rest =>
      match score_of w c with
      | (w, inl e) => (w, raise e)
      | (w, inr s) =>
          let move := last_move (state (board (node w c))) in
          match score_each score_of w rest with
          | (w, inl e) => (w, raise e)
          | (w, inr l) => (w, ok ((s, move) :: l))
          end
      end
  end.

(** [calculate_score]; [fuel] bounds the depth of the recursion through the
    children, and running out of it is Python's [RecursionError]. *)
Fixpoint calculate_score (fuel : nat) (w : World) (n : nat) : World * result Q :=
  match fuel with
  | O => (w, raise RecursionError)
  | S fuel' =>
      let self := node w n in
      let color_modifier := if Color_eqb (turn (state (board self))) WHITE then 1 else -1 in
      if is_checkmate self then
        let score := inject_Z (100 * color_modifier) in
        (set_score w n score None, ok score)
      else if is_stalemate self then
        (set_score w n 0 None, ok 0%Q)
      else
        match children self with
        | [] =>
            let score := inject_Z (material (state (board self))) in
            (set_score w n score None, ok score)
        | cs =>
            let reverse := Color_eqb (turn (state (board self))) BLACK in
            match score_each (calculate_score fuel') w cs with
            | (w, inl e) => (w, raise e)
            | (w, inr l) =>
                let sorted_scores := sorted reverse l in
                let score := combine_scores sorted_scores 0 0%Q in
                (set_score w n score (Some sorted_scores), ok score)
            end
        end
  end.

(* ------------------------------------------------------------------ *)
(** ** engine.py: Engine *)

(** [max_depth] and [max_breadth] are floats: [None] is [math.inf]. *)
Record Engine : Type := mkEngine {
  root : nat;
  max_depth : option Q;
  max_breadth : option Q;
  depth : Z
}.

(** [x < bound] for an int [x] and a float [bound]. *)
Definition below (x : Z) (bound : option Q) : bool :=
  match bound with
  | None => true
  | Some q => negb (Qle_bool q (inject_Z x))
  end.

Definition Engine_init (w : World) (start : Board) (max_depth max_breadth : option Q)
  : World * result Engine :=
  match MoveNode_init w start None with
  | (w, inl e) => (w, raise e)
  | (w, inr r) => (w, ok (mkEngine r max_depth max_breadth 0))
  end.

(** [for leaf in current_leaves: leaf.prepare_children()] *)
Fixpoint expand_leaves (w : World) (current_leaves : list nat) : World * result unit :=
  match current_leaves with
  | [] => (w, ok tt)
  | leaf :: rest =>
      match prepare_children w leaf with
      | (w, inl e) => (w, raise e)
      | (w, inr _) => expand_leaves w rest
      end
  end.

(** Enough for any chain of children of the world. *)
Definition score_fuel (w : World) : nat := S (List.length (nodes w)).

(** [build_tree] with its [while] loop unrolled at most [fuel] times; a loop
    that is still running then is reported as [Diverges]. *)
Fixpoint build_tree (fuel : nat) (w : World) (e : Engine)
  : World * Engine * result unit :=
  if below (depth e) (max_depth e) && below (size (node w (root e))) (max_breadth e)
  then
    match fuel with
    | O => (w, e, raise Diverges)
    | S fuel' =>
        let current_leaves := leaves w (leaf_nodes (node w (root e))) in
        match expand_leaves w current_leaves with
        | (w, inl x) => (w, e, raise x)
        | (w, inr _) =>
            build_tree fuel' w
              (mkEngine (root e) (max_depth e) (max_breadth e) (depth e + 1))
        end
    end
  else
    match calculate_score (score_fuel w) w (root e) with
    | (w, inl x) => (w, e, raise x)
    | (w, inr _) => (w, e, ok tt)
    end.

(** [Engine.make_move] *)
Definition Engine_make_move (w : World) (e : Engine) (move : Move)
  : World * Engine * result unit :=
  match hash_move move with
  | inl x => (w, e, raise x)
  | inr _ =>
      match dict_get Move_eqb move (children (node w (root e))) with
      | None => (w, e, raise KeyError)
      | Some r =>
          let e := mkEngine r (max_depth e) (max_breadth e) (depth e) in
          let w := update_node w r (fun x =>
            mkNode (board x) None (move_number x) (children x) (size x)
              (_child_sizes x) (score x) (sorted_child_scores x)
              (leaf_nodes x) (_child_leaves x) (is_checkmate x) (is_stalemate x)) in
          (w, mkEngine (root e) (max_depth e) (max_breadth e) (depth e - 1), ok tt)
      end
  end.

(** [generate_suggestions] / [get_all_suggestions] *)
Definition get_all_suggestions (w : World) (e : Engine) : list (Q * option Move) :=
  rev (sorted_child_scores (node w (root e))).

(* ------------------------------------------------------------------ *)
(** ** game.py: Game *)

Record Game : Type := mkGame {
  engine : Engine;
  history : list Move
}.

(** [Game.make_move] *)
Definition Game_make_move (fuel : nat) (w : World) (g : Game) (move : Move)
  : World * Game * result unit :=
  match Engine_make_move w (engine g) move with
  | (w, e, inl x) => (w, mkGame e (history g), raise x)
  | (w, e, inr _) =>
      match build_tree fuel w e with
      | (w, e, inl x) => (w, mkGame e (history g), raise x)
      | (w, e, inr _) => (w, mkGame e (history g ++ [move]), ok tt)
      end
  end.

(* ------------------------------------------------------------------ *)
(** ** Runs of moves *)

(** The piece a move captures: the one standing on its end square. *)
Definition captured_piece (h : Heap) (b : Board) (m : Move) : option Piece :=
  match dict_get Square_eqb (end_ m) (_position b) with
  | Some r => Some (piece (deref h r))
  | None => None
  end.

(** The value of a captured piece as the specification counts it: positive
    for a black piece, negative for a white one. *)
Definition signed_value (p : Piece) : Z :=
  match color p with
  | BLACK => value p
  | WHITE => - value p
  end.

Definition sum (l : list Z) : Z := fold_right Z.add 0 l.

(** A run of [make_move] calls, each on the board as the call before left it,
    with the pieces captured on the way. *)
Fixpoint make_moves (h : Heap) (b : Board) (moves : list Move)
  : Heap * result (Board * list Piece) :=
  match moves with
  | [] => (h, ok (b, []))
  | m :: rest =>
      match make_move h b m with
      | (h', inl e) => (h', raise e)
      | (h', inr b') =>
          match make_moves h' b' rest with
          | (h'', inl e) => (h'', raise e)
          | (h'', inr (b'', ps)) =>
              (h'', ok (b'', match captured_piece h b m with
                             | Some p => p :: ps
                             | None => ps
                             end))
          end
      end
  end.

(** The board of a new game and its store of pieces. *)
Definition start_heap : Heap := fst starting.
Definition start_board : Board :=
  match snd starting with
  | inr b => b
  | inl _ => starting_board_raw
  end.

(** Every piece of the position is an object of the store. *)
Definition position_in_heap (h : Heap) (b : Board) : Prop :=
  Forall (fun sr => (ref_addr (snd sr) < List.length h)%nat) (_position b).

(** [line h b moves]: the positions the engine reaches.  Each move must be
    the last move of a board that [generate_legal_moves] yields, and the line
    goes on from that board, in the store as the generator left it. *)
Definition is_move (m : Move) (c : Board) : bool :=
  match last_move (state c) with
  | Some m' => Move_eqb m m'
  | None => false
  end.

Fixpoint line (h : Heap) (b : Board) (moves : list Move) : option (Heap * Board) :=
  match moves with
  | [] => Some (h, b)
  | m :: rest =>
      let '(h', _, (cs, _)) := generate_legal_moves h b in
      match find (is_move m) cs with
      | Some c => line h' c rest
      | None => None
      end
  end.

Definition mv (s e : string) : Move := mkMove (sq s) (sq e).

(* ------------------------------------------------------------------ *)
(** ** Inputs for the engine *)

(** A back-rank mate, White to move: king h1 behind its pawns g2 and h2,
    black rook on a1, black king on g8.  The board is built the way
    [Game.__init__] builds its own: [Board(position, BoardState(...))], then
    [rebuild()]. *)
Definition mate_heap : Heap :=
  [mkGamePiece 0 (King WHITE) (sq "h1") [];
   mkGamePiece 1 (Pawn WHITE) (sq "g2") [];
   mkGamePiece 2 (Pawn WHITE) (sq "h2") [];
   mkGamePiece 3 (Rook BLACK) (sq "a1") [];
   mkGamePiece 4 (King BLACK) (sq "g8") []].

Definition mate_board_raw : Board :=
  mkBoard (BoardState_init None WHITE 0 [] (mkKings (sq "h1") (sq "g8")))
    [(sq "h1", mkRef 0 0); (sq "g2", mkRef 1 1); (sq "h2", mkRef 2 2);
     (sq "a1", mkRef 3 3); (sq "g8", mkRef 4 4)]
    [] [].

Definition mate : Heap * result Board := rebuild mate_heap mate_board_raw.

(** A position with three moves for White, who is to move: Kh1-g1, g2xh3
    (a pawn) and h2xg3 (a bishop).  Black: bishop g3, pawn h3, king a8. *)
Definition captures_heap : Heap :=
  [mkGamePiece 0 (King WHITE) (sq "h1") [];
   mkGamePiece 1 (Pawn WHITE) (sq "g2") [];
   mkGamePiece 2 (Pawn WHITE) (sq "h2") [];
   mkGamePiece 3 (Bishop BLACK) (sq "g3") [];
   mkGamePiece 4 (Pawn BLACK) (sq "h3") [];
   mkGamePiece 5 (King BLACK) (sq "a8") []].

Definition captures_board_raw : Board :=
  mkBoard (BoardState_init None WHITE 0 [] (mkKings (sq "h1") (sq "a8")))
    [(sq "h1", mkRef 0 0); (sq "g2", mkRef 1 1); (sq "h2", mkRef 2 2);
     (sq "g3", mkRef 3 3); (sq "h3", mkRef 4 4); (sq "a8", mkRef 5 5)]
    [] [].

Definition captures_engine (max_depth max_breadth : option Q) : World * result Engine :=
  match rebuild captures_heap captures_board_raw with
  | (h, inl x) => (mkWorld h [] [], raise x)
  | (h, inr b) => Engine_init (mkWorld h [] []) b max_depth max_breadth
  end.

(** [Engine(board, max_depth, max_breadth)] on that board. *)
Definition mate_engine (max_depth max_breadth : option Q) : World * result Engine :=
  match mate with
  | (h, inl x) => (mkWorld h [] [], raise x)
  | (h, inr b) => Engine_init (mkWorld h [] []) b max_depth max_breadth
  end.

(** [Engine(board, 1, math.inf).build_tree()] on the two boards above. *)
Definition searched (start : World * result Engine) : World * Engine * result unit :=
  match start with
  | (w, inr e) => build_tree 1 w e
  | (w, inl x) => (w, mkEngine O None None 0, raise x)
  end.

Definition captures_tree : World * Engine * result unit :=
  searched (captures_engine (Some 1%Q) None).
Definition captures_world : World := fst (fst captures_tree).
Definition captures_root : nat := root (snd (fst captures_tree)).

Definition mate_tree : World * Engine * result unit :=
  searched (mate_engine (Some 1%Q) None).
Definition mate_world : World := fst (fst mate_tree).
Definition mate_root : nat := root (snd (fst mate_tree)).

(** The mate board and its store once [generate_legal_moves] has run on it
    (its lookups in the [defaultdict]s leave a key behind), and a game object
    over the tree of the board with the three moves. *)
Definition mate_generated : Heap * Board * (list Board * option exn) :=
  generate_legal_moves (fst mate)
    (match snd mate with
     | inr b => b
     | inl _ => mate_board_raw
     end).
Definition mated_heap : Heap := fst (fst mate_generated).
Definition mated_board : Board := snd (fst mate_generated).

Definition captures_game : Game := mkGame (snd (fst captures_tree)) [].

(* ------------------------------------------------------------------ *)
(** ** Reference notions the properties are stated with *)

(** The two readings of "one tracker at a time". *)
Definition at_most_one_tracker (b : Board) : Prop :=
  check_vectors (state b) WHITE = [] \/ check_vectors (state b) BLACK = [].

Definition idle_tracker_empty (b : Board) : Prop :=
  check_vectors (state b) (next_turn (state b)) = [].

(** Attacks recomputed from the placement alone: a vector of a piece reaches
    [target] when the walk along it, within its maximal distance, meets
    [target] before any occupied square. *)
Fixpoint reaches (fuel : nat) (pos : list (Square * PRef)) (v : MovementVector)
    (cur : Square) (distance : Z) (target : Square) : bool :=
  match fuel with
  | O => false
  | S fuel' =>
      if exceeds distance v then false
      else if negb (is_valid cur) then false
      else if Square_eqb cur target then true
      else if dict_mem Square_eqb cur pos then false
      else reaches fuel' pos v (apply_diff cur (direction v)) (distance + 1) target
  end.

Definition attacks (h : Heap) (b : Board) (r : PRef) (target : Square) : bool :=
  let g := deref h r in
  existsb (fun v => can_capture v
                    && reaches board_fuel (_position b) v
                         (apply_diff (square g) (direction v)) 1 target)
    (vectors (piece g)).

Definition attacked (h : Heap) (b : Board) (by_color : Color) (target : Square) : bool :=
  existsb (fun sr => Color_eqb (color (piece (deref h (snd sr)))) by_color
                     && attacks h b (snd sr) target)
    (_position b).

(** The king of the side that has just moved stands on an attacked square. *)
Definition mover_king_attacked (h : Heap) (b : Board) : bool :=
  existsb (fun sr =>
             let g := deref h (snd sr) in
             PieceType_eqb (type (piece g)) KING
             && Color_eqb (color (piece g)) (next_turn (state b))
             && attacked h b (turn (state b)) (fst sr))
    (_position b).


(** [a] is at least as good as [b] for the side to move, positive scores
    favouring White. *)
Definition at_least_as_good (t : Color) (a b : Q) : Prop :=
  match t with
  | WHITE => (b <= a)%Q
  | BLACK => (a <= b)%Q
  end.

(** The first pair of the list is the most favourable one for the side to
    move. *)
Definition most_favourable_first (t : Color) (l : list (Q * option Move)) : Prop :=
  match l with
  | [] => True
  | x :: l' => Forall (fun y => at_least_as_good t (fst x) (fst y)) l'
  end.

(** The order [sorted] is meant to produce: ascending scores, descending
    ones when [reverse] is set. *)
Definition in_order (reverse : bool) (a b : Q * option Move) : Prop :=
  if reverse then (fst b <= fst a)%Q else (fst a <= fst b)%Q.

(** A world whose only node is a root on board [b], of size 1 and its own
    only leaf, over the store [h]. *)
Definition lone_root (h : Heap) (b : Board) (w : World) : Prop :=
  pieces w = h
  /\ exists x, nodes w = [x]
               /\ board x = b /\ parent x = None /\ size x = 1
               /\ leaves w (leaf_nodes x) = [O].

(** The destinations and the cache of the piece standing on a square. *)
Definition destinations (b : Board) (s : Square) : list Square :=
  match dict_get Square_eqb s (_position b) with
  | Some p => dd_lookup PRef_eqb p (_available_moves b)
  | None => []
  end.

Definition cache_of (h : Heap) (b : Board) (s : Square) : list Square :=
  match dict_get Square_eqb s (_position b) with
  | Some p => map fst (possible_squares (deref h p))
  | None => []
  end.

(* ------------------------------------------------------------------ *)
(** ** game.py: queries *)

(** The loop of [Game.suggest_moves]:
    [for index, suggestion in enumerate(...): if index >= moves: break]. *)
Fixpoint suggest_loop (suggestions : list (Q * option Move)) (index moves : Z)
    (result : list (Q * option Move)) : list (Q * option Move) :=
  match suggestions with
  | [] => result
  | suggestion :: rest =>
      if index >=? moves then result
      else suggest_loop rest (index + 1) moves (result ++ [suggestion])
  end.

Definition suggest_moves (w : World) (g : Game) (moves : Z) : list (Q * option Move) :=
  suggest_loop (get_all_suggestions w (engine g)) 0 moves [].

(** [Game.get_all_moves] *)
Definition get_all_moves (w : World) (g : Game) : list (Q * option Move) :=
  get_all_suggestions w (engine g).

(** [Game.piece_at]: the lookup hashes the square; only [KeyError] is
    caught. *)
Definition piece_at (w : World) (g : Game) (s : Square) : result (option Piece) :=
  match hash_square s with
  | inl e => raise e
  | inr _ =>
      match dict_get Square_eqb s (_position (board (node w (root (engine g))))) with
      | Some r => ok (Some (piece (deref (pieces w) r)))
      | None => ok None
      end
  end.

(* ------------------------------------------------------------------ *)
(** ** Notions for the further properties *)

(** Two states of a piece object that differ at most in the cache. *)
Definition same_object (g g' : GamePiece) : Prop :=
  _uuid g' = _uuid g /\ piece g' = piece g /\ square g' = square g.

(** Every object of the store [h] is still there in [h'], with its uuid, its
    piece and its square. *)
Definition keeps_pieces (h h' : Heap) : Prop :=
  (List.length h <= List.length h')%nat
  /\ forall a, (a < List.length h)%nat ->
       same_object (nth a h dangling) (nth a h' dangling).

(** [c] is a position one move of the side to move of [b] away: it records
    the move, a piece of the side to move stood on the start square, and the
    turn has passed to the other side. *)
Definition child_of (h : Heap) (b c : Board) : Prop :=
  exists m old,
    last_move (state c) = Some m
    /\ dict_get Square_eqb (start m) (_position b) = Some old
    /\ color (piece (deref h old)) = turn (state b)
    /\ next_turn (state c) = turn (state b)
    /\ turn (state c) <> turn (state b).

(** [b'] is [b] up to keys with an empty set that lookups in its
    [defaultdict]s have left behind: same state, same placement, and every
    lookup in the two indexes gives the same set. *)
Definition unchanged_board (b b' : Board) : Prop :=
  state b' = state b
  /\ _position b' = _position b
  /\ (forall p, dd_lookup PRef_eqb p (_available_moves b')
                = dd_lookup PRef_eqb p (_available_moves b))
  /\ (forall s, dd_lookup Square_eqb s (_relevant_piece_squares b')
                = dd_lookup Square_eqb s (_relevant_piece_squares b)).

(** Two states of a node that differ at most in the score and the sorted
    list of child scores. *)
Definition same_shape (x x' : MoveNode) : Prop :=
  board x' = board x /\ parent x' = parent x /\ move_number x' = move_number x
  /\ children x' = children x /\ size x' = size x
  /\ _child_sizes x' = _child_sizes x /\ leaf_nodes x' = leaf_nodes x
  /\ _child_leaves x' = _child_leaves x
  /\ is_checkmate x' = is_checkmate x /\ is_stalemate x' = is_stalemate x.

(** The same tree over the same pieces and leaf sets, scores apart. *)
Definition same_tree (w w' : World) : Prop :=
  pieces w' = pieces w /\ sets w' = sets w
  /\ List.length (nodes w') = List.length (nodes w)
  /\ forall k, same_shape (node w k) (node w' k).

(** A board that records a move that can be hashed. *)
Definition keyed (c : Board) : Prop :=
  exists m, last_move (state c) = Some m /\ hash_move m = ok tt.

(** The keys of a dict of moves, pairwise different: no move of the list is
    equal, as a key, to an earlier one. *)
Fixpoint distinct_keys (ms : list Move) : Prop :=
  match ms with
  | [] => True
  | m :: ms' => Forall (fun m' => Move_eqb m' m = false) ms' /\ distinct_keys ms'
  end.

(** A node as [MoveNode(board, parent)] leaves it: one node, its own leaf,
    in the leaf set at address [s]. *)
Definition child_node (b : Board) (n : nat) (number : Z) (s : nat) : MoveNode :=
  mkNode b (Some n) number [] 1 [] (inject_Z (material (state b))) [] s []
    false false.

(** A node after a new child at address [c], reached by the move [m] and
    with its leaf set at address [s], has reported to it. *)
Definition adopt (x : MoveNode) (m : Move) (c s : nat) : MoveNode :=
  mkNode (board x) (parent x) (move_number x)
    (dict_set Move_eqb m c (children x))
    (size x - 0 + 1)
    (dict_set Move_eqb m 1 (_child_sizes x))
    (score x) (sorted_child_scores x) (leaf_nodes x)
    (dict_set Move_eqb m s (dict_set Move_eqb m (S s) (_child_leaves x)))
    (is_checkmate x) (is_stalemate x).

Fixpoint adopt_all (x : MoveNode) (c s : nat) (ms : list Move) : MoveNode :=
  match ms with
  | [] => x
  | m :: ms' => adopt_all (adopt x m c s) (S c) (S (S s)) ms'
  end.

Fixpoint kids (n : nat) (number : Z) (s : nat) (bs : list Board) : list MoveNode :=
  match bs with
  | [] => []
  | b :: bs' => child_node b n number s :: kids n number (S (S s)) bs'
  end.

Fixpoint kid_sets (c : nat) (bs : list Board) : list (list nat) :=
  match bs with
  | [] => []
  | _ :: bs' => [c] :: [] :: kid_sets (S c) bs'
  end.

(* ------------------------------------------------------------------ *)
(** * Properties *)

(** ** Square names *)

Lemma py_index_raises {A} (l : list A) (i : Z) (e : exn) :
  py_index l i = raise e -> e = IndexError.
Proof.
  unfold py_index.
  destruct ((if i <? 0 then i + len l else i) <? 0); [intros H; now inversion H | ].
  destruct (nth_error l _); [discriminate | intros H; now inversion H].
Qed.

Lemma hash_square_raises (s : Square) (e : exn) :
  hash_square s = raise e -> e = IndexError.
Proof.
  unfold hash_square, get_position.
  destruct (py_index _cols (col s)) as [x | c] eqn:C.
  - intros H. inversion H; subst. eapply py_index_raises; exact C.
  - destruct (py_index _rows (row s)) as [x | r] eqn:R; [ | discriminate].
    intros H. inversion H; subst. eapply py_index_raises; exact R.
Qed.

Lemma get_position_raises (s : Square) (e : exn) :
  get_position s = raise e -> e = IndexError.
Proof.
  intros H. apply (hash_square_raises s). unfold hash_square. now rewrite H.
Qed.

Lemma Square_eq_raises (a b : Square) (e : exn) :
  Square_eq a b = raise e -> e = IndexError.
Proof.
  unfold Square_eq.
  destruct (get_position a) as [x | [c r]] eqn:A.
  - intros H. inversion H; subst. eapply get_position_raises; exact A.
  - destruct (get_position b) as [x | [c' r']] eqn:B; [ | discriminate].
    intros H. inversion H; subst. eapply get_position_raises; exact B.
Qed.

(** Between squares that can be hashed, [==] is the comparison of keys. *)
Lemma Square_eq_ok (a b : Square) (t : bool) :
  Square_eq a b = ok t <->
  hash_square a = ok tt /\ hash_square b = ok tt /\ Square_eqb a b = t.
Proof.
  unfold Square_eq, Square_eqb, hash_square.
  destruct (get_position a) as [x | [c r]], (get_position b) as [y | [c' r']];
    split; try discriminate; try (intros (A & B & _); discriminate).
  - intros H. inversion H. repeat split.
  - intros (_ & _ & <-). reflexivity.
Qed.


Lemma col_name_in (c : ascii) :
  str_in (String c EmptyString) _cols
  = (Nat.leb 97 (N.to_nat (N_of_ascii c)) && Nat.leb (N.to_nat (N_of_ascii c)) 104)%bool.
Proof.
  destruct c as [[] [] [] [] [] [] [] []]; reflexivity.
Qed.

Lemma row_name_in (c : ascii) :
  str_in (String c EmptyString) _rows
  = (Nat.leb 49 (N.to_nat (N_of_ascii c)) && Nat.leb (N.to_nat (N_of_ascii c)) 56)%bool.
Proof.
  destruct c as [[] [] [] [] [] [] [] []]; reflexivity.
Qed.

Lemma is_valid_range (s : Square) :
  is_valid s = true -> 0 <= col s <= 7 /\ 0 <= row s <= 7.
Proof.
  unfold is_valid, len; simpl.
  rewrite !andb_true_iff. lia.
Qed.

Lemma valid_squares (s : Square) :
  is_valid s = true ->
  In (col s) [0; 1; 2; 3; 4; 5; 6; 7] /\ In (row s) [0; 1; 2; 3; 4; 5; 6; 7].
Proof.
  intros H. apply is_valid_range in H. simpl.
  split; lia.
Qed.

(** C9. Every square of the board (both coordinates between 0 and 7) has a
    name, and [from_name] gives the square back from it; [a1] is file 0,
    rank 0 and [h8] is file 7, rank 7; [from_name] raises [ValueError] on
    every string that does not match the two-character pattern
    [[a-h][1-8]]. *)
Theorem from_name_to_name :
  (forall s : Square, is_valid s = true ->
     exists name, to_name s = ok name /\ from_name name = ok s)
  /\ from_name "a1" = ok (mkSquare 0 0)
  /\ from_name "h8" = ok (mkSquare 7 7)
  /\ (forall name : string, matches_pattern name = false ->
        from_name name = raise ValueError).
Proof.
  repeat split.
  - intros [c r] H. apply valid_squares in H. simpl in H. destruct H as [Hc Hr].
    repeat (destruct Hc as [Hc | Hc]; [ | ]); try contradiction; subst c;
      repeat (destruct Hr as [Hr | Hr]; [ | ]); try contradiction; subst r;
      eexists; split; reflexivity.
  - intros name H.
    destruct name as [ | c0 [ | c1 [ | c2 rest]]]; try reflexivity.
    unfold from_name. rewrite col_name_in, row_name_in.
    unfold matches_pattern in H.
    destruct (Nat.leb 97 (N.to_nat (N_of_ascii c0))),
             (Nat.leb (N.to_nat (N_of_ascii c0)) 104),
             (Nat.leb 49 (N.to_nat (N_of_ascii c1))),
             (Nat.leb (N.to_nat (N_of_ascii c1)) 56);
      simpl in *; try reflexivity; discriminate.
Qed.

Lemma from_name_to_name_witness :
  is_valid (mkSquare 3 4) = true
  /\ exists name, to_name (mkSquare 3 4) = ok name /\ from_name name = ok (mkSquare 3 4).
Proof.
  split; [reflexivity | ].
  apply (proj1 from_name_to_name (mkSquare 3 4)). reflexivity.
Defined.

(** ** Advancing the root *)




(** ** What a scan leaves alone *)

(** Scanning changes the two indexes and the tracker of the side to move;
    the placement, the material, the turn and the tracker of the side that
    moved stay. *)
Definition same_frame (b b' : Board) : Prop :=
  _position b' = _position b
  /\ material (state b') = material (state b)
  /\ turn (state b') = turn (state b)
  /\ next_turn (state b') = next_turn (state b)
  /\ check_vectors (state b') (next_turn (state b))
     = check_vectors (state b) (next_turn (state b)).

Lemma same_frame_refl (b : Board) : same_frame b b.
Proof. repeat split. Qed.

Lemma same_frame_trans (a b c : Board) :
  same_frame a b -> same_frame b c -> same_frame a c.
Proof.
  unfold same_frame. intros (P1 & M1 & T1 & N1 & C1) (P2 & M2 & T2 & N2 & C2).
  rewrite N1 in C2. repeat split; congruence.
Qed.

Lemma Color_eqb_false (a b : Color) : Color_eqb a b = false -> a <> b.
Proof. destruct a, b; simpl; congruence. Qed.

Lemma check_vectors_other (s : BoardState) (c c' : Color) (cv : CheckVectors) :
  c <> c' -> check_vectors (set_check_vectors s c cv) c' = check_vectors s c'.
Proof. destruct c, c'; simpl; congruence. Qed.

Lemma check_vectors_same (s : BoardState) (c : Color) (cv : CheckVectors) :
  check_vectors (set_check_vectors s c cv) c = cv.
Proof. destruct c; reflexivity. Qed.

Lemma set_check_vectors_fields (s : BoardState) (c : Color) (cv : CheckVectors) :
  material (set_check_vectors s c cv) = material s
  /\ turn (set_check_vectors s c cv) = turn s
  /\ next_turn (set_check_vectors s c cv) = next_turn s
  /\ last_move (set_check_vectors s c cv) = last_move s
  /\ king_squares (set_check_vectors s c cv) = king_squares s.
Proof. destruct c; repeat split. Qed.

Lemma scan_candidate_frame h p b t s v b' t' :
  scan_candidate h p b t s v = inr (b', t') -> same_frame b b'.
Proof.
  unfold scan_candidate. intros H.
  destruct (negb t); [ | inversion H; subst; repeat split].
  destruct (dict_get Square_eqb s (_position (relevant_add s p b))) as [held | ].
  - destruct (negb (Color_eqb (color (piece (deref h held)))
                      (color (piece (deref h p)))) && can_capture v).
    + destruct (PieceType_eqb (type (piece (deref h held))) KING).
      * destruct (Color_eqb (color (piece (deref h held)))
                    (next_turn (state (relevant_add s p b)))) eqn:EC;
          [discriminate | ].
        destruct (CheckVectors_add _ _ _ v) as [e | cv]; [discriminate | ].
        inversion H; subst; clear H.
        apply Color_eqb_false in EC.
        destruct (set_check_vectors_fields (state (relevant_add s p b))
                    (color (piece (deref h held))) cv) as (M & T & N & _).
        unfold same_frame; simpl. repeat split; try assumption.
        now apply check_vectors_other.
      * inversion H; subst; repeat split.
    + inversion H; subst; repeat split.
  - destruct (negb (can_only_capture v)); inversion H; subst; repeat split.
Qed.

Lemma list_update_length {A} (l : list A) (n : nat) (f : A -> A) :
  List.length (list_update l n f) = List.length l.
Proof.
  revert n; induction l as [ | x l IH]; intros [ | n]; simpl; auto.
Qed.

Lemma scan_ray_frame fuel p v : forall s d t h b h' b',
  scan_ray fuel p v s d t h b = (h', inr b') ->
  same_frame b b' /\ List.length h' = List.length h.
Proof.
  induction fuel as [ | fuel IH]; cbn [scan_ray]; intros s d t h b h' b' H.
  - discriminate.
  - destruct (exceeds d v).
    { inversion H; subst. split; [apply same_frame_refl | reflexivity]. }
    destruct (negb (is_valid s)).
    { inversion H; subst. split; [apply same_frame_refl | reflexivity]. }
    destruct (scan_candidate (cache_square h p s v) p b t s v) as [e | [b1 t1]] eqn:E.
    + discriminate.
    + apply IH in H. destruct H as [F L].
      apply scan_candidate_frame in E. split.
      * eapply same_frame_trans; eassumption.
      * rewrite L. apply list_update_length.
Qed.

Lemma scan_vectors_frame p vs : forall h b h' b',
  scan_vectors p vs h b = (h', inr b') ->
  same_frame b b' /\ List.length h' = List.length h.
Proof.
  induction vs as [ | v vs IH]; cbn [scan_vectors]; intros h b h' b' H.
  - inversion H; subst. split; [apply same_frame_refl | reflexivity].
  - destruct (scan_ray board_fuel p v _ 1 false h b) as [h1 [e | b1]] eqn:E.
    + discriminate.
    + apply scan_ray_frame in E. apply IH in H.
      destruct E as [F1 L1], H as [F2 L2]. split.
      * eapply same_frame_trans; eassumption.
      * congruence.
Qed.

Lemma rescan_from_frame p s h b h' b' :
  rescan_from p s h b = (h', inr b') ->
  same_frame b b' /\ List.length h' = List.length h.
Proof.
  unfold rescan_from. destruct (hash_square s); [discriminate | ].
  destruct (dict_get _ _ _); intros H.
  - eapply scan_ray_frame; eassumption.
  - inversion H; subst. split; [apply same_frame_refl | reflexivity].
Qed.

Lemma prepare_moves_frame p m h b h' b' :
  prepare_moves p m h b = (h', inr b') ->
  same_frame b b' /\ List.length h' = List.length h.
Proof.
  unfold prepare_moves. destruct m as [m | ]; intros H.
  - destruct (rescan_from p (start m) h b) as [h1 [e | b1]] eqn:E; [discriminate | ].
    apply rescan_from_frame in E. apply rescan_from_frame in H.
    destruct E as [F1 L1], H as [F2 L2]. split.
    + eapply same_frame_trans; eassumption.
    + congruence.
  - eapply scan_vectors_frame; eassumption.
Qed.

Lemma prepare_all_frame m ps : forall h b h' b',
  prepare_all ps m h b = (h', inr b') ->
  same_frame b b' /\ List.length h' = List.length h.
Proof.
  induction ps as [ | p ps IH]; cbn [prepare_all]; intros h b h' b' H.
  - inversion H; subst. split; [apply same_frame_refl | reflexivity].
  - destruct (prepare_moves p m h b) as [h1 [e | b1]] eqn:E; [discriminate | ].
    apply prepare_moves_frame in E. apply IH in H.
    destruct E as [F1 L1], H as [F2 L2]. split.
    + eapply same_frame_trans; eassumption.
    + congruence.
Qed.
Lemma capture_frame h b m b' :
  capture h b m = inr b' ->
  _position b' = _position b
  /\ turn (state b') = turn (state b)
  /\ next_turn (state b') = next_turn (state b)
  /\ (forall c, check_vectors (state b') c = check_vectors (state b) c)
  /\ material (state b')
     = material (state b)
       + match captured_piece h b m with
         | Some p => signed_value p
         | None => 0
         end.
Proof.
  unfold capture, captured_piece. intros H.
  destruct (hash_square (end_ m)); [discriminate | ].
  destruct (dict_get Square_eqb (end_ m) (_position b)) as [c | ].
  - cbv zeta in H. cbn [_available_moves with_state] in H.
    destruct (dict_del PRef_eqb c (_available_moves b)); [ | discriminate].
    inversion H; subst; clear H. cbn.
    do 3 (split; [reflexivity | ]). split.
    + intros []; reflexivity.
    + unfold signed_value.
      destruct (color (piece (deref h c))); cbn; lia.
  - inversion H; subst. do 3 (split; [reflexivity | ]).
    split; [reflexivity | lia].
Qed.

Lemma make_move_frame h b m h' b' :
  make_move h b m = (h', inr b') ->
  exists old,
    dict_get Square_eqb (start m) (_position b) = Some old
    /\ turn (state b') = next_turn (state b)
    /\ next_turn (state b') = turn (state b)
    /\ check_vectors (state b') (turn (state b)) = check_vectors (state b) (turn (state b))
    /\ material (state b')
       = material (state b)
         + match captured_piece (h ++ [deref h old]) b m with
           | Some p => signed_value p
           | None => 0
           end
    /\ List.length h' = S (List.length h)
    /\ dict_del Square_eqb (start m)
         (dict_set Square_eqb (end_ m) (mkRef (ref_uuid old) (List.length h)) (_position b))
       = Some (_position b').
Proof.
  unfold make_move, deepcopy. intros H.
  destruct (hash_square (start m)); [inversion H | ].
  destruct (dict_get Square_eqb (start m) (_position b)) as [old | ]; [ | inversion H].
  exists old. split; [reflexivity | ].
  destruct (dict_del PRef_eqb _ (_available_moves b)) as [av | ]; [ | inversion H].
  cbv zeta in H.
  cbn [state _position _relevant_piece_squares _available_moves
       with_state with_position with_relevant with_available] in H.
  destruct (negb (Color_eqb _ (turn (state b)))); [inversion H | ].
  match type of H with
  | context [capture ?hh ?bb m] =>
      destruct (capture hh bb m) as [e | b1] eqn:EC; [inversion H | ]
  end.
  apply capture_frame in EC. cbn in EC.
  destruct EC as (P1 & T1 & N1 & C1 & M1).
  rewrite P1 in H.
  destruct (dict_del Square_eqb (start m) _) as [pos | ] eqn:ED; [ | inversion H].
  match type of H with
  | context [prepare_moves ?pp None ?hh ?bb] =>
      destruct (prepare_moves pp None hh bb) as [h2 [e | b2]] eqn:EP; [inversion H | ]
  end.
  apply prepare_moves_frame in EP. apply prepare_all_frame in H.
  destruct EP as [(P2 & M2 & T2 & N2 & C2) L2], H as [(P3 & M3 & T3 & N3 & C3) L3].
  cbn in *.
  unfold GamePiece_move in L2. rewrite list_update_length, length_app in L2.
  cbn in L2.
  assert (TT : forall c, check_vectors (take_turn (state b1)) c
                         = check_vectors (state b1) c) by (intros []; reflexivity).
  unfold captured_piece in *. cbn in M1.
  rewrite N2, T1 in C3. rewrite T1, TT, C1 in C2.
  repeat split; try congruence. lia.
Qed.

(** ** The bound on walks over the board *)

Lemma iter_apply_diff (k : nat) (s : Square) (d : Z * Z) :
  Nat.iter k (fun x => apply_diff x d) s
  = mkSquare (col s + Z.of_nat k * fst d) (row s + Z.of_nat k * snd d).
Proof.
  induction k as [ | k IH].
  - destruct s; simpl. f_equal; lia.
  - rewrite Nat.iter_succ, IH. unfold apply_diff. cbn [col row]. f_equal; lia.
Qed.

Lemma walk_leaves_board (s : Square) (d : Z * Z) :
  d <> (0, 0) -> is_valid s = true ->
  is_valid (Nat.iter 8 (fun x => apply_diff x d) s) = false.
Proof.
  intros Hd Hs. apply is_valid_range in Hs.
  rewrite iter_apply_diff. destruct d as [dc dr].
  assert (dc <> 0 \/ dr <> 0) as [H | H].
  { destruct (Z.eq_dec dc 0) as [-> | ]; [ | now left].
    right. intros ->. now apply Hd. }
  all: unfold is_valid, len; cbn [col row fst snd List.length _cols _rows];
    change (Z.of_nat 8) with 8;
    apply not_true_is_false; rewrite !andb_true_iff, !Z.geb_le, !Z.ltb_lt; lia.
Qed.

Lemma iter_shift {A} (f : A -> A) (k : nat) (x : A) :
  Nat.iter k f (f x) = Nat.iter (S k) f x.
Proof. induction k as [ | k IH]; simpl; [reflexivity | now rewrite IH]. Qed.

(** A walk that meets a square off the board within its fuel does not run
    out of it. *)
Lemma add_path_fuel (fuel : nat) (king : Square) (v : MovementVector) :
  forall (s : Square) (distance : Z) (path : list Square),
  (exists k, (k < fuel)%nat
             /\ is_valid (Nat.iter (S k) (fun x => apply_diff x (direction v)) s) = false) ->
  add_path fuel king v s distance path <> raise Diverges.
Proof.
  induction fuel as [ | fuel IH]; intros s distance path (k & Hk & Hv).
  - lia.
  - cbn [add_path]. destruct (exceeds (distance + 1) v); [discriminate | ].
    destruct (is_valid (apply_diff s (direction v))) eqn:E; [ | discriminate].
    cbn [negb].
    destruct (Square_eq _ king) as [e | [ | ]] eqn:Q; [ | discriminate | ].
    { apply Square_eq_raises in Q. subst e. discriminate. }
    apply IH. destruct k as [ | k].
    + simpl in Hv. congruence.
    + exists k. split; [lia | ].
      pose proof (iter_shift (fun x => apply_diff x (direction v)) (S k) s) as X.
      cbv beta in X. now rewrite X.
Qed.

Lemma CheckVectors_add_fuel (cv : CheckVectors) (attacker king : Square)
    (v : MovementVector) :
  direction v <> (0, 0) -> CheckVectors_add cv attacker king v <> raise Diverges.
Proof.
  intros Hd. unfold CheckVectors_add.
  destruct (negb (can_capture v)); [discriminate | ].
  destruct (add_path board_fuel king v attacker 0 []) as [e | p] eqn:E;
    [ | discriminate].
  intros C. inversion C; subst.
  revert E. apply add_path_fuel.
  destruct (is_valid (apply_diff attacker (direction v))) eqn:V.
  - exists 8%nat. split; [unfold board_fuel; lia | ].
    pose proof (iter_shift (fun x => apply_diff x (direction v)) 8 attacker) as X.
    cbv beta in X. rewrite <- X. now apply walk_leaves_board.
  - exists 0%nat. split; [unfold board_fuel; lia | exact V].
Qed.

Lemma scan_candidate_fuel h p b t s v :
  direction v <> (0, 0) -> scan_candidate h p b t s v <> raise Diverges.
Proof.
  intros Hd. unfold scan_candidate.
  destruct (negb t); [ | discriminate].
  destruct (dict_get Square_eqb s _) as [held | ].
  - destruct (_ && can_capture v); [ | discriminate].
    destruct (PieceType_eqb _ KING); [ | discriminate].
    destruct (Color_eqb _ (next_turn _)); [discriminate | ].
    destruct (CheckVectors_add _ _ _ v) as [e | cv] eqn:E; [ | discriminate].
    intros C. inversion C; subst.
    revert E. now apply CheckVectors_add_fuel.
  - destruct (negb (can_only_capture v)); discriminate.
Qed.

Lemma scan_ray_fuel_gen (fuel : nat) (p : PRef) (v : MovementVector) :
  direction v <> (0, 0) ->
  forall s d t h b,
  (exists k, (k < fuel)%nat
             /\ is_valid (Nat.iter k (fun x => apply_diff x (direction v)) s) = false) ->
  snd (scan_ray fuel p v s d t h b) <> raise Diverges.
Proof.
  intros Hd. induction fuel as [ | fuel IH]; intros s d t h b (k & Hk & Hv).
  - lia.
  - cbn [scan_ray]. destruct (exceeds d v); [discriminate | ].
    destruct (is_valid s) eqn:E; [ | discriminate]. cbn [negb].
    destruct (scan_candidate _ p b t s v) as [e | [b1 t1]] eqn:EC.
    + cbn [snd]. intros C. inversion C; subst.
      revert EC. now apply scan_candidate_fuel.
    + apply IH. destruct k as [ | k].
      * simpl in Hv. congruence.
      * exists k. split; [lia | ].
        pose proof (iter_shift (fun x => apply_diff x (direction v)) k s) as X.
        cbv beta in X. now rewrite X.
Qed.

(** Along a vector with a non-zero direction the scan of a ray always comes
    to its end within [board_fuel] rounds, wherever it starts. *)
Lemma scan_ray_fuel (p : PRef) (v : MovementVector) s d t h b :
  direction v <> (0, 0) ->
  snd (scan_ray board_fuel p v s d t h b) <> raise Diverges.
Proof.
  intros Hd. apply scan_ray_fuel_gen; [exact Hd | ].
  destruct (is_valid s) eqn:V.
  - exists 8%nat. split; [unfold board_fuel; lia | now apply walk_leaves_board].
  - exists 0%nat. split; [unfold board_fuel; lia | exact V].
Qed.

(** Every vector of pieces.py has a non-zero direction. *)
Lemma piece_vectors_move (c : Color) (v : MovementVector) :
  In v (vectors (Pawn c) ++ Knight_vectors ++ Queen_vectors ++ King_vectors) ->
  direction v <> (0, 0).
Proof.
  destruct c; simpl; intros H;
    repeat (destruct H as [<- | H]; [simpl; discriminate | ]); contradiction.
Qed.

(** ** Material *)

Lemma deref_app (h t : Heap) (r : PRef) :
  (ref_addr r < List.length h)%nat -> deref (h ++ t) r = deref h r.
Proof. intros H. unfold deref. now apply app_nth1. Qed.

Section DictForall.
Context {K V : Type} (eqb : K -> K -> bool) (Q : V -> Prop).

Lemma dict_get_Forall (k : K) (d : list (K * V)) (v : V) :
  Forall (fun kv => Q (snd kv)) d -> dict_get eqb k d = Some v -> Q v.
Proof.
  induction 1 as [ | [k' v'] d H _ IH]; simpl; [discriminate | ].
  destruct (eqb k k'); [ | exact IH].
  intros E; inversion E; subst. exact H.
Qed.

Lemma dict_set_Forall (k : K) (v : V) (d : list (K * V)) :
  Forall (fun kv => Q (snd kv)) d -> Q v ->
  Forall (fun kv => Q (snd kv)) (dict_set eqb k v d).
Proof.
  intros H Hv. induction H as [ | [k' v'] d H Hd IH]; simpl.
  - constructor; [exact Hv | constructor].
  - destruct (eqb k k'); constructor; auto.
Qed.

Lemma dict_del_Forall (k : K) (d d' : list (K * V)) :
  Forall (fun kv => Q (snd kv)) d -> dict_del eqb k d = Some d' ->
  Forall (fun kv => Q (snd kv)) d'.
Proof.
  intros H. revert d'. induction H as [ | [k' v'] d H Hd IH]; simpl; intros d' E.
  - discriminate.
  - destruct (eqb k k').
    + inversion E; subst. exact Hd.
    + destruct (dict_del eqb k d) as [d'' | ]; [ | discriminate].
      inversion E; subst. constructor; auto.
Qed.
End DictForall.

Lemma make_move_in_heap h b m h' b' :
  position_in_heap h b -> make_move h b m = (h', inr b') -> position_in_heap h' b'.
Proof.
  unfold position_in_heap. intros W H.
  apply make_move_frame in H. destruct H as (old & _ & _ & _ & _ & _ & L & D).
  pose (Q := fun r : PRef => (ref_addr r < List.length h')%nat).
  apply (dict_del_Forall Square_eqb Q (start m) _ _) with (2 := D).
  apply (dict_set_Forall Square_eqb Q).
  - eapply Forall_impl; [ | exact W]. intros kv. unfold Q. simpl. lia.
  - unfold Q. simpl. lia.
Qed.

Lemma make_move_material h b m h' b' :
  position_in_heap h b -> make_move h b m = (h', inr b') ->
  material (state b')
  = material (state b)
    + match captured_piece h b m with
      | Some p => signed_value p
      | None => 0
      end.
Proof.
  intros W H.
  apply make_move_frame in H. destruct H as (old & _ & _ & _ & _ & M & _).
  rewrite M. unfold captured_piece.
  destruct (dict_get Square_eqb (end_ m) (_position b)) as [r | ] eqn:E; [ | reflexivity].
  rewrite deref_app; [reflexivity | ].
  exact (dict_get_Forall Square_eqb
           (fun r => (ref_addr r < List.length h)%nat) _ _ _ W E).
Qed.

Lemma make_moves_material moves : forall h0 b0 h b ps,
  position_in_heap h0 b0 ->
  make_moves h0 b0 moves = (h, inr (b, ps)) ->
  material (state b) = material (state b0) + sum (map signed_value ps).
Proof.
  induction moves as [ | m moves IH]; cbn [make_moves]; intros h0 b0 h b ps W H.
  - inversion H; subst. simpl. lia.
  - destruct (make_move h0 b0 m) as [h1 [e | b1]] eqn:E1; [discriminate | ].
    destruct (make_moves h1 b1 moves) as [h2 [e | [b2 ps2]]] eqn:E2; [discriminate | ].
    inversion H; subst; clear H.
    rewrite (IH _ _ _ _ _ (make_move_in_heap _ _ _ _ _ W E1) E2).
    rewrite (make_move_material _ _ _ _ _ W E1).
    destruct (captured_piece h0 b0 m); simpl; lia.
Qed.

Lemma start_in_heap : position_in_heap start_heap start_board.
Proof.
  unfold position_in_heap. apply Forall_forall. intros [s r] Hin.
  assert (L : List.length start_heap = 32%nat) by (vm_compute; reflexivity).
  rewrite L. vm_compute in Hin.
  repeat (destruct Hin as [Hin | Hin]; [inversion Hin; subst; simpl; lia | ]).
  contradiction.
Qed.

(** C7. The board of a new game has material 0, and after any run of
    [make_move] calls that all return, the material is the sum of the values
    of the pieces captured during the run, a black piece counted positive
    and a white one negative; a captured king counts 0. *)
Theorem material_is_sum_of_captures :
  material (state start_board) = 0
  /\ (forall p : Piece, type p = KING -> signed_value p = 0)
  /\ (forall (moves : list Move) (h : Heap) (b : Board) (ps : list Piece),
        make_moves start_heap start_board moves = (h, ok (b, ps)) ->
        material (state b) = sum (map signed_value ps)).
Proof.
  split; [reflexivity | split].
  - intros p H. unfold signed_value, value. rewrite H. now destruct (color p).
  - intros moves h b ps H.
    now rewrite (make_moves_material _ _ _ _ _ _ start_in_heap H).
Qed.

Lemma material_is_sum_of_captures_witness :
  match make_moves start_heap start_board
          [mv "e2" "e4"; mv "d7" "d5"; mv "e4" "d5"; mv "d8" "d5"] with
  | (_, inr (b, ps)) => material (state b) = sum (map signed_value ps)
  | (_, inl _) => False
  end.
Proof.
  destruct (make_moves start_heap start_board
              [mv "e2" "e4"; mv "d7" "d5"; mv "e4" "d5"; mv "d8" "d5"])
    as [h [e | [b ps]]] eqn:E.
  - vm_compute in E. discriminate.
  - exact (proj2 (proj2 material_is_sum_of_captures) _ _ _ _ E).
Defined.

(** ** Check trackers *)

Lemma BoardState_init_fields last t mat checks kings :
  let s := BoardState_init last t mat checks kings in
  turn s = t
  /\ next_turn s = (if Color_eqb t BLACK then WHITE else BLACK)
  /\ check_vectors s t = checks
  /\ check_vectors s (next_turn s) = []
  /\ material s = mat.
Proof. destruct t; repeat split. Qed.

(** Where the tracker of the side that has just moved comes from: in a
    board that [make_child] returns it is the one the parent held for its
    side to move, handed to [BoardState.__init__] and never cleared, so it is
    empty only when the parent's side to move was not in check. *)
Lemma child_keeps_mover_tracker (h : Heap) (b : Board) (m : Move)
    (h' : Heap) (c : Board) :
  make_child h b m = (h', ok c) ->
  next_turn (state c) = turn (state b)
  /\ turn (state c) <> turn (state b)
  /\ check_vectors (state c) (next_turn (state c))
     = check_vectors (state b) (turn (state b))
  /\ (in_check b = false -> idle_tracker_empty c /\ at_most_one_tracker c).
Proof.
  unfold make_child. intros H.
  destruct (KingLocations_move (king_squares (state b)) m) as [e | kings];
    [discriminate | ].
  match type of H with
  | context [make_move h ?bb m] =>
      destruct (make_move h bb m) as [h1 [e | c1]] eqn:E; [discriminate | ]
  end.
  inversion H; subst; clear H.
  apply make_move_frame in E. destruct E as (old & _ & T & N & C & _).
  cbn [state] in T, N, C.
  destruct (BoardState_init_fields (Some m) (turn (state b)) (material (state b))
              (check_vectors (state b) (turn (state b))) kings)
    as (T0 & N0 & C0 & _).
  rewrite T0 in *. rewrite N0 in T. rewrite C0 in C.
  assert (R : check_vectors (state c) (next_turn (state c))
              = check_vectors (state b) (turn (state b))) by (rewrite N; exact C).
  split; [exact N | split; [ | split; [exact R | ]]].
  - rewrite T. destruct (turn (state b)); simpl; discriminate.
  - unfold in_check, idle_tracker_empty, at_most_one_tracker. intros I.
    destruct (check_vectors (state b) (turn (state b))); [ | discriminate].
    split; [exact R | ].
    destruct (next_turn (state c)); [left | right]; exact R.
Qed.

(** C4, on the code. After 1.e3 b6 2.Ke2 d6 3.c3 h6 4.Qb3 Ba6+ 5.Qb5+,
    every move taken from what [generate_legal_moves] yields, Black is to
    move and in check from the queen, and the tracker of White still holds
    the path of the bishop's check that the queen has just blocked: both
    trackers are in use, and the one of the side not to move is not empty,
    where the claim has at most one tracker in use, that of the side to
    move. *)
Lemma both_trackers_in_use :
  match line start_heap start_board
          [mv "e2" "e3"; mv "b7" "b6"; mv "e1" "e2"; mv "d7" "d6";
           mv "c2" "c3"; mv "h7" "h6"; mv "d1" "b3"; mv "c8" "a6";
           mv "b3" "b5"] with
  | Some (_, b) => ~ at_most_one_tracker b /\ ~ idle_tracker_empty b
  | None => False
  end.
Proof.
  vm_compute. split.
  - intros [H | H]; discriminate H.
  - intros H; discriminate H.
Qed.

(** ** Legality and incremental maintenance, on the code *)

(** C1, on the code. After 1.e4 f6 2.Bc4, every move taken from what
    [generate_legal_moves] yields, the generator yields Ke8-f7 for Black,
    although the bishop on c4 attacks f7: the placement of the yielded board
    has the king of the side that moved on an attacked square, and a full
    [rebuild] of that very board raises [InvalidPositionException]. *)
Lemma king_steps_into_attack :
  match line start_heap start_board [mv "e2" "e4"; mv "f7" "f6"; mv "f1" "c4"] with
  | Some (h, b) =>
      let '(h', _, (cs, _)) := generate_legal_moves h b in
      match find (is_move (mv "e8" "f7")) cs with
      | Some c =>
          mover_king_attacked h' c = true
          /\ snd (rebuild h' c) = raise InvalidPositionException
      | None => False
      end
  | None => False
  end.
Proof. vm_compute. split; reflexivity. Qed.

(** C2, on the code. After 1.Nc3 from the board of a new game the pawn on c2
    keeps c3 and c4 as destinations, the knight now standing in its way; a
    [rebuild] of the same board leaves it none. *)
Lemma knight_move_leaves_pawn_stale :
  match line start_heap start_board [mv "b1" "c3"] with
  | Some (h, c) =>
      match rebuild h c with
      | (_, inr r) =>
          destinations c (sq "c2") = [sq "c3"; sq "c4"]
          /\ destinations r (sq "c2") = []
      | (_, inl _) => False
      end
  | None => False
  end.
Proof. vm_compute. split; reflexivity. Qed.

(** C3, on the code. After 1.Nc3 a6 2.Ne4 a5, building the child for Ne4-g5
    rescans the pawn on e2 from e4, on the pawn object that parent and child
    share: the cache of the piece the parent has on e2 gains e5. *)
Lemma child_changes_parent_cache :
  match line start_heap start_board
          [mv "b1" "c3"; mv "a7" "a6"; mv "c3" "e4"; mv "a6" "a5"] with
  | Some (h, b) =>
      match make_child h b (mv "e4" "g5") with
      | (h', inr _) =>
          cache_of h b (sq "e2") = [sq "e3"; sq "e4"; sq "f3"; sq "d3"]
          /\ cache_of h' b (sq "e2") = [sq "e3"; sq "e4"; sq "f3"; sq "d3"; sq "e5"]
      | (_, inl _) => False
      end
  | None => False
  end.
Proof. vm_compute. split; reflexivity. Qed.

(** ** Scoring *)

Lemma insert_score_perm (r : bool) (x : Q * option Move) (l : list (Q * option Move)) :
  Permutation (insert_score r x l) (x :: l).
Proof.
  induction l as [ | y l IH]; simpl.
  - apply Permutation_refl.
  - destruct (if r then Qle_bool (fst x) (fst y) else Qle_bool (fst y) (fst x)).
    + eapply Permutation_trans; [apply perm_skip, IH | apply perm_swap].
    + apply Permutation_refl.
Qed.

Lemma sorted_perm_acc (r : bool) (l : list (Q * option Move)) :
  forall acc, Permutation (fold_left (fun acc x => insert_score r x acc) l acc) (acc ++ l).
Proof.
  induction l as [ | x l IH]; intros acc; simpl.
  - rewrite app_nil_r. apply Permutation_refl.
  - eapply Permutation_trans; [apply IH | ].
    eapply Permutation_trans; [apply Permutation_app_tail, insert_score_perm | ].
    simpl. apply Permutation_middle.
Qed.

Lemma sorted_perm (r : bool) (l : list (Q * option Move)) :
  Permutation (sorted r l) l.
Proof. exact (sorted_perm_acc r l []). Qed.

Lemma in_order_trans (r : bool) (a b c : Q * option Move) :
  in_order r a b -> in_order r b c -> in_order r a c.
Proof.
  unfold in_order. destruct r; intros H1 H2; eapply Qle_trans; eassumption.
Qed.

Lemma insert_score_in_order (r : bool) (x : Q * option Move) (l : list (Q * option Move)) :
  StronglySorted (in_order r) l -> StronglySorted (in_order r) (insert_score r x l).
Proof.
  induction 1 as [ | y l Hs IH Hy]; simpl.
  - constructor; constructor.
  - destruct (if r then Qle_bool (fst x) (fst y) else Qle_bool (fst y) (fst x)) eqn:E.
    + constructor; [exact IH | ].
      eapply Permutation_Forall; [apply Permutation_sym, insert_score_perm | ].
      constructor; [ | exact Hy].
      unfold in_order. destruct r; now apply Qle_bool_iff.
    + assert (Hxy : in_order r x y).
      { unfold in_order. destruct r.
        - apply Qlt_le_weak, Qnot_le_lt. intros C.
          apply Qle_bool_iff in C. congruence.
        - apply Qlt_le_weak, Qnot_le_lt. intros C.
          apply Qle_bool_iff in C. congruence. }
      constructor; [constructor; assumption | ].
      constructor; [exact Hxy | ].
      eapply Forall_impl; [ | exact Hy].
      intros z Hz. eapply in_order_trans; eassumption.
Qed.

Lemma sorted_in_order_acc (r : bool) (l : list (Q * option Move)) :
  forall acc, StronglySorted (in_order r) acc ->
  StronglySorted (in_order r) (fold_left (fun acc x => insert_score r x acc) l acc).
Proof.
  induction l as [ | x l IH]; intros acc H; simpl.
  - exact H.
  - apply IH, insert_score_in_order, H.
Qed.

Lemma sorted_in_order (r : bool) (l : list (Q * option Move)) :
  StronglySorted (in_order r) (sorted r l).
Proof. apply sorted_in_order_acc. constructor. Qed.

Lemma strongly_sorted_last {A} (R : A -> A -> Prop) (l : list A) (x : A) :
  StronglySorted R (l ++ [x]) -> Forall (fun y => R y x) l.
Proof.
  induction l as [ | y l IH]; simpl; intros H.
  - constructor.
  - inversion H as [ | ? ? Hs Hy]; subst. constructor.
    + rewrite Forall_app in Hy. destruct Hy as [_ Hx]. now inversion Hx.
    + apply IH, Hs.
Qed.

(** In the list [sorted] returns, read from its end, the most favourable
    pair for the side to move comes first. *)
Lemma sorted_best_last (t : Color) (l : list (Q * option Move)) :
  most_favourable_first t (rev (sorted (Color_eqb t BLACK) l)).
Proof.
  pose proof (sorted_in_order (Color_eqb t BLACK) l) as H.
  destruct (sorted (Color_eqb t BLACK) l) as [ | y s] eqn:E using rev_ind.
  - exact I.
  - rewrite rev_app_distr. simpl.
    apply strongly_sorted_last in H.
    apply Forall_rev. eapply Forall_impl; [ | exact H].
    intros z. unfold in_order, at_least_as_good. destruct t; simpl; auto.
Qed.

Lemma nth_list_update {A} (l : list A) (n : nat) (f : A -> A) (d : A) :
  (n < List.length l)%nat -> nth n (list_update l n f) d = f (nth n l d).
Proof.
  revert n; induction l as [ | x l IH]; intros [ | n]; simpl; intros H;
    try lia; [reflexivity | apply IH; lia].
Qed.

Lemma node_update_node (w : World) (n : nat) (f : MoveNode -> MoveNode) :
  (n < List.length (nodes w))%nat -> node (update_node w n f) n = f (node w n).
Proof. intros H. unfold node, update_node. simpl. now apply nth_list_update. Qed.

Lemma update_node_nodes (w : World) (n : nat) (f : MoveNode -> MoveNode) :
  List.length (nodes (update_node w n f)) = List.length (nodes w).
Proof. unfold update_node. simpl. apply list_update_length. Qed.



Lemma node_in_world (w : World) (n : nat) :
  children (node w n) <> [] -> (n < List.length (nodes w))%nat.
Proof.
  intros H. destruct (Nat.lt_ge_cases n (List.length (nodes w))) as [L | G]; [exact L | ].
  exfalso. apply H. unfold node. now rewrite nth_overflow.
Qed.




(** The scores of flagged nodes, for any node of any world. *)
Lemma terminal_scores (fuel : nat) (w : World) (n : nat) :
  (is_checkmate (node w n) = true ->
   snd (calculate_score (S fuel) w n)
   = ok (inject_Z (if Color_eqb (turn (state (board (node w n)))) WHITE
                   then 100 else -100)))
  /\ (is_checkmate (node w n) = false -> is_stalemate (node w n) = true ->
      snd (calculate_score (S fuel) w n) = ok 0%Q).
Proof.
  cbn [calculate_score]. split.
  - intros ->. destruct (Color_eqb _ WHITE); reflexivity.
  - intros -> ->. reflexivity.
Qed.

(** C6, on the code. White, to move, is mated on the back rank (king h1,
    pawns g2 and h2, black rook a1).  Searched one ply deep, the root is
    flagged [is_checkmate] and its score is +100, the sign that favours
    White, the side that is mated. *)
Lemma mated_white_scores_plus_100 :
  let n := node mate_world mate_root in
  snd mate_tree = ok tt
  /\ is_checkmate n = true
  /\ turn (state (board n)) = WHITE
  /\ score n = 100%Q.
Proof. vm_compute. repeat split. Qed.

(** ** The expansion loop *)

Lemma list_update_middle {A} (l : list A) (x : A) (t : list A) (f : A -> A) :
  list_update (l ++ x :: t) (List.length l) f = l ++ f x :: t.
Proof. induction l as [ | y l IH]; simpl; [reflexivity | now rewrite IH]. Qed.

Section NoMoves.
Variables (h : Heap) (b : Board).
Hypothesis no_moves : generate_legal_moves h b = (h, b, ([], None)).

Lemma prepare_children_lone_root (w : World) :
  lone_root h b w ->
  exists w', prepare_children w 0 = (w', ok tt) /\ lone_root h b w'.
Proof.
  destruct w as [ps ns ss]. intros (P & x & N & B & Pa & _ & _).
  simpl in P, N. subst ps ns.
  destruct x as [xb xp xn xc xs xcs xsc xss xl xcl xm xst].
  simpl in B, Pa. subst xb xp.
  unfold prepare_children, _reset_children, new_set, update_node, with_pieces, node.
  cbn [pieces nodes sets list_update nth board].
  rewrite no_moves.
  cbn [add_children nodes list_update nth children leaf_nodes update_set pieces sets].
  rewrite (list_update_middle ss [] [] (set_add Nat.eqb O)).
  unfold notify_parent, node. cbn [nodes list_update nth parent].
  eexists. split; [reflexivity | ].
  split; [reflexivity | ].
  eexists. split; [reflexivity | ].
  cbn [board parent size leaf_nodes].
  repeat split.
  unfold leaves. cbn [sets]. apply nth_middle.
Qed.

Lemma build_tree_lone_root (fuel : nat) : forall (w : World) (d : Z),
  lone_root h b w ->
  snd (build_tree fuel w (mkEngine O None (Some 2%Q) d)) = raise Diverges.
Proof.
  induction fuel as [ | fuel IH]; intros w d L.
  - destruct L as (_ & x & N & _ & _ & S & _).
    cbn [build_tree max_depth max_breadth depth root below]. unfold node. rewrite N.
    cbn [nth]. rewrite S. reflexivity.
  - destruct (prepare_children_lone_root w L) as (w' & E & L').
    destruct L as (_ & x & N & _ & _ & S & Lv).
    cbn [build_tree max_depth max_breadth depth root below]. unfold node. rewrite N.
    cbn [nth]. rewrite S, Lv.
    cbn [andb negb Qle_bool]. cbn [expand_leaves]. rewrite E.
    apply IH, L'.
Qed.
End NoMoves.

Lemma mate_no_moves :
  generate_legal_moves mated_heap mated_board = (mated_heap, mated_board, ([], None)).
Proof. vm_compute. reflexivity. Qed.

Lemma build_tree_round (fuel : nat) (w : World) (e : Engine) (w' : World) :
  below (depth e) (max_depth e) && below (size (node w (root e))) (max_breadth e) = true ->
  expand_leaves w (leaves w (leaf_nodes (node w (root e)))) = (w', ok tt) ->
  build_tree (S fuel) w e
  = build_tree fuel w' (mkEngine (root e) (max_depth e) (max_breadth e) (depth e + 1)).
Proof. intros C E. cbn [build_tree]. now rewrite C, E. Qed.

(** C8, on the code. [Engine(board, math.inf, 2)] on the back-rank mate: the
    root has no legal move, so every round of the loop of [build_tree]
    expands the root into itself, the size stays 1, below the cap, and the
    depth is unbounded: however many rounds the loop is given, it has not
    ended. *)
Theorem build_tree_never_ends_on_mate (fuel : nat) :
  match mate_engine None (Some 2%Q) with
  | (w, inr e) => snd (build_tree fuel w e) = raise Diverges
  | (_, inl _) => False
  end.
Proof.
  destruct (mate_engine None (Some 2%Q)) as [w [x | e]] eqn:E;
    vm_compute in E; [discriminate | ].
  inversion E; subst; clear E.
  destruct fuel as [ | fuel]; [vm_compute; reflexivity | ].
  erewrite build_tree_round;
    [ | vm_compute; reflexivity | vm_compute; reflexivity].
  apply (build_tree_lone_root mated_heap mated_board mate_no_moves fuel).
  split; [vm_compute; reflexivity | ].
  eexists. split; [reflexivity | ].
  repeat split; vm_compute; reflexivity.
Qed.


(** * Further properties of the code *)

(** ** Squares *)

Lemma name_char_in (l : list string) (c : ascii) :
  l = _cols \/ l = _rows ->
  str_in (String c EmptyString) l = true ->
  In (String c EmptyString) l.
Proof.
  intros [-> | ->]; destruct c as [[] [] [] [] [] [] [] []]; intros H;
    try discriminate H; simpl; tauto.
Qed.

(** X1. A name that [from_name] accepts is the name of the square it
    returns, and that square is on the board. *)
Theorem to_name_from_name (name : string) (s : Square) :
  from_name name = ok s -> is_valid s = true /\ to_name s = ok name.
Proof.
  destruct name as [ | c0 [ | c1 [ | c2 rest]]]; try discriminate.
  unfold from_name.
  destruct (str_in (String c0 EmptyString) _cols) eqn:E0; [ | discriminate].
  destruct (str_in (String c1 EmptyString) _rows) eqn:E1; [ | discriminate].
  apply (name_char_in _cols) in E0; [ | now left].
  apply (name_char_in _rows) in E1; [ | now right].
  simpl in E0, E1.
  repeat (destruct E0 as [E0 | E0]; [ | ]); try contradiction;
    inversion E0; subst c0;
    repeat (destruct E1 as [E1 | E1]; [ | ]); try contradiction;
    inversion E1; subst c1;
    intros H; vm_compute in H; inversion H; subst; split; reflexivity.
Qed.

Lemma to_name_from_name_witness :
  is_valid (mkSquare 4 3) = true /\ to_name (mkSquare 4 3) = ok "e4"%string.
Proof. apply to_name_from_name. reflexivity. Defined.

Lemma py_index_range {A} (l : list A) (i : Z) (x : A) :
  py_index l i = ok x -> - len l <= i < len l.
Proof.
  unfold py_index, len. intros H.
  destruct (i <? 0) eqn:N.
  - apply Z.ltb_lt in N.
    destruct (i + Z.of_nat (List.length l) <? 0) eqn:M; [discriminate | ].
    apply Z.ltb_ge in M. lia.
  - apply Z.ltb_ge in N. rewrite (proj2 (Z.ltb_ge i 0) N) in H.
    destruct (nth_error l (Z.to_nat i)) eqn:E; [ | discriminate].
    assert (Z.to_nat i < List.length l)%nat
      by (apply nth_error_Some; congruence).
    lia.
Qed.

Lemma in_range_16 (i : Z) :
  -8 <= i < 8 ->
  In i [-8; -7; -6; -5; -4; -3; -2; -1; 0; 1; 2; 3; 4; 5; 6; 7].
Proof. intros H. simpl. lia. Qed.

Lemma hash_square_range (s : Square) :
  hash_square s = ok tt <-> -8 <= col s < 8 /\ -8 <= row s < 8.
Proof.
  split.
  - unfold hash_square, get_position. intros H.
    destruct (py_index _cols (col s)) as [e | c] eqn:C; [discriminate | ].
    destruct (py_index _rows (row s)) as [e | r] eqn:R; [discriminate | ].
    apply py_index_range in C. apply py_index_range in R.
    unfold len in C, R. simpl in C, R. lia.
  - intros [Hc Hr]. destruct s as [c r]. cbn [col row] in *.
    apply in_range_16 in Hc. apply in_range_16 in Hr.
    simpl in Hc, Hr.
    repeat (destruct Hc as [Hc | Hc]; [ | ]); try contradiction; subst c;
      repeat (destruct Hr as [Hr | Hr]; [ | ]); try contradiction; subst r;
      reflexivity.
Qed.

Lemma valid_hashable (s : Square) : is_valid s = true -> hash_square s = ok tt.
Proof.
  intros H. apply hash_square_range. apply is_valid_range in H.
  unfold len in H. simpl in H. lia.
Qed.

(** X2. A square can be hashed, and so used as a key, exactly when both
    coordinates are between -8 and 7: Python's negative indices make the
    coordinates -8..-1 name the files and ranks 0..7 again, so that
    [Square(c - 8, r - 8)], [Square(c - 8, r)] and [Square(c, r - 8)] are all
    equal, as keys, to the square [(c, r)] of the board. *)
Theorem negative_coordinates_alias (s : Square) :
  (hash_square s = ok tt <-> -8 <= col s < 8 /\ -8 <= row s < 8)
  /\ (is_valid s = true ->
      Square_eqb (mkSquare (col s - 8) (row s)) s = true
      /\ Square_eqb (mkSquare (col s) (row s - 8)) s = true
      /\ Square_eqb (mkSquare (col s - 8) (row s - 8)) s = true).
Proof.
  split; [split | ].
  - unfold hash_square, get_position. intros H.
    destruct (py_index _cols (col s)) as [e | c] eqn:C; [discriminate | ].
    destruct (py_index _rows (row s)) as [e | r] eqn:R; [discriminate | ].
    apply py_index_range in C. apply py_index_range in R.
    unfold len in C, R. simpl in C, R. lia.
  - intros [Hc Hr]. destruct s as [c r]. cbn [col row] in *.
    apply in_range_16 in Hc. apply in_range_16 in Hr.
    simpl in Hc, Hr.
    repeat (destruct Hc as [Hc | Hc]; [ | ]); try contradiction; subst c;
      repeat (destruct Hr as [Hr | Hr]; [ | ]); try contradiction; subst r;
      reflexivity.
  - intros H. apply valid_squares in H. destruct s as [c r].
    cbn [col row] in *. destruct H as [Hc Hr]. simpl in Hc, Hr.
    repeat (destruct Hc as [Hc | Hc]; [ | ]); try contradiction; subst c;
      repeat (destruct Hr as [Hr | Hr]; [ | ]); try contradiction; subst r;
      repeat split; reflexivity.
Qed.

Lemma negative_coordinates_alias_witness :
  Square_eqb (mkSquare (-1) 0) (mkSquare 7 0) = true.
Proof.
  exact (proj1 (proj2 (negative_coordinates_alias (mkSquare 7 0)) eq_refl)).
Defined.

(** X3. On the squares of the board, [==] is equality of the coordinates. *)
Theorem Square_eq_on_board (a b : Square) :
  is_valid a = true -> is_valid b = true ->
  (Square_eqb a b = true <-> a = b).
Proof.
  intros Ha Hb. apply valid_squares in Ha. apply valid_squares in Hb.
  destruct a as [ca ra], b as [cb rb]. cbn [col row] in *.
  destruct Ha as [Hca Hra], Hb as [Hcb Hrb].
  assert (C : forall x y, In x [0; 1; 2; 3; 4; 5; 6; 7] ->
                          In y [0; 1; 2; 3; 4; 5; 6; 7] ->
                          (py_index _cols x = py_index _cols y <-> x = y)
                          /\ (py_index _rows x = py_index _rows y <-> x = y)).
  { intros x y Hx Hy. simpl in Hx, Hy.
    repeat (destruct Hx as [Hx | Hx]; [ | ]); try contradiction; subst x;
      repeat (destruct Hy as [Hy | Hy]; [ | ]); try contradiction; subst y;
      vm_compute; repeat split; intros; congruence. }
  destruct (C ca cb Hca Hcb) as [Cc _], (C ra rb Hra Hrb) as [_ Cr].
  assert (V : forall x, In x [0; 1; 2; 3; 4; 5; 6; 7] ->
                        (exists c, py_index _cols x = ok c)
                        /\ (exists r, py_index _rows x = ok r)).
  { intros x Hx. simpl in Hx.
    repeat (destruct Hx as [Hx | Hx]; [ | ]); try contradiction; subst x;
      split; eexists; reflexivity. }
  destruct (proj1 (V ca Hca)) as [sca Eca], (proj1 (V cb Hcb)) as [scb Ecb],
    (proj2 (V ra Hra)) as [sra Era], (proj2 (V rb Hrb)) as [srb Erb].
  unfold Square_eqb, get_position. cbn [col row].
  rewrite Eca, Ecb, Era, Erb in *. unfold ok. cbn.
  rewrite andb_true_iff, !String.eqb_eq. split.
  - intros [E1 E2]. subst.
    f_equal; [apply Cc | apply Cr]; reflexivity.
  - intros E. inversion E; subst.
    rewrite Ecb in Eca. rewrite Erb in Era.
    inversion Eca; inversion Era. now split.
Qed.

Lemma Square_eq_on_board_witness :
  Square_eqb (mkSquare 2 5) (mkSquare 2 5) = true <-> mkSquare 2 5 = mkSquare 2 5.
Proof. apply Square_eq_on_board; reflexivity. Defined.

(** X4. [find_diff] and [apply_diff] undo each other. *)
Theorem diff_round_trip (s e : Square) (d : Z * Z) :
  apply_diff s (find_diff s e) = e /\ find_diff s (apply_diff s d) = d.
Proof.
  destruct s as [c r], e as [c' r'], d as [dc dr].
  unfold apply_diff, find_diff. cbn [col row fst snd].
  split; f_equal; lia.
Qed.

(** ** Pieces *)

(** X5. [move()] keeps the type, the colour and the value of a piece and
    marks it as moved; it changes no vector but the first one of a pawn, whose
    maximal distance becomes 1; a second [move()] changes nothing more. *)
Theorem Piece_move_effect (p : Piece) :
  type (Piece_move p) = type p
  /\ color (Piece_move p) = color p
  /\ value (Piece_move p) = value p
  /\ has_moved (Piece_move p) = true
  /\ (type p <> PAWN -> vectors (Piece_move p) = vectors p)
  /\ (type p = PAWN ->
      forall v vs, vectors p = v :: vs ->
        vectors (Piece_move p)
        = mkVector (direction v) (Some 1) (can_capture v) (can_only_capture v) :: vs)
  /\ Piece_move (Piece_move p) = Piece_move p.
Proof.
  destruct p as [t c m vs]. unfold Piece_move, value. cbn [type color has_moved vectors].
  repeat split.
  - intros H. destruct t; try reflexivity. congruence.
  - intros -> v vs' ->. reflexivity.
  - destruct t; try reflexivity. destruct vs; reflexivity.
Qed.

Lemma Piece_move_effect_witness :
  vectors (Piece_move (Knight WHITE)) = vectors (Knight WHITE).
Proof.
  apply (proj1 (proj2 (proj2 (proj2 (proj2 (Piece_move_effect (Knight WHITE))))))).
  discriminate.
Defined.

(** ** Check trackers *)

Lemma add_path_shape (fuel : nat) (king : Square) (v : MovementVector) :
  forall (s : Square) (distance : Z) (path p : list Square),
  add_path fuel king v s distance path = ok p ->
  exists n, (1 <= n <= fuel)%nat
    /\ p = path ++ map (fun i => Nat.iter i (fun x => apply_diff x (direction v)) s)
                     (seq 0 n)
    /\ Square_eqb (Nat.iter n (fun x => apply_diff x (direction v)) s) king = true
    /\ exceeds (distance + Z.of_nat n) v = false
    /\ (forall i, (1 <= i <= n)%nat ->
          is_valid (Nat.iter i (fun x => apply_diff x (direction v)) s) = true).
Proof.
  induction fuel as [ | fuel IH]; intros s distance path p H.
  - discriminate.
  - cbn [add_path] in H.
    destruct (exceeds (distance + 1) v) eqn:X; [discriminate | ].
    destruct (is_valid (apply_diff s (direction v))) eqn:V; [ | discriminate].
    cbn [negb] in H.
    destruct (Square_eq (apply_diff s (direction v)) king) as [e | [ | ]] eqn:Q;
      [discriminate | | ].
    + apply Square_eq_ok in Q. destruct Q as (_ & _ & K).
      inversion H; subst. exists 1%nat. repeat split; try lia.
      * exact K.
      * exact X.
      * intros i Hi. assert (i = 1%nat) as -> by lia. exact V.
    + apply IH in H. destruct H as (n & Hn & Hp & Hk & Hx & Hv).
      pose proof (fun i => iter_shift (fun x => apply_diff x (direction v)) i s) as Sh.
      cbv beta in Sh.
      exists (S n). repeat split; try lia.
      * rewrite Hp, <- app_assoc. f_equal. cbn [seq map app Nat.iter].
        f_equal. rewrite <- seq_shift, map_map.
        apply map_ext. intros i. apply Sh.
      * rewrite <- Sh. exact Hk.
      * rewrite <- Hx. f_equal. lia.
      * intros i Hi. destruct i as [ | i]; [lia | ].
        destruct i as [ | i]; [exact V | ].
        rewrite <- Sh. apply Hv. lia.
Qed.

(** X6. When [CheckVectors.add] returns, the vector can capture and the
    tracker has grown by one path: the attacker's square followed by the
    squares the vector steps through, all on the board, up to but not
    including the king's square, which is the next step; the length of the
    path is within the vector's maximal distance. *)
Theorem CheckVectors_add_path (cv : CheckVectors) (attacker king : Square)
    (v : MovementVector) (cv' : CheckVectors) :
  CheckVectors_add cv attacker king v = ok cv' ->
  can_capture v = true
  /\ exists n, (1 <= n)%nat
       /\ cv' = cv ++ [map (fun i => Nat.iter i (fun x => apply_diff x (direction v))
                                       attacker) (seq 0 n)]
       /\ Square_eqb (Nat.iter n (fun x => apply_diff x (direction v)) attacker) king
          = true
       /\ exceeds (Z.of_nat n) v = false
       /\ (forall i, (1 <= i <= n)%nat ->
             is_valid (Nat.iter i (fun x => apply_diff x (direction v)) attacker)
             = true).
Proof.
  unfold CheckVectors_add. intros H.
  destruct (can_capture v); [ | discriminate]. split; [reflexivity | ].
  cbn [negb] in H.
  destruct (add_path board_fuel king v attacker 0 []) as [e | p] eqn:E;
    [discriminate | ].
  inversion H; subst; clear H.
  apply add_path_shape in E. destruct E as (n & Hn & Hp & Hk & Hx & Hv).
  exists n. repeat split; try lia; try assumption.
  now rewrite Hp.
Qed.

Lemma CheckVectors_add_path_witness :
  exists n, (1 <= n)%nat
    /\ [[sq "b4"; sq "c3"; sq "d2"]]
       = [] ++ [map (fun i => Nat.iter i (fun x => apply_diff x (1, -1)) (sq "b4"))
                  (seq 0 n)].
Proof.
  destruct (CheckVectors_add_path [] (sq "b4") (sq "e1") (vec (1, -1))
              [[sq "b4"; sq "c3"; sq "d2"]] eq_refl)
    as (_ & n & Hn & Hp & _).
  exists n. split; [exact Hn | exact Hp].
Defined.

Lemma add_path_raises (fuel : nat) (king : Square) (v : MovementVector) :
  forall (s : Square) (distance : Z) (path : list Square) (e : exn),
  add_path fuel king v s distance path = raise e ->
  e = ValueError \/ e = Diverges
  \/ (e = IndexError /\ hash_square king <> ok tt).
Proof.
  induction fuel as [ | fuel IH]; intros s distance path e H.
  - inversion H. right. now left.
  - cbn [add_path] in H.
    destruct (exceeds (distance + 1) v); [inversion H; now left | ].
    destruct (is_valid (apply_diff s (direction v))) eqn:V;
      [ | inversion H; now left].
    cbn [negb] in H.
    destruct (Square_eq (apply_diff s (direction v)) king) as [x | [ | ]] eqn:Q;
      [ | discriminate | eapply IH; eassumption].
    inversion H; subst x. right. right.
    split; [eapply Square_eq_raises; exact Q | ].
    intros K. apply valid_hashable in V.
    pose proof (proj2 (Square_eq_ok (apply_diff s (direction v)) king
                         (Square_eqb (apply_diff s (direction v)) king))
                  (conj V (conj K eq_refl))) as R.
    rewrite R in Q. discriminate Q.
Qed.

(** X7. Along a vector with a non-zero direction the loop of
    [CheckVectors.add] always ends, whatever the squares and the maximal
    distance: the call returns a tracker, or raises [ValueError], or raises
    [IndexError], the last only when the king square has a coordinate that
    is no index, so that [new_square == king] cannot be evaluated. *)
Theorem CheckVectors_add_ends (cv : CheckVectors) (attacker king : Square)
    (v : MovementVector) :
  direction v <> (0, 0) ->
  (exists cv', CheckVectors_add cv attacker king v = ok cv')
  \/ CheckVectors_add cv attacker king v = raise ValueError
  \/ (CheckVectors_add cv attacker king v = raise IndexError
      /\ hash_square king <> ok tt).
Proof.
  intros Hd.
  pose proof (CheckVectors_add_fuel cv attacker king v Hd) as F.
  unfold CheckVectors_add in *.
  destruct (negb (can_capture v)); [right; now left | ].
  destruct (add_path board_fuel king v attacker 0 []) as [e | p] eqn:E.
  - apply add_path_raises in E. destruct E as [-> | [-> | [-> K]]].
    + right. now left.
    + now contradiction F.
    + right. right. split; [reflexivity | exact K].
  - left. eexists. reflexivity.
Qed.

Lemma CheckVectors_add_ends_witness :
  CheckVectors_add [] (sq "a1") (sq "h7") (vec (1, 1)) = raise ValueError
  /\ CheckVectors_add [] (sq "a1") (mkSquare 9 9) (vec (0, 1)) = raise IndexError.
Proof.
  assert (D1 : direction (vec (1, 1)) <> (0, 0)) by discriminate.
  assert (D2 : direction (vec (0, 1)) <> (0, 0)) by discriminate.
  split.
  - destruct (CheckVectors_add_ends [] (sq "a1") (sq "h7") (vec (1, 1)) D1)
      as [[cv' E] | [E | [E K]]].
    + vm_compute in E. discriminate E.
    + exact E.
    + vm_compute in E. discriminate E.
  - destruct (CheckVectors_add_ends [] (sq "a1") (mkSquare 9 9) (vec (0, 1)) D2)
      as [[cv' E] | [E | [E K]]].
    + vm_compute in E. discriminate E.
    + vm_compute in E. discriminate E.
    + exact E.
Defined.

(** ** The store of pieces under scans and moves *)

Lemma same_object_refl (g : GamePiece) : same_object g g.
Proof. repeat split. Qed.

Lemma same_object_trans (a b c : GamePiece) :
  same_object a b -> same_object b c -> same_object a c.
Proof. unfold same_object. intros (U1 & P1 & S1) (U2 & P2 & S2). repeat split; congruence. Qed.

Lemma keeps_pieces_refl (h : Heap) : keeps_pieces h h.
Proof. split; [lia | intros; apply same_object_refl]. Qed.

Lemma keeps_pieces_trans (a b c : Heap) :
  keeps_pieces a b -> keeps_pieces b c -> keeps_pieces a c.
Proof.
  intros [L1 O1] [L2 O2]. split; [lia | ].
  intros x Hx. eapply same_object_trans; [apply O1 | apply O2]; lia.
Qed.

Lemma nth_list_update_other {A} (l : list A) (n a : nat) (f : A -> A) (d : A) :
  a <> n -> nth a (list_update l n f) d = nth a l d.
Proof.
  revert n a; induction l as [ | x l IH]; intros [ | n] [ | a] H; simpl;
    try reflexivity; try congruence.
  apply IH. congruence.
Qed.

Lemma list_update_keeps (h : Heap) (n : nat) (f : GamePiece -> GamePiece) :
  (forall g, same_object g (f g)) ->
  forall a, same_object (nth a h dangling) (nth a (list_update h n f) dangling).
Proof.
  intros Hf a. destruct (Nat.eq_dec a n) as [-> | N].
  - destruct (Nat.lt_ge_cases n (List.length h)) as [L | G].
    + rewrite nth_list_update by exact L. apply Hf.
    + rewrite !nth_overflow; [apply same_object_refl | | exact G].
      now rewrite list_update_length.
  - rewrite nth_list_update_other by exact N. apply same_object_refl.
Qed.

Lemma cache_square_keeps (h : Heap) (p : PRef) (s : Square) (v : MovementVector) :
  keeps_pieces h (cache_square h p s v)
  /\ List.length (cache_square h p s v) = List.length h.
Proof.
  unfold cache_square. split; [split | ].
  - rewrite list_update_length. lia.
  - intros a _. apply list_update_keeps. intros g. repeat split.
  - apply list_update_length.
Qed.

Lemma scan_ray_keeps (fuel : nat) (p : PRef) (v : MovementVector) :
  forall s d t h b h' r,
  scan_ray fuel p v s d t h b = (h', r) ->
  keeps_pieces h h' /\ List.length h' = List.length h.
Proof.
  induction fuel as [ | fuel IH]; cbn [scan_ray]; intros s d t h b h' r H.
  - inversion H; subst. split; [apply keeps_pieces_refl | reflexivity].
  - destruct (exceeds d v).
    { inversion H; subst. split; [apply keeps_pieces_refl | reflexivity]. }
    destruct (negb (is_valid s)).
    { inversion H; subst. split; [apply keeps_pieces_refl | reflexivity]. }
    destruct (cache_square_keeps h p s v) as [K L].
    destruct (scan_candidate (cache_square h p s v) p b t s v) as [e | [b1 t1]].
    + inversion H; subst. split; assumption.
    + apply IH in H. destruct H as [K' L']. split.
      * eapply keeps_pieces_trans; eassumption.
      * congruence.
Qed.

Lemma scan_vectors_keeps (p : PRef) (vs : list MovementVector) :
  forall h b h' r,
  scan_vectors p vs h b = (h', r) ->
  keeps_pieces h h' /\ List.length h' = List.length h.
Proof.
  induction vs as [ | v vs IH]; cbn [scan_vectors]; intros h b h' r H.
  - inversion H; subst. split; [apply keeps_pieces_refl | reflexivity].
  - destruct (scan_ray board_fuel p v _ 1 false h b) as [h1 [e | b1]] eqn:E;
      apply scan_ray_keeps in E; destruct E as [K L].
    + inversion H; subst. split; assumption.
    + apply IH in H. destruct H as [K' L']. split.
      * eapply keeps_pieces_trans; eassumption.
      * congruence.
Qed.

Lemma rescan_from_keeps (p : PRef) (s : Square) h b h' r :
  rescan_from p s h b = (h', r) ->
  keeps_pieces h h' /\ List.length h' = List.length h.
Proof.
  unfold rescan_from. destruct (hash_square s).
  { intros H. inversion H; subst. split; [apply keeps_pieces_refl | reflexivity]. }
  destruct (dict_get _ _ _); intros H.
  - eapply scan_ray_keeps; eassumption.
  - inversion H; subst. split; [apply keeps_pieces_refl | reflexivity].
Qed.

Lemma prepare_moves_keeps (p : PRef) (m : option Move) h b h' r :
  prepare_moves p m h b = (h', r) ->
  keeps_pieces h h' /\ List.length h' = List.length h.
Proof.
  unfold prepare_moves. destruct m as [m | ]; intros H.
  - destruct (rescan_from p (start m) h b) as [h1 [e | b1]] eqn:E;
      apply rescan_from_keeps in E; destruct E as [K L].
    + inversion H; subst. split; assumption.
    + apply rescan_from_keeps in H. destruct H as [K' L']. split.
      * eapply keeps_pieces_trans; eassumption.
      * congruence.
  - eapply scan_vectors_keeps; eassumption.
Qed.

Lemma prepare_all_keeps (m : option Move) (ps : list PRef) :
  forall h b h' r,
  prepare_all ps m h b = (h', r) ->
  keeps_pieces h h' /\ List.length h' = List.length h.
Proof.
  induction ps as [ | p ps IH]; cbn [prepare_all]; intros h b h' r H.
  - inversion H; subst. split; [apply keeps_pieces_refl | reflexivity].
  - destruct (prepare_moves p m h b) as [h1 [e | b1]] eqn:E;
      apply prepare_moves_keeps in E; destruct E as [K L].
    + inversion H; subst. split; assumption.
    + apply IH in H. destruct H as [K' L']. split.
      * eapply keeps_pieces_trans; eassumption.
      * congruence.
Qed.

Lemma keeps_pieces_app (h : Heap) (g : GamePiece) : keeps_pieces h (h ++ [g]).
Proof.
  split; [rewrite length_app; simpl; lia | ].
  intros a Ha. rewrite app_nth1 by exact Ha. apply same_object_refl.
Qed.

Lemma GamePiece_move_keeps (h : Heap) (g : GamePiece) (u : nat) (s : Square) :
  keeps_pieces h (GamePiece_move (h ++ [g]) (mkRef u (List.length h)) s)
  /\ List.length (GamePiece_move (h ++ [g]) (mkRef u (List.length h)) s)
     = S (List.length h).
Proof.
  unfold GamePiece_move. cbn [ref_addr]. split; [split | ].
  - rewrite list_update_length, length_app. simpl. lia.
  - intros a Ha. rewrite nth_list_update_other by lia.
    rewrite app_nth1 by exact Ha. apply same_object_refl.
  - rewrite list_update_length, length_app. simpl. lia.
Qed.

Lemma make_move_keeps h b m h' r :
  make_move h b m = (h', r) ->
  keeps_pieces h h'
  /\ (List.length h' = List.length h \/ List.length h' = S (List.length h)).
Proof.
  unfold make_move, deepcopy. intros H.
  destruct (hash_square (start m)).
  { inversion H; subst. split; [apply keeps_pieces_refl | now left]. }
  destruct (dict_get Square_eqb (start m) (_position b)) as [old | ].
  2: { inversion H; subst. split; [apply keeps_pieces_refl | now left]. }
  assert (L1 : List.length (h ++ [deref h old]) = S (List.length h))
    by (rewrite length_app; simpl; lia).
  destruct (dict_del PRef_eqb _ (_available_moves b)) as [av | ].
  2: { inversion H; subst. split; [apply keeps_pieces_app | now right]. }
  cbv zeta in H.
  destruct (negb (Color_eqb _ _)).
  { inversion H; subst. split; [apply keeps_pieces_app | now right]. }
  match type of H with
  | context [capture ?hh ?bb m] => destruct (capture hh bb m) as [e | b1]
  end.
  { inversion H; subst. split; [apply keeps_pieces_app | now right]. }
  destruct (GamePiece_move_keeps h (deref h old) (ref_uuid old) (end_ m)) as [K2 L2].
  destruct (dict_del Square_eqb (start m) _) as [pos | ].
  2: { inversion H; subst. split; [exact K2 | now right]. }
  match type of H with
  | context [prepare_moves ?pp None ?hh ?bb] =>
      destruct (prepare_moves pp None hh bb) as [h2 [e | b2]] eqn:EP;
        apply prepare_moves_keeps in EP; destruct EP as [K3 L3]
  end.
  { inversion H; subst. split.
    - eapply keeps_pieces_trans; eassumption.
    - right. congruence. }
  apply prepare_all_keeps in H. destruct H as [K4 L4]. split.
  - eapply keeps_pieces_trans; [exact K2 | ].
    eapply keeps_pieces_trans; eassumption.
  - right. congruence.
Qed.

Lemma keeps_pieces_firstn (h h' : Heap) :
  keeps_pieces h h' ->
  keeps_pieces h (firstn (List.length h) h')
  /\ List.length (firstn (List.length h) h') = List.length h.
Proof.
  intros [L O].
  assert (E : List.length (firstn (List.length h) h') = List.length h)
    by (rewrite length_firstn; lia).
  split; [split | exact E].
  - lia.
  - intros a Ha.
    replace (nth a (firstn (List.length h) h') dangling) with (nth a h' dangling).
    + now apply O.
    + rewrite <- (firstn_skipn (List.length h) h') at 1.
      rewrite app_nth1; [reflexivity | lia].
Qed.

Lemma make_child_store (h : Heap) (b : Board) (m : Move)
    (h' : Heap) (r : result Board) :
  make_child h b m = (h', r) ->
  keeps_pieces h h'
  /\ List.length h'
     = match r with
       | inr _ => S (List.length h)
       | inl _ => List.length h
       end.
Proof.
  unfold make_child. intros H.
  destruct (KingLocations_move (king_squares (state b)) m) as [e | kings].
  { inversion H; subst. split; [apply keeps_pieces_refl | reflexivity]. }
  match type of H with
  | context [make_move h ?bb m] =>
      destruct (make_move h bb m) as [h1 [e | c]] eqn:E
  end.
  - apply make_move_keeps in E. destruct E as [K _].
    inversion H; subst. now apply keeps_pieces_firstn.
  - pose proof (make_move_keeps _ _ _ _ _ E) as [K _].
    apply make_move_frame in E. destruct E as (_ & _ & _ & _ & _ & _ & L & _).
    inversion H; subst. split; assumption.
Qed.

(** X8. [make_child] never moves or alters a piece that was there before:
    every object of the store keeps its uuid, its piece (type, colour,
    has_moved, vectors) and its square, and only caches can differ.  A call
    that returns has added one object, the copy of the moved piece; a call
    that raises has added none. *)
Theorem make_child_keeps_pieces (h : Heap) (b : Board) (m : Move)
    (h' : Heap) (r : result Board) :
  make_child h b m = (h', r) ->
  keeps_pieces h h'
  /\ List.length h'
     = match r with
       | inr _ => S (List.length h)
       | inl _ => List.length h
       end.
Proof. apply make_child_store. Qed.

Lemma make_child_keeps_pieces_witness :
  keeps_pieces start_heap (fst (make_child start_heap start_board (mv "e2" "e4"))).
Proof.
  destruct (make_child start_heap start_board (mv "e2" "e4")) as [h' r] eqn:E.
  exact (proj1 (make_child_keeps_pieces _ _ _ _ _ E)).
Defined.

(** ** What a move does to the state *)

Section StateField.
Context {A : Type} (f : BoardState -> A).
Hypothesis f_check : forall s c cv, f (set_check_vectors s c cv) = f s.

Lemma scan_candidate_field h p b t s v b' t' :
  scan_candidate h p b t s v = inr (b', t') -> f (state b') = f (state b).
Proof.
  unfold scan_candidate. intros H.
  destruct (negb t); [ | inversion H; reflexivity].
  destruct (dict_get Square_eqb s (_position (relevant_add s p b))) as [held | ].
  - destruct (_ && can_capture v); [ | inversion H; reflexivity].
    destruct (PieceType_eqb _ KING); [ | inversion H; reflexivity].
    destruct (Color_eqb _ (next_turn _)); [discriminate | ].
    destruct (CheckVectors_add _ _ _ v) as [e | cv]; [discriminate | ].
    inversion H; subst. cbn. apply f_check.
  - destruct (negb (can_only_capture v)); inversion H; reflexivity.
Qed.

Lemma scan_ray_field fuel p v : forall s d t h b h' b',
  scan_ray fuel p v s d t h b = (h', inr b') -> f (state b') = f (state b).
Proof.
  induction fuel as [ | fuel IH]; cbn [scan_ray]; intros s d t h b h' b' H.
  - discriminate.
  - destruct (exceeds d v); [inversion H; reflexivity | ].
    destruct (negb (is_valid s)); [inversion H; reflexivity | ].
    destruct (scan_candidate _ p b t s v) as [e | [b1 t1]] eqn:E; [discriminate | ].
    apply IH in H. apply scan_candidate_field in E. congruence.
Qed.

Lemma scan_vectors_field p vs : forall h b h' b',
  scan_vectors p vs h b = (h', inr b') -> f (state b') = f (state b).
Proof.
  induction vs as [ | v vs IH]; cbn [scan_vectors]; intros h b h' b' H.
  - inversion H; reflexivity.
  - destruct (scan_ray board_fuel p v _ 1 false h b) as [h1 [e | b1]] eqn:E;
      [discriminate | ].
    apply scan_ray_field in E. apply IH in H. congruence.
Qed.

Lemma rescan_from_field p s h b h' b' :
  rescan_from p s h b = (h', inr b') -> f (state b') = f (state b).
Proof.
  unfold rescan_from. destruct (hash_square s); [discriminate | ].
  destruct (dict_get Square_eqb s _) as [v | ]; intros H.
  - now apply scan_ray_field in H.
  - inversion H; reflexivity.
Qed.

Lemma prepare_moves_field p m h b h' b' :
  prepare_moves p m h b = (h', inr b') -> f (state b') = f (state b).
Proof.
  unfold prepare_moves. destruct m as [m | ]; intros H.
  - destruct (rescan_from p (start m) h b) as [h1 [e | b1]] eqn:E;
      [discriminate | ].
    apply rescan_from_field in E. apply rescan_from_field in H. congruence.
  - eapply scan_vectors_field; eassumption.
Qed.

Lemma prepare_all_field m ps : forall h b h' b',
  prepare_all ps m h b = (h', inr b') -> f (state b') = f (state b).
Proof.
  induction ps as [ | p ps IH]; cbn [prepare_all]; intros h b h' b' H.
  - inversion H; reflexivity.
  - destruct (prepare_moves p m h b) as [h1 [e | b1]] eqn:E; [discriminate | ].
    apply prepare_moves_field in E. apply IH in H. congruence.
Qed.

Hypothesis f_material : forall s d, f (add_material s d) = f s.
Hypothesis f_turn : forall s, f (take_turn s) = f s.

Lemma make_move_field h b m h' b' :
  make_move h b m = (h', inr b') -> f (state b') = f (state b).
Proof.
  unfold make_move, deepcopy. intros H.
  destruct (hash_square (start m)); [inversion H | ].
  destruct (dict_get Square_eqb (start m) (_position b)) as [old | ]; [ | inversion H].
  destruct (dict_del PRef_eqb _ (_available_moves b)) as [av | ]; [ | inversion H].
  cbv zeta in H.
  destruct (negb (Color_eqb _ _)); [inversion H | ].
  match type of H with
  | context [capture ?hh ?bb m] =>
      destruct (capture hh bb m) as [e | b1] eqn:EC; [inversion H | ]
  end.
  assert (F1 : f (state b1) = f (state b)).
  { unfold capture in EC.
    destruct (hash_square (end_ m)); [discriminate | ].
    cbn [_position with_relevant with_available] in EC.
    destruct (dict_get Square_eqb (end_ m) (_position b)) as [c | ].
    - cbv zeta in EC. destruct (dict_del PRef_eqb c _); [ | discriminate].
      inversion EC; subst. cbn. apply f_material.
    - inversion EC; subst. reflexivity. }
  destruct (dict_del Square_eqb (start m) _) as [pos | ]; [ | inversion H].
  match type of H with
  | context [prepare_moves ?pp None ?hh ?bb] =>
      destruct (prepare_moves pp None hh bb) as [h2 [e | b2]] eqn:EP; [inversion H | ]
  end.
  apply prepare_moves_field in EP. apply prepare_all_field in H.
  cbn in EP, H. rewrite H, EP, f_turn. exact F1.
Qed.
End StateField.

Lemma make_child_inv h b m h' c :
  make_child h b m = (h', ok c) ->
  exists kings,
    KingLocations_move (king_squares (state b)) m = ok kings
    /\ make_move h
         (mkBoard
            (BoardState_init (Some m) (turn (state b)) (material (state b))
               (check_vectors (state b) (turn (state b))) kings)
            (_position b) (_relevant_piece_squares b) (_available_moves b)) m
       = (h', ok c).
Proof.
  unfold make_child. intros H.
  destruct (KingLocations_move (king_squares (state b)) m) as [e | kings];
    [discriminate | ].
  exists kings. split; [reflexivity | ].
  match type of H with
  | context [make_move h ?bb m] =>
      destruct (make_move h bb m) as [h1 [e | c1]]; [discriminate | ]
  end.
  inversion H; subst. reflexivity.
Qed.

Lemma BoardState_init_rest last t mat checks kings :
  last_move (BoardState_init last t mat checks kings) = last
  /\ king_squares (BoardState_init last t mat checks kings) = kings.
Proof. destruct t; split; reflexivity. Qed.

Lemma make_move_mover h b m h' b' :
  make_move h b m = (h', inr b') ->
  exists old,
    dict_get Square_eqb (start m) (_position b) = Some old
    /\ color (piece (deref h old)) = turn (state b).
Proof.
  unfold make_move, deepcopy. intros H.
  destruct (hash_square (start m)); [inversion H | ].
  destruct (dict_get Square_eqb (start m) (_position b)) as [old | ]; [ | inversion H].
  exists old. split; [reflexivity | ].
  destruct (dict_del PRef_eqb _ (_available_moves b)) as [av | ]; [ | inversion H].
  cbv zeta in H. cbn [state with_relevant with_available] in H.
  destruct (Color_eqb _ (turn (state b))) eqn:C; [ | inversion H].
  unfold deref in *. cbn [ref_addr] in C. rewrite nth_middle in C.
  destruct (color (piece (nth (ref_addr old) h dangling))), (turn (state b));
    simpl in C; congruence.
Qed.

(** X9. The board [make_child] returns records the move as its last move,
    has the king squares that [KingLocations.move] gives for it, and its
    material is the parent's plus the signed value of the piece the move
    captured, if any. *)
Theorem make_child_state (h : Heap) (b : Board) (m : Move) (h' : Heap) (c : Board) :
  position_in_heap h b ->
  make_child h b m = (h', ok c) ->
  last_move (state c) = Some m
  /\ KingLocations_move (king_squares (state b)) m = ok (king_squares (state c))
  /\ material (state c)
     = material (state b)
       + match captured_piece h b m with
         | Some p => signed_value p
         | None => 0
         end.
Proof.
  intros W H. apply make_child_inv in H. destruct H as (kings & K & H).
  destruct (BoardState_init_rest (Some m) (turn (state b)) (material (state b))
              (check_vectors (state b) (turn (state b))) kings) as [IL IK].
  pose proof (make_move_field last_move
                (fun s c cv =>
                   proj1 (proj2 (proj2 (proj2 (set_check_vectors_fields s c cv)))))
                (fun s d => eq_refl) (fun s => eq_refl) _ _ _ _ _ H) as FL.
  pose proof (make_move_field king_squares
                (fun s c cv =>
                   proj2 (proj2 (proj2 (proj2 (set_check_vectors_fields s c cv)))))
                (fun s d => eq_refl) (fun s => eq_refl) _ _ _ _ _ H) as FK.
  cbn [state] in FL, FK. rewrite IL in FL. rewrite IK in FK.
  split; [exact FL | split].
  - rewrite K, FK. reflexivity.
  - match type of H with
    | make_move h ?cb m = _ =>
        assert (W' : position_in_heap h cb) by exact W;
        rewrite (make_move_material h cb m h' c W' H)
    end.
    unfold captured_piece. cbn [state _position].
    destruct (BoardState_init_fields (Some m) (turn (state b)) (material (state b))
                (check_vectors (state b) (turn (state b))) kings)
      as (_ & _ & _ & _ & M).
    rewrite M. reflexivity.
Qed.

Lemma make_child_state_witness :
  match make_child start_heap start_board (mv "g1" "f3") with
  | (_, inr c) => last_move (state c) = Some (mv "g1" "f3")
  | (_, inl _) => False
  end.
Proof.
  destruct (make_child start_heap start_board (mv "g1" "f3")) as [h [e | c]] eqn:E.
  - vm_compute in E. discriminate.
  - exact (proj1 (make_child_state _ _ _ _ _ start_in_heap E)).
Defined.

(** ** Rejected moves *)










(** ** The move generators *)

Lemma dict_get_app_default {K E} (eqb : K -> K -> bool) (k k' : K) (d : list (K * list E)) :
  dd_lookup eqb k' (d ++ [(k, [])]) = dd_lookup eqb k' d.
Proof.
  unfold dd_lookup. induction d as [ | [k0 v0] d IH]; simpl.
  - now destruct (eqb k' k).
  - destruct (eqb k' k0); [reflexivity | exact IH].
Qed.

Lemma dd_lookup_touch {K E} (eqb : K -> K -> bool) (k k' : K) (d : list (K * list E)) :
  dd_lookup eqb k' (dd_touch eqb k d) = dd_lookup eqb k' d.
Proof.
  unfold dd_touch. destruct (dict_mem eqb k d); [reflexivity | ].
  apply dict_get_app_default.
Qed.

Lemma unchanged_board_refl (b : Board) : unchanged_board b b.
Proof. repeat split. Qed.

Lemma unchanged_board_trans (a b c : Board) :
  unchanged_board a b -> unchanged_board b c -> unchanged_board a c.
Proof.
  intros (S1 & P1 & A1 & R1) (S2 & P2 & A2 & R2). repeat split; congruence.
Qed.

Lemma touch_available_unchanged (b : Board) (p : PRef) :
  unchanged_board b (with_available b (dd_touch PRef_eqb p (_available_moves b))).
Proof.
  repeat split. intros q. cbn [_available_moves with_available]. apply dd_lookup_touch.
Qed.

Lemma blocking_pieces_lookup h c squares : forall rel acc rel' ps,
  blocking_pieces h c squares rel acc = (rel', ps) ->
  forall s, dd_lookup Square_eqb s rel' = dd_lookup Square_eqb s rel.
Proof.
  induction squares as [ | x squares IH]; cbn [blocking_pieces]; intros rel acc rel' ps H s.
  - inversion H; reflexivity.
  - rewrite (IH _ _ _ _ H). apply dd_lookup_touch.
Qed.

Lemma make_child_child_of h b m h' c :
  make_child h b m = (h', ok c) -> child_of h b c.
Proof.
  intros H. apply make_child_inv in H. destruct H as (kings & K & H).
  pose proof (make_move_field last_move
                (fun s c cv =>
                   proj1 (proj2 (proj2 (proj2 (set_check_vectors_fields s c cv)))))
                (fun s d => eq_refl) (fun s => eq_refl) _ _ _ _ _ H) as FL.
  destruct (make_move_mover _ _ _ _ _ H) as (old & G & C).
  apply make_move_frame in H. destruct H as (_ & _ & T & N & _).
  cbn [state _position] in *.
  destruct (BoardState_init_fields (Some m) (turn (state b)) (material (state b))
              (check_vectors (state b) (turn (state b))) kings)
    as (T0 & N0 & _).
  destruct (BoardState_init_rest (Some m) (turn (state b)) (material (state b))
              (check_vectors (state b) (turn (state b))) kings) as [IL _].
  rewrite T0 in *. rewrite N0 in T. rewrite IL in FL.
  exists m, old. repeat split; try assumption.
  rewrite T. destruct (turn (state b)); simpl; discriminate.
Qed.

Lemma child_of_transport (h0 h : Heap) (b0 b c : Board) :
  position_in_heap h0 b0 -> keeps_pieces h0 h ->
  state b = state b0 -> _position b = _position b0 ->
  child_of h b c -> child_of h0 b0 c.
Proof.
  intros W [_ K] S P (m & old & L & G & C & N & T).
  rewrite S in *. rewrite P in G.
  exists m, old. repeat split; try assumption.
  assert (A : (ref_addr old < List.length h0)%nat)
    by exact (dict_get_Forall Square_eqb
                (fun r => (ref_addr r < List.length h0)%nat) _ _ _ W G).
  destruct (K _ A) as (_ & Pc & _). unfold deref in *. now rewrite <- Pc.
Qed.

Lemma reported_cases (h : Heap) (p : PRef) (s : Square) (e : exn) :
  reported h p s e = e \/ reported h p s e = IndexError.
Proof.
  unfold reported, to_name.
  destruct (get_position (square (deref h p))) as [x | [c r]] eqn:A.
  - right. unfold raise. cbv beta iota. eapply get_position_raises; exact A.
  - unfold ok. cbv beta iota.
    destruct (get_position s) as [x | [c' r']] eqn:B; [ | now left].
    right. unfold raise. cbv beta iota. eapply get_position_raises; exact B.
Qed.

Ltac not_invalid :=
  first
    [ discriminate
    | match goal with
      | |- Some (if ?pr then reported ?h ?p ?s ?x else _) <> _ =>
          let R := fresh "R" in
          destruct pr;
          [destruct (reported_cases h p s x) as [R | R]; rewrite R | ];
          discriminate
      end ].

(** What one loop of the generators keeps. *)
Lemma yield_moves_facts (h0 : Heap) (b0 : Board) (printed : bool) (p : PRef)
    (keep : Square -> bool) (b : Board) :
  position_in_heap h0 b0 -> state b = state b0 -> _position b = _position b0 ->
  forall squares h h' cs e,
  keeps_pieces h0 h ->
  yield_moves printed p squares keep h b = (h', (cs, e)) ->
  keeps_pieces h0 h'
  /\ List.length h' = (List.length h + List.length cs)%nat
  /\ e <> Some InvalidPositionException
  /\ Forall (child_of h0 b0) cs.
Proof.
  intros W S P. induction squares as [ | s rest IH]; cbn [yield_moves];
    intros h h' cs e K H.
  - inversion H; subst.
    split; [exact K | split; [simpl; lia | split; [discriminate | constructor]]].
  - destruct (keep s); [ | eapply IH; eassumption].
    destruct (make_child h b (mkMove (square (deref h p)) s)) as [h1 [x | c]] eqn:E.
    + destruct (make_child_store _ _ _ _ _ E) as [K1 L1].
      assert (K01 : keeps_pieces h0 h1) by (eapply keeps_pieces_trans; eassumption).
      destruct x;
        try (inversion H; subst;
             split; [exact K01 | split; [simpl; lia | split; [not_invalid | constructor]]]).
      destruct (IH _ _ _ _ K01 H) as (K2 & L2 & E2 & F2).
      split; [exact K2 | split; [lia | split; assumption]].
    + destruct (make_child_store _ _ _ _ _ E) as [K1 L1].
      assert (K01 : keeps_pieces h0 h1) by (eapply keeps_pieces_trans; eassumption).
      destruct (yield_moves printed p rest keep h1 b) as [h2 [cs2 e2]] eqn:E2.
      inversion H; subst.
      destruct (IH _ _ _ _ K01 E2) as (K2 & L2 & E3 & F2).
      split; [exact K2 | split; [simpl; lia | split; [exact E3 | ]]].
      constructor; [ | exact F2].
      apply (child_of_transport h0 h b0 b c W K S P).
      eapply make_child_child_of; exact E.
Qed.

Lemma yield_pieces_facts (h0 : Heap) (b : Board) :
  position_in_heap h0 b ->
  forall items h h' cs e,
  keeps_pieces h0 h ->
  yield_pieces items h b = (h', (cs, e)) ->
  keeps_pieces h0 h'
  /\ List.length h' = (List.length h + List.length cs)%nat
  /\ e <> Some InvalidPositionException
  /\ Forall (child_of h0 b) cs.
Proof.
  intros W. induction items as [ | [p squares] rest IH]; cbn [yield_pieces];
    intros h h' cs e K H.
  - inversion H; subst.
    split; [exact K | split; [simpl; lia | split; [discriminate | constructor]]].
  - destruct (yield_moves true p squares (fun _ => true) h b) as [h1 [cs1 e1]] eqn:E1.
    destruct (yield_moves_facts h0 b true p _ b W eq_refl eq_refl _ _ _ _ _ K E1)
      as (K1 & L1 & X1 & F1).
    destruct e1 as [x | ].
    + inversion H; subst. split; [exact K1 | split; [exact L1 | split; assumption]].
    + destruct (yield_pieces rest h1 b) as [h2 [cs2 e2]] eqn:E2.
      inversion H; subst.
      destruct (IH _ _ _ _ K1 E2) as (K2 & L2 & X2 & F2).
      split; [exact K2 | split; [rewrite length_app; lia | split; [exact X2 | ]]].
      apply Forall_app. now split.
Qed.

Lemma yield_blockers_facts (h0 : Heap) (b0 : Board) (blocking : list Square) :
  position_in_heap h0 b0 ->
  forall ps h b h' b' cs e,
  keeps_pieces h0 h -> unchanged_board b0 b ->
  yield_blockers ps blocking h b = (h', b', (cs, e)) ->
  keeps_pieces h0 h'
  /\ List.length h' = (List.length h + List.length cs)%nat
  /\ e <> Some InvalidPositionException
  /\ Forall (child_of h0 b0) cs
  /\ unchanged_board b0 b'.
Proof.
  intros W. induction ps as [ | p rest IH]; cbn [yield_blockers];
    intros h b h' b' cs e K U H.
  - inversion H; subst.
    split; [exact K | split; [simpl; lia | split; [discriminate | split; [constructor | exact U]]]].
  - set (b1 := with_available b (dd_touch PRef_eqb p (_available_moves b))) in *.
    assert (U1 : unchanged_board b0 b1).
    { eapply unchanged_board_trans; [exact U | apply touch_available_unchanged]. }
    destruct (yield_moves false p _ _ h b1) as [h1 [cs1 e1]] eqn:E1.
    destruct (yield_moves_facts h0 b0 false p _ b1 W (proj1 U1) (proj1 (proj2 U1))
                _ _ _ _ _ K E1) as (K1 & L1 & X1 & F1).
    destruct e1 as [x | ].
    + inversion H; subst.
      split; [exact K1 | split; [exact L1 | split; [exact X1 | split; [exact F1 | exact U1]]]].
    + destruct (yield_blockers rest blocking h1 b1) as [[h2 b2] [cs2 e2]] eqn:E2.
      inversion H; subst.
      destruct (IH _ _ _ _ _ _ K1 U1 E2) as (K2 & L2 & X2 & F2 & U2).
      split; [exact K2 | split; [rewrite length_app; lia | split; [exact X2 | split; [ | exact U2]]]].
      apply Forall_app. now split.
Qed.

Lemma set_of_squares_raises (path : list Square) :
  forall acc e, set_of_squares path acc = raise e -> e = IndexError.
Proof.
  induction path as [ | x rest IH]; cbn [set_of_squares]; intros acc e H.
  - discriminate.
  - destruct (hash_square x) as [y | u] eqn:Hx.
    + inversion H; subst. eapply hash_square_raises; exact Hx.
    + eapply IH; exact H.
Qed.

Lemma blocking_squares_raises (cv : CheckVectors) (e : exn) :
  blocking_squares cv = raise e -> e = IndexError.
Proof.
  unfold blocking_squares. destruct cv as [ | path [ | ]]; try discriminate.
  apply set_of_squares_raises.
Qed.

Lemma generate_facts (h : Heap) (b : Board) h' b' cs e :
  position_in_heap h b ->
  generate_legal_moves h b = (h', b', (cs, e)) ->
  keeps_pieces h h'
  /\ List.length h' = (List.length h + List.length cs)%nat
  /\ e <> Some InvalidPositionException
  /\ Forall (child_of h b) cs
  /\ unchanged_board b b'.
Proof.
  intros W. unfold generate_legal_moves. destruct (in_check b).
  - unfold _generate_legal_moves_from_check.
    destruct (hash_square _) as [x | u] eqn:HK.
    { intros H; inversion H; subst.
      split; [apply keeps_pieces_refl | ].
      split; [simpl; lia | split; [ | ]].
      - apply hash_square_raises in HK. subst x. discriminate.
      - split; [constructor | apply unchanged_board_refl]. }
    destruct (dict_get Square_eqb _ (_position b)) as [king | ].
    2: { intros H; inversion H; subst.
         split; [apply keeps_pieces_refl | ].
         split; [simpl; lia | split; [discriminate | ]].
         split; [constructor | apply unchanged_board_refl]. }
    set (b1 := with_available b (dd_touch PRef_eqb king (_available_moves b))).
    assert (U1 : unchanged_board b b1) by apply touch_available_unchanged.
    destruct (yield_moves false king _ _ h b1) as [h1 [cs1 e1]] eqn:E1.
    destruct (yield_moves_facts h b false king _ b1 W (proj1 U1) (proj1 (proj2 U1))
                _ _ _ _ _ (keeps_pieces_refl h) E1) as (K1 & L1 & X1 & F1).
    destruct e1 as [x | ].
    + intros H; inversion H; subst.
      split; [exact K1 | split; [exact L1 | split; [exact X1 | split; [exact F1 | exact U1]]]].
    + destruct (blocking_squares _) as [x | blocking] eqn:BS.
      { intros H; inversion H; subst.
        split; [exact K1 | split; [exact L1 | split; [ | split; [exact F1 | exact U1]]]].
        apply blocking_squares_raises in BS. subst x. discriminate. }
      destruct (blocking_pieces h1 (turn (state b1)) _ (_relevant_piece_squares b1) [])
        as [rel ps] eqn:EB.
      set (b2 := with_relevant b1 rel).
      assert (U2 : unchanged_board b b2).
      { destruct U1 as (S1 & P1 & A1 & R1). repeat split; try assumption.
        intros s. cbn [b2 with_relevant _relevant_piece_squares].
        rewrite (blocking_pieces_lookup _ _ _ _ _ _ _ EB). apply R1. }
      destruct (yield_blockers ps _ h1 b2) as [[h2 b3] [cs2 e2]] eqn:E2.
      intros H; inversion H; subst.
      destruct (yield_blockers_facts h b _ W _ _ _ _ _ _ _ K1 U2 E2)
        as (K2 & L2 & X2 & F2 & U3).
      split; [exact K2 | split; [rewrite length_app; lia | split; [exact X2 | split; [ | exact U3]]]].
      apply Forall_app. now split.
  - destruct (yield_pieces _ h b) as [h1 r] eqn:E. destruct r as [cs1 e1].
    intros H; inversion H; subst.
    destruct (yield_pieces_facts h b' W _ _ _ _ _ (keeps_pieces_refl h) E)
      as (K1 & L1 & X1 & F1).
    split; [exact K1 | split; [exact L1 | split; [exact X1 | split; [exact F1 | ]]]].
    apply unchanged_board_refl.
Qed.

(** X11. [InvalidPositionException] never leaves [generate_legal_moves]: a
    candidate that raises it is skipped, and the exception the generator
    ends with, if any, is another one. *)
Theorem generate_swallows_invalid (h : Heap) (b : Board) h' b' cs e :
  position_in_heap h b ->
  generate_legal_moves h b = (h', b', (cs, e)) ->
  e <> Some InvalidPositionException.
Proof. intros W H. exact (proj1 (proj2 (proj2 (generate_facts _ _ _ _ _ _ W H)))). Qed.

(** X12. Every board [generate_legal_moves] yields is one move of the side
    to move away: it records a move as its last move, never [EmptyMove]; a
    piece of the side to move stood on that move's start square; and the
    turn has passed to the other colour. *)
Theorem generate_yields_children (h : Heap) (b : Board) h' b' cs e :
  position_in_heap h b ->
  generate_legal_moves h b = (h', b', (cs, e)) ->
  Forall (child_of h b) cs.
Proof.
  intros W H. exact (proj1 (proj2 (proj2 (proj2 (generate_facts _ _ _ _ _ _ W H))))).
Qed.

(** X13. Enumerating the moves of a board leaves the board as it was, up to
    empty entries that lookups add to its two indexes: state, placement and
    every set of the indexes are the same.  In the store every piece keeps
    its uuid, piece and square, and there is one new object for each board
    yielded, none for the candidates turned down. *)
Theorem generate_leaves_board (h : Heap) (b : Board) h' b' cs e :
  position_in_heap h b ->
  generate_legal_moves h b = (h', b', (cs, e)) ->
  unchanged_board b b'
  /\ keeps_pieces h h'
  /\ List.length h' = (List.length h + List.length cs)%nat.
Proof.
  intros W H. destruct (generate_facts _ _ _ _ _ _ W H) as (K & L & _ & _ & U).
  split; [exact U | split; [exact K | exact L]].
Qed.

Lemma generate_swallows_invalid_witness :
  snd (snd (generate_legal_moves start_heap start_board))
  <> Some InvalidPositionException.
Proof.
  destruct (generate_legal_moves start_heap start_board) as [[h' b'] [cs e]] eqn:E.
  exact (generate_swallows_invalid _ _ _ _ _ _ start_in_heap E).
Defined.

Lemma generate_yields_children_witness :
  Forall (child_of start_heap start_board)
    (fst (snd (generate_legal_moves start_heap start_board))).
Proof.
  destruct (generate_legal_moves start_heap start_board) as [[h' b'] [cs e]] eqn:E.
  exact (generate_yields_children _ _ _ _ _ _ start_in_heap E).
Defined.

Lemma generate_leaves_board_witness :
  unchanged_board start_board
    (snd (fst (generate_legal_moves start_heap start_board))).
Proof.
  destruct (generate_legal_moves start_heap start_board) as [[h' b'] [cs e]] eqn:E.
  exact (proj1 (generate_leaves_board _ _ _ _ _ _ start_in_heap E)).
Defined.

(** ** Scores *)


Lemma score_each_length (f : World -> nat -> World * result Q) :
  forall cs w w' l, score_each f w cs = (w', ok l) ->
  List.length l = List.length cs.
Proof.
  induction cs as [ | [m c] cs IH]; cbn [score_each]; intros w w' l H.
  - inversion H; reflexivity.
  - destruct (f w c) as [w1 [e | s]]; [discriminate | ].
    destruct (score_each f w1 cs) as [w2 [e | l2]] eqn:E; [discriminate | ].
    inversion H; subst. simpl. f_equal. eapply IH; eassumption.
Qed.

Lemma calculate_score_inner (fuel : nat) (w : World) (n : nat) (w' : World) (s : Q) :
  calculate_score (S fuel) w n = (w', ok s) ->
  is_checkmate (node w n) = false ->
  is_stalemate (node w n) = false ->
  children (node w n) <> [] ->
  exists w1 l,
    score_each (calculate_score fuel) w (children (node w n)) = (w1, ok l)
    /\ w' = set_score w1 n s
              (Some (sorted (Color_eqb (turn (state (board (node w n)))) BLACK) l))
    /\ s = combine_scores
             (sorted (Color_eqb (turn (state (board (node w n)))) BLACK) l) 0 0%Q.
Proof.
  cbn [calculate_score]. intros H Hm Hs Hc. rewrite Hm, Hs in H.
  destruct (children (node w n)) as [ | c cs] eqn:EC; [congruence | ].
  destruct (score_each (calculate_score fuel) w (c :: cs)) as [w1 [e | l]] eqn:E;
    [discriminate | ].
  inversion H; subst. exists w1, l. repeat split.
Qed.



Lemma same_shape_refl (x : MoveNode) : same_shape x x.
Proof. unfold same_shape. repeat split. Qed.

Lemma same_shape_trans (x y z : MoveNode) :
  same_shape x y -> same_shape y z -> same_shape x z.
Proof.
  unfold same_shape.
  intros (A1 & A2 & A3 & A4 & A5 & A6 & A7 & A8 & A9 & A10)
         (B1 & B2 & B3 & B4 & B5 & B6 & B7 & B8 & B9 & B10).
  split; [congruence | ]. split; [congruence | ]. split; [congruence | ].
  split; [congruence | ]. split; [congruence | ]. split; [congruence | ].
  split; [congruence | ]. split; [congruence | ]. split; congruence.
Qed.

Lemma same_tree_refl (w : World) : same_tree w w.
Proof.
  split; [reflexivity | split; [reflexivity | split; [reflexivity | ]]].
  intros k. apply same_shape_refl.
Qed.

Lemma same_tree_trans (w1 w2 w3 : World) :
  same_tree w1 w2 -> same_tree w2 w3 -> same_tree w1 w3.
Proof.
  intros (A1 & A2 & A3 & A4) (B1 & B2 & B3 & B4).
  split; [congruence | split; [congruence | split; [congruence | ]]].
  intros k. eapply same_shape_trans; [apply A4 | apply B4].
Qed.

Lemma set_score_same_tree (w : World) (n : nat) (s : Q)
    (o : option (list (Q * option Move))) :
  same_tree w (set_score w n s o).
Proof.
  unfold set_score.
  split; [reflexivity | split; [reflexivity | split; [apply update_node_nodes | ]]].
  intros k. destruct (Nat.eq_dec k n) as [-> | D].
  - destruct (Nat.lt_ge_cases n (List.length (nodes w))) as [L | L].
    + rewrite node_update_node by exact L. unfold same_shape. cbn. repeat split.
    + unfold node, update_node. cbn [nodes].
      rewrite (nth_overflow (nodes w)) by exact L.
      rewrite nth_overflow by (rewrite list_update_length; exact L).
      apply same_shape_refl.
  - unfold node, update_node. cbn [nodes].
    rewrite nth_list_update_other by exact D. apply same_shape_refl.
Qed.

Lemma score_each_same_tree (f : World -> nat -> World * result Q) :
  (forall w n w' r, f w n = (w', r) -> same_tree w w') ->
  forall cs w w' r, score_each f w cs = (w', r) -> same_tree w w'.
Proof.
  intros F. induction cs as [ | [m c] cs IH]; cbn [score_each]; intros w w' r H.
  - inversion H; subst. apply same_tree_refl.
  - destruct (f w c) as [w1 [e | s]] eqn:E1.
    + inversion H; subst. eapply F; eassumption.
    + destruct (score_each f w1 cs) as [w2 [e | l]] eqn:E2;
        inversion H; subst;
        (eapply same_tree_trans; [eapply F; eassumption | eapply IH; eassumption]).
Qed.

Lemma calculate_score_same_tree (fuel : nat) : forall w n w' r,
  calculate_score fuel w n = (w', r) -> same_tree w w'.
Proof.
  induction fuel as [ | fuel IH]; intros w n w' r H; cbn [calculate_score] in H.
  - inversion H; subst. apply same_tree_refl.
  - destruct (is_checkmate (node w n)).
    { inversion H; subst. apply set_score_same_tree. }
    destruct (is_stalemate (node w n)).
    { inversion H; subst. apply set_score_same_tree. }
    destruct (children (node w n)) as [ | c cs].
    { inversion H; subst. apply set_score_same_tree. }
    destruct (score_each (calculate_score fuel) w (c :: cs)) as [w1 [e | l]] eqn:E.
    + inversion H; subst. eapply score_each_same_tree; [exact IH | exact E].
    + inversion H; subst.
      eapply same_tree_trans;
        [eapply score_each_same_tree; [exact IH | exact E] | apply set_score_same_tree].
Qed.

(** X15. Scoring changes scores only: whatever [calculate_score] returns or
    raises, every node keeps its board, parent, move number, children, size,
    leaf set and flags, no node is added, and pieces and leaf sets are the
    ones from before. *)
Theorem calculate_score_keeps_tree (fuel : nat) (w : World) (n : nat)
    (w' : World) (r : result Q) :
  calculate_score fuel w n = (w', r) -> same_tree w w'.
Proof. apply calculate_score_same_tree. Qed.

Lemma calculate_score_keeps_tree_witness :
  same_tree captures_world (fst (calculate_score 2 captures_world captures_root)).
Proof.
  apply (calculate_score_keeps_tree 2 captures_world captures_root _
           (snd (calculate_score 2 captures_world captures_root))).
  destruct (calculate_score 2 captures_world captures_root). reflexivity.
Defined.

(** X16. After a node with children has been scored, the suggestions read
    off it are one per child, and the first of them is the most favourable
    one for the side to move. *)
Theorem suggestions_best_first (fuel : nat) (w : World) (e : Engine)
    (w' : World) (s : Q) :
  calculate_score (S fuel) w (root e) = (w', ok s) ->
  is_checkmate (node w (root e)) = false ->
  is_stalemate (node w (root e)) = false ->
  children (node w (root e)) <> [] ->
  most_favourable_first (turn (state (board (node w (root e)))))
    (get_all_suggestions w' e)
  /\ List.length (get_all_suggestions w' e)
     = List.length (children (node w (root e))).
Proof.
  intros H Hm Hs Hc.
  destruct (calculate_score_inner _ _ _ _ _ H Hm Hs Hc) as (w1 & l & E & Ew & _).
  pose proof (node_in_world _ _ Hc) as L.
  pose proof (score_each_same_tree _ (calculate_score_same_tree fuel) _ _ _ _ E)
    as (_ & _ & Ln & _).
  unfold get_all_suggestions. subst w'. unfold set_score.
  rewrite node_update_node by (rewrite Ln; exact L).
  cbn [sorted_child_scores]. split.
  - apply sorted_best_last.
  - rewrite length_rev.
    rewrite (Permutation_length (sorted_perm _ l)).
    eapply score_each_length; exact E.
Qed.

Lemma suggestions_best_first_witness :
  match calculate_score 2 captures_world captures_root with
  | (w', inr _) =>
      most_favourable_first WHITE
        (get_all_suggestions w' (mkEngine captures_root None None 0))
      /\ List.length (get_all_suggestions w' (mkEngine captures_root None None 0)) = 3%nat
  | (_, inl _) => False
  end.
Proof.
  destruct (calculate_score 2 captures_world captures_root) as [w' [x | s]] eqn:E.
  - vm_compute in E. discriminate.
  - apply (suggestions_best_first 1 captures_world
             (mkEngine captures_root None None 0) w' s E).
    + vm_compute. reflexivity.
    + vm_compute. reflexivity.
    + vm_compute. intros X. discriminate X.
Defined.

(** ** The loop of [build_tree] *)

Lemma below_ceiling (q : Q) (d : Z) :
  (Qceiling q <= d)%Z -> below d (Some q) = false.
Proof.
  intros H. unfold below. apply negb_false_iff, Qle_bool_iff.
  eapply Qle_trans; [apply Qle_ceiling | ].
  rewrite <- Zle_Qle. exact H.
Qed.

Lemma build_tree_depth_bound (q : Q) (fuel : nat) :
  forall (extra : nat) (w : World) (e : Engine),
  max_depth e = Some q ->
  (Qceiling q - depth e <= Z.of_nat fuel)%Z ->
  build_tree (fuel + extra) w e = build_tree fuel w e.
Proof.
  induction fuel as [ | fuel IH]; intros extra w e M B.
  - assert (C : below (depth e) (max_depth e) = false)
      by (rewrite M; apply below_ceiling; lia).
    destruct extra as [ | extra]; [reflexivity | ].
    cbn [build_tree Nat.add]. rewrite C. reflexivity.
  - cbn [build_tree Nat.add].
    destruct (below (depth e) (max_depth e)
              && below (size (node w (root e))) (max_breadth e)); [ | reflexivity].
    destruct (expand_leaves w (leaves w (leaf_nodes (node w (root e)))))
      as [w1 [x | u]]; [reflexivity | ].
    apply IH; cbn [max_depth depth]; [exact M | lia].
Qed.

(** X17. With a finite [max_depth] the loop of [build_tree] makes at most
    ceil(max_depth) - depth rounds: the outcome after that many rounds is
    the outcome of the call, however many more rounds the loop is given. *)
Theorem build_tree_ends_by_depth (w : World) (e : Engine) (q : Q) (extra : nat) :
  max_depth e = Some q ->
  build_tree (Z.to_nat (Qceiling q - depth e) + extra) w e
  = build_tree (Z.to_nat (Qceiling q - depth e)) w e.
Proof. intros M. apply (build_tree_depth_bound q); [exact M | lia]. Qed.

Lemma build_tree_ends_by_depth_witness :
  match captures_engine (Some 1%Q) None with
  | (w, inr e) => build_tree (1 + 3) w e = build_tree 1 w e
  | (_, inl _) => False
  end.
Proof.
  destruct (captures_engine (Some 1%Q) None) as [w [x | e]] eqn:E;
    vm_compute in E; [discriminate | ].
  inversion E; subst; clear E.
  match goal with
  | |- build_tree _ ?w ?e = _ => exact (build_tree_ends_by_depth w e 1%Q 3 eq_refl)
  end.
Defined.

Lemma build_tree_result (fuel : nat) :
  forall (w : World) (e : Engine) (w' : World) (e' : Engine),
  build_tree fuel w e = (w', e', ok tt) ->
  below (depth e') (max_depth e')
  && below (size (node w' (root e'))) (max_breadth e') = false
  /\ root e' = root e /\ max_depth e' = max_depth e
  /\ max_breadth e' = max_breadth e
  /\ (depth e <= depth e' <= depth e + Z.of_nat fuel)%Z.
Proof.
  induction fuel as [ | fuel IH]; intros w e w' e' H; cbn [build_tree] in H;
    destruct (below (depth e) (max_depth e)
              && below (size (node w (root e))) (max_breadth e)) eqn:C.
  - discriminate.
  - destruct (calculate_score (score_fuel w) w (root e)) as [w1 [x | s]] eqn:S;
      [discriminate | ].
    inversion H; subst.
    destruct (calculate_score_same_tree _ _ _ _ _ S) as (_ & _ & _ & K).
    destruct (K (root e')) as (_ & _ & _ & _ & Sz & _). rewrite Sz.
    split; [exact C | ]. repeat split; lia.
  - destruct (expand_leaves w (leaves w (leaf_nodes (node w (root e)))))
      as [w1 [x | u]]; [discriminate | ].
    destruct (IH _ _ _ _ H) as (A & R & M & B & D). cbn [root max_depth max_breadth depth] in *.
    split; [exact A | ]. repeat split; try assumption; lia.
  - destruct (calculate_score (score_fuel w) w (root e)) as [w1 [x | s]] eqn:S;
      [discriminate | ].
    inversion H; subst.
    destruct (calculate_score_same_tree _ _ _ _ _ S) as (_ & _ & _ & K).
    destruct (K (root e')) as (_ & _ & _ & _ & Sz & _). rewrite Sz.
    split; [exact C | ]. repeat split; lia.
Qed.

(** X18. When [build_tree] returns, a budget is used up: the depth has
    reached [max_depth] or the size of the root has reached [max_breadth].
    The root and the two limits are the ones from before, and the depth has
    not gone down. *)
Theorem build_tree_uses_budget (fuel : nat) (w : World) (e : Engine)
    (w' : World) (e' : Engine) :
  build_tree fuel w e = (w', e', ok tt) ->
  (below (depth e') (max_depth e') = false
   \/ below (size (node w' (root e'))) (max_breadth e') = false)
  /\ root e' = root e /\ max_depth e' = max_depth e
  /\ max_breadth e' = max_breadth e /\ (depth e <= depth e')%Z.
Proof.
  intros H. destruct (build_tree_result _ _ _ _ _ H) as (A & R & M & B & D).
  split; [apply andb_false_iff; exact A | ].
  repeat split; try assumption; lia.
Qed.

Lemma build_tree_uses_budget_witness :
  match captures_engine (Some 1%Q) None with
  | (w, inr e) =>
      match build_tree 1 w e with
      | (w', e', inr _) =>
          below (depth e') (max_depth e') = false
          \/ below (size (node w' (root e'))) (max_breadth e') = false
      | (_, _, inl _) => False
      end
  | (_, inl _) => False
  end.
Proof.
  destruct (captures_engine (Some 1%Q) None) as [w [x | e]] eqn:E;
    vm_compute in E; [discriminate | ].
  inversion E; subst; clear E.
  match goal with
  | |- match build_tree 1 ?w ?e with _ => _ end =>
      destruct (build_tree 1 w e) as [[w' e'] [x | []]] eqn:T
  end.
  - vm_compute in T. discriminate.
  - apply (build_tree_uses_budget _ _ _ _ _ T).
Defined.

(** ** A root without legal moves *)

Lemma prepare_children_no_moves (w : World) (n : nat) (h2 : Heap) (b2 : Board) :
  (n < List.length (nodes w))%nat ->
  parent (node w n) = None ->
  generate_legal_moves (pieces w) (board (node w n)) = (h2, b2, ([], None)) ->
  exists w',
    prepare_children w n = (w', ok tt)
    /\ pieces w' = h2
    /\ board (node w' n) = b2
    /\ is_checkmate (node w' n) = in_check b2
    /\ is_stalemate (node w' n) = negb (in_check b2)
    /\ children (node w' n) = []
    /\ size (node w' n) = 1
    /\ leaves w' (leaf_nodes (node w' n)) = [n].
Proof.
  destruct w as [ps ns ss]. cbn [nodes pieces]. intros L Pa G.
  destruct (nth_split ns dangling_node L) as (l1 & l2 & N & Ln).
  unfold node in Pa, G. cbn [nodes] in Pa, G.
  set (x := nth n ns dangling_node) in *. clearbody x. subst ns n.
  unfold prepare_children, _reset_children, new_set, update_node, with_pieces, node.
  cbn [pieces nodes sets].
  rewrite !list_update_middle, !nth_middle. cbn [board].
  rewrite G.
  cbn [add_children nodes pieces sets].
  rewrite !list_update_middle, !nth_middle.
  unfold ok, update_set.
  cbn [children leaf_nodes nodes sets pieces parent move_number size _child_sizes
       score sorted_child_scores _child_leaves is_checkmate is_stalemate board].
  rewrite (list_update_middle ss [] [] (set_add Nat.eqb (List.length l1))).
  rewrite !list_update_middle.
  unfold notify_parent, node. cbn [nodes]. rewrite !nth_middle. cbn [parent].
  rewrite Pa.
  cbn [children leaf_nodes nodes sets pieces parent move_number size _child_sizes
       score sorted_child_scores _child_leaves is_checkmate is_stalemate board].
  eexists. split; [reflexivity | ].
  cbn [pieces nodes sets]. rewrite !nth_middle.
  cbn [board is_checkmate is_stalemate children size leaf_nodes].
  split; [reflexivity | ]. split; [reflexivity | ].
  split; [destruct (in_check b2); reflexivity | ].
  split; [destruct (in_check b2); reflexivity | ].
  split; [reflexivity | ]. split; [reflexivity | ].
  unfold leaves. cbn [sets]. apply nth_middle.
Qed.

(** X19. Expanding a root whose position yields no legal move gives a
    terminal node: it is flagged as checkmate when its side is in check and
    as stalemate otherwise, never both; it has no children, size 1, and is
    its own only leaf. *)
Theorem no_moves_is_terminal (w : World) (n : nat) (h2 : Heap) (b2 : Board) :
  (n < List.length (nodes w))%nat ->
  parent (node w n) = None ->
  generate_legal_moves (pieces w) (board (node w n)) = (h2, b2, ([], None)) ->
  exists w',
    prepare_children w n = (w', ok tt)
    /\ is_checkmate (node w' n) = in_check b2
    /\ is_stalemate (node w' n) = negb (in_check b2)
    /\ children (node w' n) = []
    /\ size (node w' n) = 1
    /\ leaves w' (leaf_nodes (node w' n)) = [n].
Proof.
  intros L Pa G.
  destruct (prepare_children_no_moves w n h2 b2 L Pa G)
    as (w' & E & _ & _ & M & S & C & Z & Lv).
  exists w'. repeat split; assumption.
Qed.

Lemma no_moves_is_terminal_witness :
  exists w',
    prepare_children (fst (mate_engine (Some 1%Q) None)) 0 = (w', ok tt)
    /\ is_checkmate (node w' 0) = true
    /\ is_stalemate (node w' 0) = false.
Proof.
  destruct (no_moves_is_terminal (fst (mate_engine (Some 1%Q) None)) 0
              mated_heap mated_board) as (w' & E & M & S & _).
  - vm_compute. apply le_n.
  - vm_compute. reflexivity.
  - vm_compute. reflexivity.
  - exists w'. split; [exact E | ].
    rewrite M, S. vm_compute. split; reflexivity.
Defined.

(** ** Queries of the game *)

Lemma suggest_loop_firstn (l : list (Q * option Move)) :
  forall (index moves : Z) (result : list (Q * option Move)),
  (0 <= index)%Z ->
  suggest_loop l index moves result
  = result ++ firstn (Z.to_nat (moves - index)) l.
Proof.
  induction l as [ | x l IH]; intros index moves result I; cbn [suggest_loop].
  - now rewrite firstn_nil, app_nil_r.
  - destruct (index >=? moves) eqn:C.
    + apply Z.geb_le in C.
      replace (Z.to_nat (moves - index)) with O by lia.
      now rewrite app_nil_r.
    + rewrite Z.geb_leb in C. apply Z.leb_gt in C.
      rewrite IH by lia.
      replace (Z.to_nat (moves - index)) with (S (Z.to_nat (moves - (index + 1))))
        by lia.
      cbn [firstn]. now rewrite <- app_assoc.
Qed.

(** X20. [suggest_moves(k)] is the first k suggestions in the order of
    [get_all_moves]: all of them when there are fewer than k, none when k is
    zero or negative. *)
Theorem suggest_moves_firstn (w : World) (g : Game) (moves : Z) :
  suggest_moves w g moves = firstn (Z.to_nat moves) (get_all_moves w g)
  /\ (List.length (suggest_moves w g moves)
      = Nat.min (Z.to_nat moves) (List.length (get_all_moves w g)))
  /\ ((moves <= 0)%Z -> suggest_moves w g moves = []).
Proof.
  assert (E : suggest_moves w g moves
              = firstn (Z.to_nat moves) (get_all_moves w g)).
  { unfold suggest_moves, get_all_moves.
    rewrite suggest_loop_firstn by lia. cbn [app]. now rewrite Z.sub_0_r. }
  split; [exact E | split].
  - rewrite E. apply length_firstn.
  - intros N. rewrite E. replace (Z.to_nat moves) with O by lia. reflexivity.
Qed.

Lemma get_position_alias (s : Square) :
  is_valid s = true ->
  get_position (mkSquare (col s - 8) (row s - 8)) = get_position s.
Proof.
  intros H. apply valid_squares in H. destruct s as [c r].
  cbn [col row] in *. destruct H as [Hc Hr]. simpl in Hc, Hr.
  repeat (destruct Hc as [Hc | Hc]; [ | ]); try contradiction; subst c;
    repeat (destruct Hr as [Hr | Hr]; [ | ]); try contradiction; subst r;
    reflexivity.
Qed.

Lemma dict_get_same_position {V} (a s : Square) (d : list (Square * V)) :
  get_position a = get_position s ->
  dict_get Square_eqb a d = dict_get Square_eqb s d.
Proof.
  intros E. induction d as [ | [k v] d IH]; cbn [dict_get]; [reflexivity | ].
  unfold Square_eqb at 1 3. rewrite E, IH. reflexivity.
Qed.

(** X21. [piece_at] catches [KeyError] only.  It raises, and then
    [IndexError], exactly for a square with a coordinate outside -8..7; for
    every other square it returns, [None] included.  The coordinates -8..-1
    are read as 0..7: asked for [Square(c - 8, r - 8)], it answers for the
    square [(c, r)] of the board. *)
Theorem piece_at_edges (w : World) (g : Game) (s : Square) :
  (forall e, piece_at w g s = raise e
             <-> e = IndexError /\ ~ (-8 <= col s < 8 /\ -8 <= row s < 8))
  /\ (-8 <= col s < 8 /\ -8 <= row s < 8 -> exists p, piece_at w g s = ok p)
  /\ (is_valid s = true ->
      piece_at w g (mkSquare (col s - 8) (row s - 8)) = piece_at w g s).
Proof.
  split; [ | split].
  - intros e. unfold piece_at.
    destruct (hash_square s) as [x | []] eqn:H.
    + pose proof (hash_square_raises _ _ H) as X. subst x. split.
      * intros E. inversion E; subst. split; [reflexivity | ].
        intros R. apply hash_square_range in R. rewrite R in H. discriminate H.
      * intros [-> _]. reflexivity.
    + split.
      * destruct (dict_get Square_eqb s _); discriminate.
      * intros [_ R]. exfalso. apply R, hash_square_range, H.
  - intros R. apply hash_square_range in R. unfold piece_at. rewrite R.
    destruct (dict_get Square_eqb s _); eexists; reflexivity.
  - intros V. pose proof (get_position_alias s V) as E.
    unfold piece_at, hash_square. rewrite E.
    now rewrite (dict_get_same_position _ s _ E).
Qed.

Lemma piece_at_edges_witness :
  piece_at captures_world captures_game (mkSquare (-1) (-8))
  = piece_at captures_world captures_game (sq "h1")
  /\ piece_at captures_world captures_game (sq "h1") = ok (Some (King WHITE)).
Proof.
  split.
  - exact (proj2 (proj2 (piece_at_edges captures_world captures_game (mkSquare 7 0)))
             eq_refl).
  - vm_compute. reflexivity.
Defined.

(** ** Rebuilding the indexes *)

(** X22. [rebuild] recomputes caches only.  Whether it returns or raises, no
    piece object is created or lost and each keeps its identity, piece and
    square; when it returns, the placement, the material, the side to move,
    the last move and the king squares of the board are the ones from
    before. *)
Theorem rebuild_keeps_position (h : Heap) (b : Board) (h' : Heap) (r : result Board) :
  rebuild h b = (h', r) ->
  keeps_pieces h h' /\ List.length h' = List.length h
  /\ match r with
     | inr b' =>
         _position b' = _position b
         /\ material (state b') = material (state b)
         /\ turn (state b') = turn (state b)
         /\ last_move (state b') = last_move (state b)
         /\ king_squares (state b') = king_squares (state b)
     | inl _ => True
     end.
Proof.
  unfold rebuild. intros H.
  destruct (prepare_all_keeps _ _ _ _ _ _ H) as [K L].
  split; [exact K | split; [exact L | ]].
  destruct r as [e | b']; [exact I | ].
  destruct (prepare_all_frame _ _ _ _ _ _ H) as [(P & M & T & _) _].
  split; [exact P | split; [exact M | split; [exact T | split]]].
  - apply (prepare_all_field last_move
             (fun s c cv => proj1 (proj2 (proj2 (proj2 (set_check_vectors_fields s c cv)))))
             _ _ _ _ _ _ H).
  - apply (prepare_all_field king_squares
             (fun s c cv => proj2 (proj2 (proj2 (proj2 (set_check_vectors_fields s c cv)))))
             _ _ _ _ _ _ H).
Qed.

Lemma rebuild_keeps_position_witness :
  match rebuild starting_heap starting_board_raw with
  | (h', inr b') =>
      keeps_pieces starting_heap h' /\ _position b' = _position starting_board_raw
  | (_, inl _) => False
  end.
Proof.
  destruct (rebuild starting_heap starting_board_raw) as [h' [e | b']] eqn:E.
  - vm_compute in E. discriminate.
  - destruct (rebuild_keeps_position _ _ _ _ E) as (K & _ & P & _).
    split; [exact K | exact P].
Defined.

(** ** The moves of the yielded boards are keys *)

Lemma make_move_hashable h b m h' b' :
  make_move h b m = (h', inr b') -> hash_move m = ok tt.
Proof.
  unfold make_move, deepcopy, hash_move. intros H.
  destruct (hash_square (start m)) as [x | []]; [inversion H | ].
  destruct (dict_get Square_eqb (start m) (_position b)) as [old | ]; [ | inversion H].
  destruct (dict_del PRef_eqb _ (_available_moves b)) as [av | ]; [ | inversion H].
  cbv zeta in H.
  destruct (negb (Color_eqb _ _)); [inversion H | ].
  match type of H with
  | context [capture ?hh ?bb m] =>
      destruct (capture hh bb m) as [e | b1] eqn:EC; [inversion H | ]
  end.
  unfold capture in EC.
  destruct (hash_square (end_ m)) as [x | []]; [discriminate | reflexivity].
Qed.

Lemma make_child_keyed h b m h' c :
  make_child h b m = (h', ok c) ->
  last_move (state c) = Some m /\ hash_move m = ok tt.
Proof.
  intros H. apply make_child_inv in H. destruct H as (kings & _ & H). split.
  - pose proof (make_move_field last_move
                  (fun s c cv =>
                     proj1 (proj2 (proj2 (proj2 (set_check_vectors_fields s c cv)))))
                  (fun s d => eq_refl) (fun s => eq_refl) _ _ _ _ _ H) as FL.
    cbn [state] in FL. rewrite FL.
    apply (BoardState_init_rest (Some m)).
  - eapply make_move_hashable; exact H.
Qed.

Lemma yield_moves_keyed (printed : bool) (p : PRef) (keep : Square -> bool)
    (b : Board) :
  forall squares h h' cs e,
  yield_moves printed p squares keep h b = (h', (cs, e)) -> Forall keyed cs.
Proof.
  induction squares as [ | s rest IH]; cbn [yield_moves]; intros h h' cs e H.
  - inversion H; subst. constructor.
  - destruct (keep s); [ | eapply IH; eassumption].
    destruct (make_child h b (mkMove (square (deref h p)) s)) as [h1 [x | c]] eqn:E.
    + destruct x; try (inversion H; subst; constructor).
      eapply IH; eassumption.
    + destruct (yield_moves printed p rest keep h1 b) as [h2 [cs2 e2]] eqn:E2.
      inversion H; subst. constructor; [ | eapply IH; eassumption].
      eexists. eapply make_child_keyed; exact E.
Qed.

Lemma yield_pieces_keyed (b : Board) :
  forall items h h' cs e,
  yield_pieces items h b = (h', (cs, e)) -> Forall keyed cs.
Proof.
  induction items as [ | [p squares] rest IH]; cbn [yield_pieces];
    intros h h' cs e H.
  - inversion H; subst. constructor.
  - destruct (yield_moves true p squares (fun _ => true) h b)
      as [h1 [cs1 e1]] eqn:E1.
    apply yield_moves_keyed in E1.
    destruct e1 as [x | ].
    + inversion H; subst. exact E1.
    + destruct (yield_pieces rest h1 b) as [h2 [cs2 e2]] eqn:E2.
      inversion H; subst. apply Forall_app. split; [exact E1 | ].
      eapply IH; eassumption.
Qed.

Lemma yield_blockers_keyed (blocking : list Square) :
  forall ps h b h' b' cs e,
  yield_blockers ps blocking h b = (h', b', (cs, e)) -> Forall keyed cs.
Proof.
  induction ps as [ | p rest IH]; cbn [yield_blockers]; intros h b h' b' cs e H.
  - inversion H; subst. constructor.
  - match type of H with
    | context [yield_moves false p ?sq ?kp h ?bb] =>
        destruct (yield_moves false p sq kp h bb) as [h1 [cs1 e1]] eqn:E1
    end.
    apply yield_moves_keyed in E1.
    destruct e1 as [x | ].
    + inversion H; subst. exact E1.
    + match type of H with
      | context [yield_blockers rest blocking h1 ?bb] =>
          destruct (yield_blockers rest blocking h1 bb) as [[h2 b2] [cs2 e2]] eqn:E2
      end.
      inversion H; subst. apply Forall_app. split; [exact E1 | ].
      eapply IH; eassumption.
Qed.

Lemma generate_keyed (h : Heap) (b : Board) h' b' cs e :
  generate_legal_moves h b = (h', b', (cs, e)) -> Forall keyed cs.
Proof.
  unfold generate_legal_moves. destruct (in_check b).
  - unfold _generate_legal_moves_from_check.
    destruct (hash_square _); [intros H; inversion H; constructor | ].
    destruct (dict_get Square_eqb _ (_position b)) as [king | ];
      [ | intros H; inversion H; constructor].
    match goal with
    | |- context [yield_moves false king ?sq ?kp h ?bb] =>
        destruct (yield_moves false king sq kp h bb) as [h1 [cs1 e1]] eqn:E1
    end.
    apply yield_moves_keyed in E1.
    destruct e1 as [x | ]; [intros H; inversion H; subst; exact E1 | ].
    destruct (blocking_squares _) as [x | blocking];
      [intros H; inversion H; subst; exact E1 | ].
    destruct (blocking_pieces h1 _ _ _ []) as [rel ps].
    match goal with
    | |- context [yield_blockers ps blocking h1 ?bb] =>
        destruct (yield_blockers ps blocking h1 bb) as [[h2 b3] [cs2 e2]] eqn:E2
    end.
    intros H; inversion H; subst. apply Forall_app. split; [exact E1 | ].
    eapply yield_blockers_keyed; exact E2.
  - destruct (yield_pieces _ h b) as [h1 [cs1 e1]] eqn:E.
    intros H; inversion H; subst. eapply yield_pieces_keyed; exact E.
Qed.

(** ** Expanding a root that has moves *)

Lemma filter_all {A} (f : A -> bool) (l : list A) :
  (forall x, f x = true) -> filter f l = l.
Proof.
  intros F. induction l as [ | x l IH]; simpl; [reflexivity | ].
  now rewrite F, IH.
Qed.

Lemma list_update_middle_app {A} (l : list A) (x : A) (t u : list A) (f : A -> A) :
  list_update ((l ++ x :: t) ++ u) (List.length l) f = l ++ f x :: t ++ u.
Proof. rewrite <- app_assoc, <- app_comm_cons. apply list_update_middle. Qed.

Lemma nth_middle_app {A} (l : list A) (x : A) (t u : list A) (d : A) :
  nth (List.length l) ((l ++ x :: t) ++ u) d = x.
Proof. rewrite <- app_assoc, <- app_comm_cons. apply nth_middle. Qed.

Lemma nth_after_shape {A} (l : list A) (x y c : A) (t u : list A) (d : A) :
  nth (List.length (l ++ x :: t)) (l ++ y :: t ++ c :: u) d = c.
Proof.
  replace (List.length (l ++ x :: t)) with (List.length (l ++ y :: t))
    by (rewrite !length_app; reflexivity).
  rewrite app_comm_cons, app_assoc. apply nth_middle.
Qed.

Lemma set_add_nil {A} (eqb : A -> A -> bool) (x : A) : set_add eqb x [] = [x].
Proof. reflexivity. Qed.

Ltac proj_node :=
  cbn [board parent move_number children size _child_sizes score
       sorted_child_scores leaf_nodes _child_leaves is_checkmate is_stalemate
       pieces nodes sets].

Lemma MoveNode_init_child (ps : Heap) (l1 : list MoveNode) (x : MoveNode)
    (l2 : list MoveNode) (s1 : list (list nat)) (L : list nat)
    (s2 : list (list nat)) (b : Board) (m : Move) :
  parent x = None ->
  leaf_nodes x = List.length s1 ->
  last_move (state b) = Some m ->
  hash_move m = ok tt ->
  dict_get Move_eqb m (_child_sizes x) = None ->
  dict_get Move_eqb m (_child_leaves x) = None ->
  MoveNode_init (mkWorld ps (l1 ++ x :: l2) (s1 ++ L :: s2)) b (Some (List.length l1))
  = (mkWorld ps
       (l1 ++ mkNode (board x) (parent x) (move_number x) (children x)
                (size x - 0 + 1) (dict_set Move_eqb m 1 (_child_sizes x))
                (score x) (sorted_child_scores x) (leaf_nodes x)
                (dict_set Move_eqb m (List.length (s1 ++ L :: s2))
                   (dict_set Move_eqb m (S (List.length (s1 ++ L :: s2)))
                      (_child_leaves x)))
                (is_checkmate x) (is_stalemate x)
           :: l2 ++ [child_node b (List.length l1) (move_number x + 1)
                       (List.length (s1 ++ L :: s2))])
       (s1 ++ set_add Nat.eqb (List.length (l1 ++ x :: l2)) L
           :: s2 ++ [[List.length (l1 ++ x :: l2)]; []]),
     ok (List.length (l1 ++ x :: l2))).
Proof.
  intros Pa Lf Lm Hm Cs Cl.
  unfold MoveNode_init, _reset_children, new_set, update_node, update_set, node.
  proj_node.
  rewrite !nth_middle.
  rewrite !(list_update_middle (l1 ++ x :: l2)).
  rewrite !(nth_middle (l1 ++ x :: l2)).
  proj_node.
  rewrite !(list_update_middle (s1 ++ L :: s2)).
  unfold notify_parent, node. proj_node.
  rewrite !(nth_middle (l1 ++ x :: l2)). proj_node.
  unfold chain_fuel. proj_node.
  cbn [update_child_size].
  unfold child_key, node. proj_node.
  rewrite !(nth_middle (l1 ++ x :: l2)). proj_node.
  rewrite Lm, Hm. unfold ok, raise, update_node. cbv beta iota. proj_node.
  rewrite !nth_middle_app. rewrite Cs.
  rewrite !list_update_middle_app, !nth_middle. proj_node. rewrite Pa.
  rewrite set_add_nil.
  cbn [update_child_leaves].
  unfold child_key, node, new_set, update_node, update_set, leaves. proj_node.
  rewrite !nth_after_shape. proj_node. rewrite Lm, Hm.
  unfold ok, raise. cbv beta iota. proj_node.
  rewrite !nth_middle. proj_node. rewrite Cl. proj_node.
  rewrite !list_update_middle, !nth_middle. proj_node.
  rewrite !nth_after_shape. proj_node. rewrite Lf.
  rewrite <- !app_assoc. cbn [app].
  rewrite !list_update_middle, !nth_after_shape.
  rewrite filter_all by reflexivity. cbn [fold_left].
  unfold child_node.
  replace (List.length (s1 ++ L :: s2 ++ [[List.length (l1 ++ x :: l2)]]))
    with (S (List.length (s1 ++ L :: s2)))
    by (rewrite !length_app; cbn [List.length]; rewrite length_app;
        cbn [List.length]; lia).
  reflexivity.
Qed.

Lemma dict_get_set_none {K V} (eqb : K -> K -> bool) (k k1 : K) (v : V)
    (d : list (K * V)) :
  dict_get eqb k d = None -> eqb k k1 = false ->
  dict_get eqb k (dict_set eqb k1 v d) = None.
Proof.
  intros G E. induction d as [ | [k' v'] d IH]; cbn [dict_set dict_get] in *.
  - now rewrite E.
  - destruct (eqb k k') eqn:Ek; [discriminate | ].
    destruct (eqb k1 k'); cbn [dict_get]; rewrite Ek; [exact G | exact (IH G)].
Qed.

Lemma add_children_root :
  forall (bs : list Board) (ms : list Move),
  map (fun b => last_move (state b)) bs = map Some ms ->
  forall (ps : Heap) (l1 : list MoveNode) (x : MoveNode) (l2 : list MoveNode)
         (s1 : list (list nat)) (L : list nat) (s2 : list (list nat))
         (c0 sa0 : nat),
  c0 = List.length (l1 ++ x :: l2) ->
  sa0 = List.length (s1 ++ L :: s2) ->
  parent x = None ->
  leaf_nodes x = List.length s1 ->
  Forall (fun m => dict_get Move_eqb m (_child_sizes x) = None
                   /\ dict_get Move_eqb m (_child_leaves x) = None) ms ->
  Forall (fun m => hash_move m = ok tt) ms ->
  distinct_keys ms ->
  add_children (mkWorld ps (l1 ++ x :: l2) (s1 ++ L :: s2)) (List.length l1) bs
  = (mkWorld ps
       (l1 ++ adopt_all x c0 sa0 ms
           :: l2 ++ kids (List.length l1) (move_number x + 1) sa0 bs)
       (s1 ++ fold_left (fun s c => set_add Nat.eqb c s) (seq c0 (List.length bs)) L
           :: s2 ++ kid_sets c0 bs),
     ok tt).
Proof.
  induction bs as [ | b bs IH]; intros [ | m ms] M; try discriminate M;
    intros ps l1 x l2 s1 L s2 c0 sa0 Ec Es Pa Lf Fr Hs D.
  - cbn [add_children adopt_all kids kid_sets List.length seq fold_left].
    now rewrite !app_nil_r.
  - cbn [map] in M. injection M as Lm M.
    inversion Fr as [ | m0 ms0 [Cs Cl] Fr']; subst m0 ms0.
    inversion Hs as [ | m0 ms0 Hm Hs']; subst m0 ms0.
    destruct D as [Dm D].
    cbn [add_children].
    rewrite (MoveNode_init_child ps l1 x l2 s1 L s2 b m Pa Lf Lm Hm Cs Cl).
    unfold ok at 1. cbv beta iota. rewrite Lm.
    unfold update_node, node. proj_node.
    rewrite list_update_middle. proj_node.
    rewrite <- Ec, <- Es.
    change (mkNode (board x) (parent x) (move_number x)
              (dict_set Move_eqb m c0 (children x)) (size x - 0 + 1)
              (dict_set Move_eqb m 1 (_child_sizes x)) (score x)
              (sorted_child_scores x) (leaf_nodes x)
              (dict_set Move_eqb m sa0
                 (dict_set Move_eqb m (S sa0) (_child_leaves x)))
              (is_checkmate x) (is_stalemate x))
      with (adopt x m c0 sa0).
    rewrite (IH ms M ps l1 (adopt x m c0 sa0)
               (l2 ++ [child_node b (List.length l1) (move_number x + 1) sa0])
               s1 (set_add Nat.eqb c0 L) (s2 ++ [[c0]; []]) (S c0) (S (S sa0))).
    + cbn [adopt_all kids kid_sets List.length seq fold_left move_number adopt].
      rewrite <- !app_assoc. reflexivity.
    + subst c0. rewrite !length_app. cbn [List.length].
      rewrite length_app. cbn [List.length]. lia.
    + subst sa0. rewrite !length_app. cbn [List.length].
      rewrite length_app. cbn [List.length]. lia.
    + exact Pa.
    + exact Lf.
    + rewrite Forall_forall in *. intros m' I. destruct (Fr' m' I) as [A B].
      cbn [adopt _child_sizes _child_leaves]. split.
      * apply dict_get_set_none; [exact A | exact (Dm m' I)].
      * apply dict_get_set_none; [ | exact (Dm m' I)].
        apply dict_get_set_none; [exact B | exact (Dm m' I)].
    + exact Hs'.
    + exact D.
Qed.

Lemma adopt_all_fields (ms : list Move) : forall (x : MoveNode) (c s : nat),
  board (adopt_all x c s ms) = board x
  /\ parent (adopt_all x c s ms) = parent x
  /\ move_number (adopt_all x c s ms) = move_number x
  /\ leaf_nodes (adopt_all x c s ms) = leaf_nodes x
  /\ is_checkmate (adopt_all x c s ms) = is_checkmate x
  /\ is_stalemate (adopt_all x c s ms) = is_stalemate x
  /\ size (adopt_all x c s ms) = size x + Z.of_nat (List.length ms).
Proof.
  induction ms as [ | m ms IH]; intros x c s; cbn [adopt_all List.length].
  - repeat split. lia.
  - destruct (IH (adopt x m c s) (S c) (S (S s))) as (A & B & C & D & E & F & G).
    cbn [adopt board parent move_number leaf_nodes is_checkmate is_stalemate size] in *.
    repeat split; try assumption. lia.
Qed.

Lemma dict_set_fresh {K V} (eqb : K -> K -> bool) (k : K) (v : V)
    (d : list (K * V)) :
  dict_get eqb k d = None -> dict_set eqb k v d = d ++ [(k, v)].
Proof.
  induction d as [ | [k' v'] d IH]; cbn [dict_get dict_set app]; [reflexivity | ].
  destruct (eqb k k'); [discriminate | ]. intros G. now rewrite IH.
Qed.

Lemma adopt_all_children (ms : list Move) : forall (x : MoveNode) (c s : nat),
  Forall (fun m => dict_get Move_eqb m (children x) = None) ms ->
  distinct_keys ms ->
  children (adopt_all x c s ms)
  = children x ++ combine ms (seq c (List.length ms)).
Proof.
  induction ms as [ | m ms IH]; intros x c s Fr D;
    cbn [adopt_all List.length seq combine].
  - now rewrite app_nil_r.
  - inversion Fr as [ | m0 ms0 Cm Fr']; subst m0 ms0. destruct D as [Dm D].
    rewrite IH; [ | | exact D].
    + cbn [adopt children]. rewrite (dict_set_fresh _ _ _ _ Cm).
      now rewrite <- app_assoc.
    + rewrite Forall_forall in *. intros m' I. cbn [adopt children].
      apply dict_get_set_none; [exact (Fr' m' I) | exact (Dm m' I)].
Qed.

Lemma nth_kids (n : nat) (number : Z) (bs : list Board) :
  forall (i : nat) (b : Board) (s : nat),
  nth_error bs i = Some b ->
  nth i (kids n number s bs) dangling_node = child_node b n number (s + 2 * i).
Proof.
  induction bs as [ | b0 bs IH]; intros [ | i] b s E; cbn [nth_error] in E;
    try discriminate E; cbn [kids nth].
  - inversion E; subst. f_equal. lia.
  - rewrite (IH i b (S (S s)) E). f_equal. lia.
Qed.

Lemma nth_kid_sets (bs : list Board) :
  forall (i : nat) (b : Board) (c : nat),
  nth_error bs i = Some b ->
  nth (2 * i) (kid_sets c bs) [] = [(c + i)%nat].
Proof.
  induction bs as [ | b0 bs IH]; intros [ | i] b c E; cbn [nth_error] in E;
    try discriminate E.
  - cbn. now rewrite Nat.add_0_r.
  - replace (2 * S i)%nat with (S (S (2 * i))) by lia.
    cbn [kid_sets nth]. rewrite (IH i b (S c) E). f_equal. lia.
Qed.

Lemma set_mem_seq (c c0 i : nat) :
  (c0 + i <= c)%nat -> set_mem Nat.eqb c (seq c0 i) = false.
Proof.
  revert c0. induction i as [ | i IH]; intros c0 H; cbn [seq set_mem];
    [reflexivity | ].
  rewrite IH by lia.
  destruct (Nat.eqb_spec c c0); [lia | reflexivity].
Qed.

Lemma fold_set_add_seq (c0 : nat) (j : nat) : forall (i : nat),
  fold_left (fun s c => set_add Nat.eqb c s) (seq (c0 + i) j) (seq c0 i)
  = seq c0 (i + j).
Proof.
  induction j as [ | j IH]; intros i; cbn [seq fold_left].
  - now rewrite Nat.add_0_r.
  - unfold set_add at 2. rewrite set_mem_seq by lia.
    rewrite <- seq_S.
    replace (S (c0 + i)) with (c0 + S i)%nat by lia.
    rewrite IH. f_equal. lia.
Qed.

Lemma prepare_children_moves (w : World) (n : nat) (h2 : Heap) (b2 : Board)
    (bs : list Board) (ms : list Move) :
  (n < List.length (nodes w))%nat ->
  parent (node w n) = None ->
  generate_legal_moves (pieces w) (board (node w n)) = (h2, b2, (bs, None)) ->
  map (fun b => last_move (state b)) bs = map Some ms ->
  distinct_keys ms ->
  bs <> [] ->
  exists w',
    prepare_children w n = (w', ok tt)
    /\ List.length (nodes w') = (List.length (nodes w) + List.length bs)%nat
    /\ size (node w' n) = 1 + Z.of_nat (List.length bs)
    /\ children (node w' n)
       = combine ms (seq (List.length (nodes w)) (List.length bs))
    /\ leaves w' (leaf_nodes (node w' n))
       = seq (List.length (nodes w)) (List.length bs)
    /\ is_checkmate (node w' n) = false
    /\ is_stalemate (node w' n) = false
    /\ forall i b, nth_error bs i = Some b ->
         node w' (List.length (nodes w) + i)
         = child_node b n (move_number (node w n) + 1)
             (leaf_nodes (node w' (List.length (nodes w) + i)))
         /\ leaves w' (leaf_nodes (node w' (List.length (nodes w) + i)))
            = [(List.length (nodes w) + i)%nat].
Proof.
  destruct w as [ps ns ss]. cbn [nodes pieces]. intros Ln Pa G M D NE.
  destruct (nth_split ns dangling_node Ln) as (l1 & l2 & N & El).
  unfold node in Pa, G. cbn [nodes] in Pa, G.
  unfold node at 5. cbn [nodes].
  set (x := nth n ns dangling_node) in *. clearbody x. subst ns n.
  assert (Lms : List.length ms = List.length bs).
  { apply (f_equal (@List.length _)) in M. rewrite !length_map in M. lia. }
  set (x1 := mkNode b2 (parent x) (move_number x) [] 1 []
               (inject_Z (material (state (board x)))) [] (List.length ss) []
               false false).
  pose proof (add_children_root bs ms M h2 l1 x1 l2 ss [] []
                (List.length (l1 ++ x :: l2)) (List.length (ss ++ [[]]))) as A.
  assert (Fr : forall (V : Type), Forall (fun m => @dict_get Move V Move_eqb m [] = None) ms)
    by (intros V; apply Forall_forall; reflexivity).
  assert (Hs : Forall (fun m => hash_move m = ok tt) ms).
  { pose proof (generate_keyed _ _ _ _ _ _ G) as Q. clear - Q M.
    revert ms M. induction Q as [ | c cs (m & Lc & Hc) Q IH]; intros [ | m' ms] M;
      try discriminate M; constructor.
    - cbn [map] in M. rewrite Lc in M. now inversion M; subst.
    - apply IH. cbn [map] in M. now inversion M. }
  specialize (A ltac:(rewrite !length_app; reflexivity) eq_refl Pa eq_refl).
  specialize (A ltac:(apply Forall_forall; intros; split; reflexivity) Hs D).
  destruct (adopt_all_fields ms x1 (List.length (l1 ++ x :: l2))
              (List.length (ss ++ [[]])))
    as (Fb & Fp & Fn & Fl & Fc & Fs & Fz).
  pose proof (adopt_all_children ms x1 (List.length (l1 ++ x :: l2))
                (List.length (ss ++ [[]])) (Fr nat) D) as Fch.
  cbn [x1 board parent move_number leaf_nodes is_checkmate is_stalemate size
       children app] in Fb, Fp, Fn, Fl, Fc, Fs, Fz, Fch.
  set (xk := adopt_all x1 (List.length (l1 ++ x :: l2)) (List.length (ss ++ [[]])) ms)
    in *.
  unfold prepare_children, _reset_children, new_set, update_node, with_pieces, node.
  proj_node.
  rewrite !list_update_middle, !nth_middle. proj_node.
  rewrite G. proj_node.
  rewrite !list_update_middle. proj_node.
  fold x1. rewrite A. unfold ok at 1. cbv beta iota.
  unfold node. proj_node. rewrite !nth_middle.
  rewrite Fch.
  assert (NEm : combine ms (seq (List.length (l1 ++ x :: l2)) (List.length ms)) <> []).
  { destruct ms as [ | m0 ms0]; [ | discriminate].
    destruct bs; [congruence | discriminate Lms]. }
  destruct (combine ms (seq (List.length (l1 ++ x :: l2)) (List.length ms)))
    as [ | p0 ps0] eqn:Ecb; [congruence | ]. rewrite <- Ecb in *. clear NEm.
  unfold notify_parent, node. proj_node. rewrite nth_middle, Fp, Pa.
  eexists. split; [reflexivity | ].
  unfold node, leaves. proj_node. rewrite !nth_middle.
  split.
  { rewrite !length_app. cbn [List.length]. rewrite length_app.
    assert (Lk : forall n0 num s l, List.length (kids n0 num s l) = List.length l).
    { intros n0 num s l. revert s. induction l as [ | y l IH]; intros s;
        cbn [kids List.length]; [reflexivity | now rewrite IH]. }
    rewrite Lk. lia. }
  split; [rewrite Fz, Lms; lia | ].
  split; [rewrite Fch, Lms; reflexivity | ].
  split.
  { rewrite Fl, nth_middle.
    pose proof (fold_set_add_seq (List.length (l1 ++ x :: l2)) (List.length bs) 0)
      as Q.
    rewrite Nat.add_0_r in Q. exact Q. }
  split; [exact Fc | split; [exact Fs | ]].
  intros i b E.
  assert (Nk : nth (List.length (l1 ++ x :: l2) + i)
                 (l1 ++ xk :: l2 ++ kids (List.length l1) (move_number x1 + 1)
                                     (List.length (ss ++ [[]])) bs)
                 dangling_node
               = child_node b (List.length l1) (move_number x + 1)
                   (List.length (ss ++ [[]]) + 2 * i)).
  { replace (List.length (l1 ++ x :: l2)) with (List.length (l1 ++ xk :: l2))
      by (rewrite !length_app; reflexivity).
    rewrite app_comm_cons, app_assoc, app_nth2_plus.
    apply nth_kids, E. }
  rewrite Nk. cbn [child_node leaf_nodes]. split; [reflexivity | ].
  replace (List.length (ss ++ [[]]) + 2 * i)%nat
    with (List.length (ss ++ [fold_left (fun s c => set_add Nat.eqb c s)
                                 (seq (List.length (l1 ++ x :: l2)) (List.length bs)) []])
          + 2 * i)%nat
    by (rewrite !length_app; reflexivity).
  cbn [app].
  match goal with
  | |- nth _ (ss ++ ?a :: ?k) [] = _ =>
      replace (ss ++ a :: k) with ((ss ++ [a]) ++ k)
        by (rewrite <- app_assoc; reflexivity)
  end.
  rewrite app_nth2_plus. apply (nth_kid_sets bs i b _ E).
Qed.

(** X23. Expanding a root whose position yields moves, each under a key of
    its own: one node is created per yielded board, at the next free
    addresses and in the order of the yield; the root has size 1 + the
    number of boards, its children are those nodes under the moves that
    lead to them, and its leaves are exactly those nodes (the root itself is
    no leaf any more, and is not flagged).  Each new node holds its board,
    has the root as parent, the next move number, size 1, no children, and
    is its own only leaf. *)
Theorem expansion_counts (w : World) (n : nat) (h2 : Heap) (b2 : Board)
    (bs : list Board) (ms : list Move) :
  (n < List.length (nodes w))%nat ->
  parent (node w n) = None ->
  generate_legal_moves (pieces w) (board (node w n)) = (h2, b2, (bs, None)) ->
  map (fun b => last_move (state b)) bs = map Some ms ->
  distinct_keys ms ->
  bs <> [] ->
  exists w',
    prepare_children w n = (w', ok tt)
    /\ List.length (nodes w') = (List.length (nodes w) + List.length bs)%nat
    /\ size (node w' n) = 1 + Z.of_nat (List.length bs)
    /\ children (node w' n)
       = combine ms (seq (List.length (nodes w)) (List.length bs))
    /\ leaves w' (leaf_nodes (node w' n))
       = seq (List.length (nodes w)) (List.length bs)
    /\ is_checkmate (node w' n) = false
    /\ is_stalemate (node w' n) = false
    /\ forall i b, nth_error bs i = Some b ->
         node w' (List.length (nodes w) + i)
         = child_node b n (move_number (node w n) + 1)
             (leaf_nodes (node w' (List.length (nodes w) + i)))
         /\ leaves w' (leaf_nodes (node w' (List.length (nodes w) + i)))
            = [(List.length (nodes w) + i)%nat].
Proof. apply prepare_children_moves. Qed.

Lemma expansion_counts_witness :
  exists w',
    prepare_children (fst (captures_engine (Some 1%Q) None)) 0 = (w', ok tt)
    /\ size (node w' 0) = 4
    /\ leaves w' (leaf_nodes (node w' 0)) = [1; 2; 3]%nat.
Proof.
  set (W := fst (captures_engine (Some 1%Q) None)).
  set (GEN := generate_legal_moves (pieces W) (board (node W 0))).
  destruct (expansion_counts W 0 (fst (fst GEN)) (snd (fst GEN)) (fst (snd GEN))
              (flat_map (fun b => match last_move (state b) with
                                  | Some m => [m]
                                  | None => []
                                  end) (fst (snd GEN))))
    as (w' & E & _ & Sz & _ & Lv & _).
  - vm_compute. apply le_n.
  - vm_compute. reflexivity.
  - vm_compute. reflexivity.
  - vm_compute. reflexivity.
  - vm_compute.
    repeat match goal with
           | |- _ /\ _ => split
           | |- Forall _ _ => constructor
           | |- _ = _ => reflexivity
           | |- True => exact I
           end.
  - intros X. vm_compute in X. discriminate X.
  - exists w'. split; [exact E | split].
    + rewrite Sz. vm_compute. reflexivity.
    + rewrite Lv. vm_compute. reflexivity.
Defined.

(** ** Moves of the game *)

(** X24. [Game.make_move] records a move only when it went through: when it
    returns, the move is the last entry of the history, the new root is the
    child the old root held under that move, the limits are kept and a
    budget of the search is used up; when it raises, the history is the one
    from before. *)
Theorem Game_make_move_history (fuel : nat) (w : World) (g : Game) (move : Move)
    (w' : World) (g' : Game) (r : result unit) :
  Game_make_move fuel w g move = (w', g', r) ->
  match r with
  | inr _ =>
      history g' = history g ++ [move]
      /\ dict_get Move_eqb move (children (node w (root (engine g))))
         = Some (root (engine g'))
      /\ max_depth (engine g') = max_depth (engine g)
      /\ max_breadth (engine g') = max_breadth (engine g)
      /\ (depth (engine g) - 1 <= depth (engine g'))%Z
      /\ (below (depth (engine g')) (max_depth (engine g')) = false
          \/ below (size (node w' (root (engine g')))) (max_breadth (engine g'))
             = false)
  | inl _ => history g' = history g
  end.
Proof.
  unfold Game_make_move, Engine_make_move. intros H.
  destruct (hash_move move) as [x | u].
  { inversion H; subst. reflexivity. }
  destruct (dict_get Move_eqb move (children (node w (root (engine g)))))
    as [c | ] eqn:C.
  2: { inversion H; subst. reflexivity. }
  cbn [root max_depth max_breadth depth] in H.
  match type of H with
  | context [build_tree fuel ?w1 ?e1] =>
      destruct (build_tree fuel w1 e1) as [[w2 e2] [x | []]] eqn:B
  end.
  { inversion H; subst. reflexivity. }
  inversion H; subst. cbn [history engine].
  destruct (build_tree_result _ _ _ _ _ B) as (A & R & Md & Mb & Dp).
  cbn [root max_depth max_breadth depth] in R, Md, Mb, Dp.
  rewrite R. split; [reflexivity | split; [reflexivity | ]].
  split; [exact Md | split; [exact Mb | split; [lia | ]]].
  rewrite <- R. apply andb_false_iff. exact A.
Qed.

Lemma Game_make_move_history_witness :
  match Game_make_move 1 captures_world captures_game (mv "g2" "h3") with
  | (_, g', inr _) => history g' = [mv "g2" "h3"]
  | (_, _, inl _) => False
  end.
Proof.
  destruct (Game_make_move 1 captures_world captures_game (mv "g2" "h3"))
    as [[w' g'] [x | u]] eqn:E.
  - vm_compute in E. discriminate.
  - exact (proj1 (Game_make_move_history _ _ _ _ _ _ _ E)).
Defined.
